(** * Balance accumulator (services/balance_accumulator_handler.go)

    A shallow embedding of the accumulator of ortelius: the relational
    tables it reads and writes, the SQL statements of its three passes as
    list functions, the transaction handle with its deferred rollback, the
    accumulation loop, the runner's retry harness and the runner's
    admission protocol as an interleaving step function.

    Conventions.
    - A table is the list of its rows, in scan order; SELECT is
      [filter]/[map], JOIN is a nested loop, LIMIT is [firstn], UPDATE
      ... WHERE is [map] with a guarded change.
    - A Go [error] is its message ([err.Error()]); [nil] is [None].
    - Go statements that can fail for reasons outside the program (driver
      errors, deadlocks, timeouts) draw their outcome from a fault
      schedule carried by the state: the next entry says whether the next
      database call fails, and with which message.
    - Unbounded Go loops take fuel; running out of fuel is reported as
      such and is never confused with a return. *)

From Stdlib Require Import List ZArith String Bool Arith Lia Relations.
Import ListNotations.
Local Open Scope string_scope.
Local Open Scope list_scope.

(** ** Constants (lines 18-25) *)

Definition RowLintValue : nat := 100.

Inductive processType : Type :=
| processTypeIn
| processTypeOut.

(** The numeric value of a [processType], as [%d] prints it. *)
Definition processType_code (typ : processType) : string :=
  match typ with
  | processTypeIn => "1"
  | processTypeOut => "2"
  end.

(** Modelled from the spec: the constant [db.DeadlockDBErrorMessage] lives
    in package [services/db], which is not among the sources; the spec
    gives its value as the substring "Deadlock found". *)
Definition DeadlockDBErrorMessage : string := "Deadlock found".

(** [strings.Contains s substr]. *)
Fixpoint Contains (s substr : string) : bool :=
  String.prefix substr s ||
  match s with
  | EmptyString => false
  | String _ s' => Contains s' substr
  end.

(** ** Tables *)

Record output_addresses_accumulate_row : Type := mk_oaa {
  oaa_id : string;
  oaa_address : string;
  oaa_processed_out : Z;
  oaa_processed_in : Z
}.

Record output_txs_accumulate_row : Type := mk_ota {
  ota_id : string;
  ota_chain_id : string;
  ota_asset_id : string;
  ota_address : string;
  ota_transaction_id : string;
  ota_processed : Z
}.

Record avm_outputs_row : Type := mk_out {
  out_id : string;
  out_chain_id : string;
  out_asset_id : string;
  out_transaction_id : string;
  out_amount : Z
}.

Record avm_output_addresses_row : Type := mk_adr {
  adr_output_id : string;
  adr_address : string
}.

Record avm_outputs_redeeming_row : Type := mk_red {
  red_id : string
}.

Record accumulate_balances_row : Type := mk_ab {
  ab_id : string;
  ab_utxo_count : Z;
  ab_total_received : Z;
  ab_total_sent : Z;
  ab_transaction_count : Z
}.

Record DB : Type := mk_DB {
  output_addresses_accumulate : list output_addresses_accumulate_row;
  output_txs_accumulate : list output_txs_accumulate_row;
  avm_outputs : list avm_outputs_row;
  avm_output_addresses : list avm_output_addresses_row;
  avm_outputs_redeeming : list avm_outputs_redeeming_row;
  accumulate_balances : list accumulate_balances_row
}.

Definition set_output_addresses_accumulate
    (f : list output_addresses_accumulate_row -> list output_addresses_accumulate_row)
    (d : DB) : DB :=
  mk_DB (f (output_addresses_accumulate d)) (output_txs_accumulate d)
        (avm_outputs d) (avm_output_addresses d) (avm_outputs_redeeming d)
        (accumulate_balances d).

Definition set_output_txs_accumulate
    (f : list output_txs_accumulate_row -> list output_txs_accumulate_row)
    (d : DB) : DB :=
  mk_DB (output_addresses_accumulate d) (f (output_txs_accumulate d))
        (avm_outputs d) (avm_output_addresses d) (avm_outputs_redeeming d)
        (accumulate_balances d).

Definition set_accumulate_balances
    (f : list accumulate_balances_row -> list accumulate_balances_row)
    (d : DB) : DB :=
  mk_DB (output_addresses_accumulate d) (output_txs_accumulate d)
        (avm_outputs d) (avm_output_addresses d) (avm_outputs_redeeming d)
        (f (accumulate_balances d)).

(** ** The Go structs the queries load into *)

Record OutputAddressAccumulate : Type := mk_OutputAddressAccumulate {
  OAA_ID : string;
  OAA_Address : string
}.

Record OutputTxsAccumulate : Type := mk_OutputTxsAccumulate {
  OTA_ID : string;
  OTA_ChainID : string;
  OTA_AssetID : string;
  OTA_Address : string;
  OTA_TransactionID : string
}.

Record AccumulateBalances : Type := mk_AccumulateBalances {
  AB_ID : string;
  AB_ChainID : string;
  AB_AssetID : string;
  AB_Address : string;
  AB_TransactionCount : Z;
  AB_TotalReceived : Z;
  AB_TotalSent : Z
}.

(** ** Relational operators *)

(** [l JOIN r ON on], by nested loop. *)
Definition join {A B : Type} (on : A -> B -> bool) (l : list A) (r : list B)
  : list (A * B) :=
  flat_map (fun a => map (pair a) (filter (on a) r)) l.

(** The distinct values of a list, in order of first occurrence. *)
Definition distinct {A : Type} (eqb : A -> A -> bool) (l : list A) : list A :=
  fold_left (fun acc x => if existsb (eqb x) acc then acc else acc ++ [x]) l [].

Definition sumZ (l : list Z) : Z := fold_right Z.add 0%Z l.

(** ** The SQL statements of the passes *)

(** Lines 126-134: the claim of the outputs-out pass. *)
Definition select_claim_out (d : DB) : list OutputAddressAccumulate :=
  firstn RowLintValue
    (map (fun so => mk_OutputAddressAccumulate (oaa_id (fst so)) (oaa_address (fst so)))
       (filter (fun so => (oaa_processed_out (fst so) =? 0)%Z)
          (join (fun s o => (oaa_id s =? out_id o)%string)
                (output_addresses_accumulate d) (avm_outputs d)))).

(** Lines 139-149: the claim of the outputs-in pass. *)
Definition select_claim_in (d : DB) : list OutputAddressAccumulate :=
  firstn RowLintValue
    (map (fun sor => mk_OutputAddressAccumulate (oaa_id (fst (fst sor)))
                                                (oaa_address (fst (fst sor))))
       (filter (fun sor => (oaa_processed_in (fst (fst sor)) =? 0)%Z)
          (join (fun so r => (oaa_id (fst so) =? red_id r)%string)
             (join (fun s o => (oaa_id s =? out_id o)%string)
                   (output_addresses_accumulate d) (avm_outputs d))
             (avm_outputs_redeeming d)))).

(** Lines 124-153: the [switch typ] that picks the claim. *)
Definition select_claim (typ : processType) (d : DB) : list OutputAddressAccumulate :=
  match typ with
  | processTypeOut => select_claim_out d
  | processTypeIn => select_claim_in d
  end.

(** The GROUP BY key of the aggregation: chain_id, address, asset_id. *)
Definition group_key : Type := (string * string * string)%type.

Definition group_key_eqb (x y : group_key) : bool :=
  (fst (fst x) =? fst (fst y))%string && (snd (fst x) =? snd (fst y))%string
  && (snd x =? snd y)%string.

Definition group_key_of (oa : avm_outputs_row * avm_output_addresses_row) : group_key :=
  (out_chain_id (fst oa), adr_address (snd oa), out_asset_id (fst oa)).

(** Lines 162-172: the aggregation of one claimed (id, address), one
    [AccumulateBalances] per group; [ID] is still empty. *)
Definition select_balances (d : DB) (row : OutputAddressAccumulate)
  : list AccumulateBalances :=
  let joined :=
    filter (fun oa => (out_id (fst oa) =? OAA_ID row)%string
                      && (adr_address (snd oa) =? OAA_Address row)%string)
      (join (fun o a => (out_id o =? adr_output_id a)%string)
            (avm_outputs d) (avm_output_addresses d)) in
  map (fun k =>
         let members := filter (fun oa => group_key_eqb k (group_key_of oa)) joined in
         mk_AccumulateBalances ""
           (fst (fst k)) (snd k) (snd (fst k))
           (Z.of_nat (List.length
              (distinct String.eqb (map (fun oa => out_transaction_id (fst oa)) members))))
           (sumZ (map (fun oa => out_amount (fst oa)) members))
           (sumZ (map (fun oa => out_amount (fst oa)) members)))
      (distinct group_key_eqb (map group_key_of joined)).

(** Lines 211-212 and 222-223: the SET clause of the delta of [b], on
    one aggregate row. *)
Definition apply_delta (typ : processType) (b : AccumulateBalances)
    (r : accumulate_balances_row) : accumulate_balances_row :=
  match typ with
  | processTypeOut =>
      mk_ab (ab_id r) (ab_utxo_count r + 1)
            (ab_total_received r + AB_TotalReceived b)
            (ab_total_sent r) (ab_transaction_count r)
  | processTypeIn =>
      mk_ab (ab_id r) (ab_utxo_count r - 1)
            (ab_total_received r)
            (ab_total_sent r + AB_TotalSent b) (ab_transaction_count r)
  end.

(** Lines 209-229: the delta applied to the aggregate row of [b]. *)
Definition update_accumulate_balances (typ : processType) (b : AccumulateBalances)
    (tbl : list accumulate_balances_row) : list accumulate_balances_row :=
  map (fun r => if (ab_id r =? AB_ID b)%string then apply_delta typ b r else r) tbl.

(** Lines 233-239: the SET clause of the flag flip, on one staging row. *)
Definition flip_flag (typ : processType) (s : output_addresses_accumulate_row)
  : output_addresses_accumulate_row :=
  match typ with
  | processTypeOut => mk_oaa (oaa_id s) (oaa_address s) 1 (oaa_processed_in s)
  | processTypeIn => mk_oaa (oaa_id s) (oaa_address s) (oaa_processed_out s) 1
  end.

(** Lines 240-244: the flip of the staging flag of one (id, address). *)
Definition update_output_addresses_accumulate (typ : processType)
    (row : OutputAddressAccumulate)
    (tbl : list output_addresses_accumulate_row) : list output_addresses_accumulate_row :=
  map (fun s =>
         if (oaa_id s =? OAA_ID row)%string && (oaa_address s =? OAA_Address row)%string
         then flip_flag typ s else s) tbl.

(** Lines 271-276: the claim of the transaction pass. *)
Definition select_claim_txs (d : DB) : list OutputTxsAccumulate :=
  firstn RowLintValue
    (map (fun t => mk_OutputTxsAccumulate (ota_id t) (ota_chain_id t) (ota_asset_id t)
                                          (ota_address t) (ota_transaction_id t))
       (filter (fun t => (ota_processed t =? 0)%Z) (output_txs_accumulate d))).

(** Line 318: the SET clause of the transaction pass, on one aggregate row. *)
Definition bump_transaction_count (r : accumulate_balances_row) : accumulate_balances_row :=
  mk_ab (ab_id r) (ab_utxo_count r) (ab_total_received r) (ab_total_sent r)
        (ab_transaction_count r + 1).

(** Lines 316-321: the bump of the transaction count of [b]'s row. *)
Definition update_transaction_count (b : AccumulateBalances)
    (tbl : list accumulate_balances_row) : list accumulate_balances_row :=
  map (fun r => if (ab_id r =? AB_ID b)%string then bump_transaction_count r else r) tbl.

(** Line 329: the SET clause of the transaction pass, on one staging row. *)
Definition mark_processed (t : output_txs_accumulate_row) : output_txs_accumulate_row :=
  mk_ota (ota_id t) (ota_chain_id t) (ota_asset_id t) (ota_address t)
         (ota_transaction_id t) 1.

(** Lines 328-332: the flip of one staging row of the transaction pass. *)
Definition update_output_txs_accumulate (row : OutputTxsAccumulate)
    (tbl : list output_txs_accumulate_row) : list output_txs_accumulate_row :=
  map (fun t => if (ota_id t =? OTA_ID row)%string then mark_processed t else t) tbl.

(** ** Collaborators that are parameters of the Go functions *)

(** The [Persist] interface, as far as the accumulator uses it: the insert
    of an aggregate row inside the caller's transaction.  It yields the
    new contents of [accumulate_balances], or an error. *)
Record Persist : Type := mk_Persist {
  InsertAccumulateBalances :
    AccumulateBalances -> list accumulate_balances_row ->
    string + list accumulate_balances_row
}.

Definition zero_balance (id : string) : accumulate_balances_row :=
  mk_ab id 0 0 0 0.

Definition has_balance (id : string) (tbl : list accumulate_balances_row) : bool :=
  existsb (fun r => (ab_id r =? id)%string) tbl.

(** Modelled from the spec: the implementation of
    [Persist.InsertAccumulateBalances] is not among the sources.  Section
    4.5 and invariant I2 make a duplicate key a success that preserves the
    existing counters; scenario 1 shows a row created on first sighting
    with every counter at zero before the pass applies its delta. *)
Definition persist_contract (p : Persist) : Prop :=
  forall b tbl,
    InsertAccumulateBalances p b tbl =
    inr (if has_balance (AB_ID b) tbl then tbl else tbl ++ [zero_balance (AB_ID b)]).

(** ** Observable events and the state the code runs in *)

Inductive Pass : Type := PassOut | PassIn | PassTxs.

Definition pass_of (typ : processType) : Pass :=
  match typ with
  | processTypeOut => PassOut
  | processTypeIn => PassIn
  end.

Inductive Event : Type :=
| EvNewJob (name : string)          (* conns.Stream().NewJob(name) *)
| EvBegin                           (* sess.Begin() succeeded *)
| EvClaim (p : Pass) (n : nat)      (* the claim of pass p loaded n rows *)
| EvCommit                          (* dbTx.Commit() succeeded *)
| EvRollback                        (* the deferred rollback undid the transaction *)
| EvLogInfo (msg : string)          (* a.Log.Info *)
| EvLogWarn (msg : string)          (* sc.Log.Warn *)
| EvSleep (ms : nat).               (* time.Sleep *)

(** [db] is what the statements of the session see: the committed tables,
    or the working copy while a transaction is open.  [tx] holds the
    tables as they were at [Begin] while the transaction is open.
    [faults] is the fault schedule and [events] the trace so far. *)
Record World : Type := mk_World {
  db : DB;
  tx : option DB;
  faults : list (option string);
  events : list Event
}.

(** ** The monad of fallible statements *)

Definition Tx (A : Type) : Type := World -> (string + A) * World.

Definition ret {A : Type} (a : A) : Tx A := fun w => (inr a, w).

Definition throw {A : Type} (e : string) : Tx A := fun w => (inl e, w).

Definition bind {A B : Type} (m : Tx A) (k : A -> Tx B) : Tx B :=
  fun w =>
    match m w with
    | (inl e, w') => (inl e, w')
    | (inr a, w') => k a w'
    end.

Notation "x <- m ;; k" := (bind m (fun x => k))
  (at level 61, m at next level, right associativity).
Notation "m ;; k" := (bind m (fun _ => k))
  (at level 61, right associativity).

(** One call into the driver: it fails when the schedule says so. *)
Definition db_call : Tx unit :=
  fun w =>
    match faults w with
    | Some e :: fs => (inl e, mk_World (db w) (tx w) fs (events w))
    | None :: fs => (inr tt, mk_World (db w) (tx w) fs (events w))
    | [] => (inr tt, w)
    end.

Definition emit (e : Event) : Tx unit :=
  fun w => (inr tt, mk_World (db w) (tx w) (faults w) (events w ++ [e])).

(** A SELECT: a driver call, then the rows. *)
Definition query {A : Type} (q : DB -> A) : Tx A :=
  db_call ;; fun w => (inr (q (db w)), w).

(** An UPDATE: a driver call, then the change. *)
Definition exec (f : DB -> DB) : Tx unit :=
  db_call ;; fun w => (inr tt, mk_World (f (db w)) (tx w) (faults w) (events w)).

(** [for _, x := range l { body }] with the early [return err]. *)
Fixpoint for_each {A : Type} (l : list A) (body : A -> Tx unit) : Tx unit :=
  match l with
  | [] => ret tt
  | x :: l' => body x ;; for_each l' body
  end.

(** The same loop when each round yields a value that is kept. *)
Fixpoint for_each_collect {A B : Type} (l : list A) (body : A -> Tx B) : Tx (list B) :=
  match l with
  | [] => ret []
  | x :: l' => y <- body x ;; ys <- for_each_collect l' body ;; ret (y :: ys)
  end.

(** [sess.Begin()]. *)
Definition sess_Begin : Tx unit :=
  db_call ;;
  fun w => (inr tt, mk_World (db w) (Some (db w)) (faults w) (events w ++ [EvBegin])).

(** [dbTx.Commit()]. *)
Definition dbTx_Commit : Tx unit :=
  db_call ;;
  fun w => (inr tt, mk_World (db w) None (faults w) (events w ++ [EvCommit])).

(** [dbTx.RollbackUnlessCommitted()], which every pass defers. *)
Definition RollbackUnlessCommitted (w : World) : World :=
  match tx w with
  | Some d0 => mk_World d0 None (faults w) (events w ++ [EvRollback])
  | None => w
  end.

Inductive Outcome (A : Type) : Type :=
| Returned (a : A)
| OutOfFuel.
Arguments Returned {A} a.
Arguments OutOfFuel {A}.

Section Accumulator.

(** [AccumulateBalances.ComputeID], which is not among the sources: from
    chain id, asset id and address to the balance key, or an error. *)
Variable ComputeID : string -> string -> string -> string + string.

Variable persist : Persist.

(** [b.ComputeID()]: sets [b.ID]. *)
Definition AB_ComputeID (b : AccumulateBalances) : Tx AccumulateBalances :=
  match ComputeID (AB_ChainID b) (AB_AssetID b) (AB_Address b) with
  | inl e => throw e
  | inr id =>
      ret (mk_AccumulateBalances id (AB_ChainID b) (AB_AssetID b) (AB_Address b)
             (AB_TransactionCount b) (AB_TotalReceived b) (AB_TotalSent b))
  end.

(** [persist.InsertAccumulateBalances(ctx, dbTx, b)]. *)
Definition persist_InsertAccumulateBalances (b : AccumulateBalances) : Tx unit :=
  db_call ;;
  fun w =>
    match InsertAccumulateBalances persist b (accumulate_balances (db w)) with
    | inl e => (inl e, w)
    | inr tbl =>
        (inr tt, mk_World (set_accumulate_balances (fun _ => tbl) (db w))
                          (tx w) (faults w) (events w))
    end.

(** Lines 183-194 and 287-303: compute the key, then insert. *)
Definition compute_and_insert (b : AccumulateBalances) : Tx AccumulateBalances :=
  b' <- AB_ComputeID b ;;
  persist_InsertAccumulateBalances b' ;;
  ret b'.

(** Lines 197-204 and 306-313: SELECT id ... WHERE id IN ? FOR UPDATE.
    The rows loaded are not used. *)
Definition select_locked (ids : list string) : Tx (list string) :=
  query (fun d => map ab_id
                    (filter (fun r => existsb (String.eqb (ab_id r)) ids)
                            (accumulate_balances d))).

(** Lines 159-248: one round of [for _, row := range rowdata]. *)
Definition process_row (typ : processType) (row : OutputAddressAccumulate) : Tx unit :=
  balances <- query (fun d => select_balances d row) ;;
  match balances with
  | [] =>
      emit (EvLogInfo ("invalid balance " ++ OAA_ID row ++ " " ++ OAA_Address row
                       ++ " on " ++ processType_code typ)%string)
  | _ :: _ =>
      balances' <- for_each_collect balances compute_and_insert ;;
      _ <- select_locked (map AB_ID balances') ;;
      for_each balances'
        (fun b => exec (set_accumulate_balances (update_accumulate_balances typ b))) ;;
      exec (set_output_addresses_accumulate (update_output_addresses_accumulate typ row))
  end.

(** Lines 124-254: [processOutputs] between [Begin] and the deferred
    rollback. *)
Definition processOutputs_tx (typ : processType) : Tx nat :=
  rowdata <- query (select_claim typ) ;;
  emit (EvClaim (pass_of typ) (List.length rowdata)) ;;
  match rowdata with
  | [] => ret 0
  | _ :: _ =>
      for_each rowdata (process_row typ) ;;
      dbTx_Commit ;;
      ret (List.length rowdata)
  end.

(** Lines 110-255. *)
Definition processOutputs (typ : processType) (w : World) : (nat * option string) * World :=
  match sess_Begin w with
  | (inl e, w0) => ((0, Some e), w0)
  | (inr _, w0) =>
      let (r, w1) := processOutputs_tx typ w0 in
      let w2 := RollbackUnlessCommitted w1 in
      match r with
      | inl e => ((0, Some e), w2)
      | inr n => ((n, None), w2)
      end
  end.

(** Lines 288-292: the provisional balance of a claimed row. *)
Definition balance_of_row (row : OutputTxsAccumulate) : AccumulateBalances :=
  mk_AccumulateBalances "" (OTA_ChainID row) (OTA_AssetID row) (OTA_Address row) 0 0 0.

(** Lines 271-342: [processTransactions] between [Begin] and the deferred
    rollback. *)
Definition processTransactions_tx : Tx nat :=
  rowdata <- query select_claim_txs ;;
  emit (EvClaim PassTxs (List.length rowdata)) ;;
  match rowdata with
  | [] => ret 0
  | _ :: _ =>
      balances <- for_each_collect rowdata (fun row => compute_and_insert (balance_of_row row)) ;;
      _ <- select_locked (map AB_ID balances) ;;
      for_each balances
        (fun b => exec (set_accumulate_balances (update_transaction_count b))) ;;
      for_each rowdata
        (fun row => exec (set_output_txs_accumulate (update_output_txs_accumulate row))) ;;
      dbTx_Commit ;;
      ret (List.length rowdata)
  end.

(** Lines 257-343. *)
Definition processTransactions (w : World) : (nat * option string) * World :=
  match sess_Begin w with
  | (inl e, w0) => ((0, Some e), w0)
  | (inr _, w0) =>
      let (r, w1) := processTransactions_tx w0 in
      let w2 := RollbackUnlessCommitted w1 in
      match r with
      | inl e => ((0, Some e), w2)
      | inr n => ((n, None), w2)
      end
  end.

Definition run_pass (p : Pass) : World -> (nat * option string) * World :=
  match p with
  | PassOut => processOutputs processTypeOut
  | PassIn => processOutputs processTypeIn
  | PassTxs => processTransactions
  end.

(** Lines 69-80, 81-92, 93-104: one inner [for] of [Accumulate].  It
    yields the error it returns with, or the value [icnt] has when it
    breaks. *)
Fixpoint pass_loop (fuel : nat) (p : Pass) (icnt : nat) (w : World)
  : Outcome (string + nat) * World :=
  match fuel with
  | 0 => (OutOfFuel, w)
  | S fuel' =>
      let '((cnt, err), w1) := run_pass p w in
      match err with
      | Some e => (Returned (inl e), w1)
      | None =>
          let icnt1 := if (0 <? cnt)%nat then 0 else icnt in
          if (cnt <? RowLintValue)%nat then (Returned (inr icnt1), w1)
          else pass_loop fuel' p icnt1 w1
      end
  end.

(** Lines 68-105: the body of the outer [for], the three inner loops in
    their order. *)
Definition sweep (fuel : nat) (icnt : nat) (w : World) : Outcome (string + nat) * World :=
  match pass_loop fuel PassOut icnt w with
  | (Returned (inr icnt1), w1) =>
      match pass_loop fuel PassIn icnt1 w1 with
      | (Returned (inr icnt2), w2) => pass_loop fuel PassTxs icnt2 w2
      | other => other
      end
  | other => other
  end.

(** Lines 67-107: [for ; icnt < 10; icnt++]. *)
Fixpoint Accumulate_loop (fuel : nat) (icnt : nat) (w : World)
  : Outcome (option string) * World :=
  if (icnt <? 10)%nat then
    match fuel with
    | 0 => (OutOfFuel, w)
    | S fuel' =>
        match sweep fuel icnt w with
        | (Returned (inr icnt'), w') => Accumulate_loop fuel' (icnt' + 1) w'
        | (Returned (inl e), w') => (Returned (Some e), w')
        | (OutOfFuel, w') => (OutOfFuel, w')
        end
    end
  else (Returned None, w).

(** Lines 63-108. *)
Definition Accumulate (fuel : nat) (w : World) : Outcome (option string) * World :=
  Accumulate_loop fuel 0
    (mk_World (db w) (tx w) (faults w) (events w ++ [EvNewJob "accumulate"])).

(** Lines 50-56: the retry loop of the background task; it yields the
    value [err] has at the [break]. *)
Fixpoint Run_retry (fuel accfuel : nat) (w : World) : Outcome (option string) * World :=
  match fuel with
  | 0 => (OutOfFuel, w)
  | S fuel' =>
      match Accumulate accfuel w with
      | (OutOfFuel, w1) => (OutOfFuel, w1)
      | (Returned None, w1) => (Returned None, w1)
      | (Returned (Some e), w1) =>
          if Contains e DeadlockDBErrorMessage then
            Run_retry fuel' accfuel
              (mk_World (db w1) (tx w1) (faults w1) (events w1 ++ [EvSleep 1]))
          else (Returned (Some e), w1)
      end
  end.

(** Lines 49-59: the body of the background task.  It returns nothing. *)
Definition Run_task (fuel accfuel : nat) (w : World) : Outcome unit * World :=
  match Run_retry fuel accfuel w with
  | (OutOfFuel, w1) => (OutOfFuel, w1)
  | (Returned None, w1) => (Returned tt, w1)
  | (Returned (Some e), w1) =>
      (Returned tt,
       mk_World (db w1) (tx w1) (faults w1)
                (events w1 ++ [EvLogWarn ("Accumulate " ++ e)%string]))
  end.

End Accumulator.

(** * Instances and databases used to run the model *)

(** A balance key in the way the spec writes it, [H(C,S,A)], kept readable. *)
Definition ComputeID_concat (chain_id asset_id address : string) : string + string :=
  inr (chain_id ++ ":" ++ asset_id ++ ":" ++ address)%string.

(** A key computation that fails on an empty address. *)
Definition ComputeID_strict (chain_id asset_id address : string) : string + string :=
  match address with
  | EmptyString => inl "invalid id"
  | _ => ComputeID_concat chain_id asset_id address
  end.

(** Modelled from the spec: an implementation of [Persist] as section 4.5
    describes it (see [persist_contract]). *)
Definition persist_spec : Persist :=
  mk_Persist (fun b tbl =>
    inr (if has_balance (AB_ID b) tbl then tbl else tbl ++ [zero_balance (AB_ID b)])).

Definition empty_DB : DB := mk_DB [] [] [] [] [] [].

Definition world_of (d : DB) : World := mk_World d None [] [].

(** Scenario 1 of the spec: a single output. *)
Definition scenario1 : DB :=
  mk_DB [mk_oaa "X" "A" 0 0] [] [mk_out "X" "C" "S" "T" 10] [mk_adr "X" "A"] [] [].

(** Scenario 3 of the spec: the output is accumulated, no redemption yet. *)
Definition scenario3 : DB :=
  mk_DB [mk_oaa "X" "A" 1 0] [] [mk_out "X" "C" "S" "T" 10] [mk_adr "X" "A"] []
        [mk_ab "C:S:A" 1 10 0 0].

(** Scenario 2 of the spec: scenario 3 with the redemption ingested. *)
Definition scenario2 : DB :=
  mk_DB [mk_oaa "X" "A" 1 0] [] [mk_out "X" "C" "S" "T" 10] [mk_adr "X" "A"]
        [mk_red "X"] [mk_ab "C:S:A" 1 10 0 0].

(** Scenario 5 of the spec: three transactions on one key. *)
Definition scenario5 : DB :=
  mk_DB [] [mk_ota "1" "C" "S" "A" "T1" 0; mk_ota "2" "C" "S" "A" "T2" 0;
            mk_ota "3" "C" "S" "A" "T3" 0] [] [] [] [].

(** An output, its redemption and a transaction, all still to accumulate. *)
Definition workload : DB :=
  mk_DB [mk_oaa "X" "A" 0 0; mk_oaa "Y" "B" 0 0]
        [mk_ota "1" "C" "S" "A" "T" 0; mk_ota "2" "C" "S" "B" "T" 0]
        [mk_out "X" "C" "S" "T" 10; mk_out "Y" "C" "S" "T" 7]
        [mk_adr "X" "A"; mk_adr "Y" "B"] [mk_red "X"] [].

(** A transaction row whose address is empty. *)
Definition bad_key : DB :=
  mk_DB [] [mk_ota "1" "C" "S" "" "T1" 0] [] [] [] [].

Definition deadlock_message : string :=
  "Error 1213: Deadlock found when trying to get lock; try restarting transaction".

(** * Notions used to state and prove the properties *)

Section Notions.

Variable ComputeID : string -> string -> string -> string + string.
Variable persist : Persist.


(** [wp m Q w]: running [m] from [w] ends in a result and a state that
    satisfy [Q]. *)
Definition wp {A : Type} (m : Tx A) (Q : string + A -> World -> Prop) (w : World) : Prop :=
  Q (fst (m w)) (snd (m w)).

(** [w] with another fault schedule. *)
Definition with_faults (fs : list (option string)) (w : World) : World :=
  mk_World (db w) (tx w) fs (events w).

Definition is_info (ev : Event) : bool :=
  match ev with
  | EvLogInfo _ => true
  | _ => false
  end.

(** One write of an output pass that claimed [rows]. *)
Inductive out_step (typ : processType) (rows : list OutputAddressAccumulate)
  : DB -> DB -> Prop :=
| out_step_insert d b tbl :
    InsertAccumulateBalances persist b (accumulate_balances d) = inr tbl ->
    out_step typ rows d (set_accumulate_balances (fun _ => tbl) d)
| out_step_update d b :
    out_step typ rows d (set_accumulate_balances (update_accumulate_balances typ b) d)
| out_step_flag d row :
    In row rows ->
    out_step typ rows d
      (set_output_addresses_accumulate (update_output_addresses_accumulate typ row) d).

(** One write of a transaction pass that claimed [rows]. *)
Inductive txs_step (rows : list OutputTxsAccumulate) : DB -> DB -> Prop :=
| txs_step_insert d b tbl :
    InsertAccumulateBalances persist b (accumulate_balances d) = inr tbl ->
    txs_step rows d (set_accumulate_balances (fun _ => tbl) d)
| txs_step_update d b :
    txs_step rows d (set_accumulate_balances (update_transaction_count b) d)
| txs_step_flag d row :
    In row rows ->
    txs_step rows d (set_output_txs_accumulate (update_output_txs_accumulate row) d).

(** One write of pass [p] started on the tables [d0]. *)
Definition pass_step (p : Pass) (d0 : DB) : DB -> DB -> Prop :=
  match p with
  | PassOut => out_step processTypeOut (select_claim_out d0)
  | PassIn => out_step processTypeIn (select_claim_in d0)
  | PassTxs => txs_step (select_claim_txs d0)
  end.

Definition pass_steps (p : Pass) (d0 : DB) : DB -> DB -> Prop :=
  clos_refl_trans DB (pass_step p d0).

(** The number of rows the claim of pass [p] loads from [d]. *)
Definition claim_len (p : Pass) (d : DB) : nat :=
  match p with
  | PassOut => List.length (select_claim_out d)
  | PassIn => List.length (select_claim_in d)
  | PassTxs => List.length (select_claim_txs d)
  end.

(** The state between the claim and the commit of a pass started at
    tables [d0], with [t0] saved at [Begin] and trace [ev0] after the
    claim: the tables went through writes of the pass only, the
    transaction is still open, and only info lines were logged. *)
Definition open_inv (p : Pass) (d0 : DB) (t0 : option DB) (ev0 : list Event)
    (w : World) : Prop :=
  pass_steps p d0 d0 (db w) /\ tx w = t0 /\
  exists infos, Forall (fun ev => is_info ev = true) infos /\ events w = ev0 ++ infos.

(** What the part of a pass between [Begin] and the deferred rollback
    leaves behind. *)
Definition tx_post (p : Pass) (w0 : World) (r : string + nat) (w1 : World) : Prop :=
  pass_steps p (db w0) (db w0) (db w1) /\
  exists infos, Forall (fun ev => is_info ev = true) infos /\
  match r with
  | inl _ =>
      tx w1 = tx w0 /\
      (events w1 = events w0 \/
       events w1 = events w0 ++ EvClaim p (claim_len p (db w0)) :: infos)
  | inr n =>
      n = claim_len p (db w0) /\
      match n with
      | 0 => tx w1 = tx w0 /\ db w1 = db w0 /\ events w1 = events w0 ++ [EvClaim p 0]
      | S _ => tx w1 = None /\
               events w1 = events w0 ++ EvClaim p n :: infos ++ [EvCommit]
      end
  end.

(** The trace one invocation of pass [p] adds when its claim loads [len]
    rows, by the error it returns. *)
Inductive pass_trace (p : Pass) (len : nat) : option string -> list Event -> Prop :=
| pass_trace_no_tx e :
    pass_trace p len (Some e) []
| pass_trace_no_claim e :
    pass_trace p len (Some e) [EvBegin; EvRollback]
| pass_trace_failed e infos :
    Forall (fun ev => is_info ev = true) infos ->
    pass_trace p len (Some e) (EvBegin :: EvClaim p len :: infos ++ [EvRollback])
| pass_trace_empty :
    len = 0 ->
    pass_trace p len None [EvBegin; EvClaim p 0; EvRollback]
| pass_trace_committed infos :
    len <> 0 ->
    Forall (fun ev => is_info ev = true) infos ->
    pass_trace p len None (EvBegin :: EvClaim p len :: infos ++ [EvCommit]).

(** [Begin], the statements of the pass, then the deferred rollback: the
    frame that [processOutputs] and [processTransactions] share. *)
Definition in_tx (body : Tx nat) (w : World) : (nat * option string) * World :=
  match sess_Begin w with
  | (inl e, w0) => ((0, Some e), w0)
  | (inr _, w0) =>
      let (r, w1) := body w0 in
      let w2 := RollbackUnlessCommitted w1 in
      match r with
      | inl e => ((0, Some e), w2)
      | inr n => ((n, None), w2)
      end
  end.

(** What one invocation of a pass returns and leaves, in every case. *)
Record pass_result (p : Pass) (w : World) (cnt : nat) (err : option string)
    (w' : World) : Prop := mk_pass_result {
  pr_trace : exists evs,
      events w' = events w ++ evs /\ pass_trace p (claim_len p (db w)) err evs;
  pr_cnt : cnt = match err with
                 | Some _ => 0
                 | None => claim_len p (db w)
                 end;
  pr_steps : pass_steps p (db w) (db w) (db w');
  pr_undone : err <> None \/ claim_len p (db w) = 0 -> db w' = db w
}.

(** No entry among the first [n] of a schedule is a failure. *)
Definition no_fault_in (n : nat) (fs : list (option string)) : Prop :=
  forall e, ~ In (Some e) (firstn n fs).

(** The value of column [f] of the row of [tbl] with key [k]; 0 when
    there is no such row. *)
Definition column (f : accumulate_balances_row -> Z) (tbl : list accumulate_balances_row)
    (k : string) : Z :=
  match find (fun r => (ab_id r =? k)%string) tbl with
  | Some r => f r
  | None => 0%Z
  end.

(** The value of column [f] of the aggregate row with key [k]. *)
Definition balance_column (f : accumulate_balances_row -> Z) (d : DB) (k : string) : Z :=
  column f (accumulate_balances d) k.

(** Column [f] is outside the direction of pass [p]. *)
Definition outside (p : Pass) (f : accumulate_balances_row -> Z) : Prop :=
  (forall id, f (zero_balance id) = 0%Z) /\
  match p with
  | PassOut => forall b r, f (apply_delta processTypeOut b r) = f r
  | PassIn => forall b r, f (apply_delta processTypeIn b r) = f r
  | PassTxs => forall r, f (bump_transaction_count r) = f r
  end.

(** [on_ok m R]: whenever [m] succeeds with [a], the tables before and
    after are related by [R] at [a]. *)
Definition on_ok {A : Type} (m : Tx A) (R : DB -> A -> DB -> Prop) : Prop :=
  forall w a w', m w = (inr a, w') -> R (db w) a (db w').

(** The rounds of a loop, one after the other. *)
Inductive iter {A : Type} (R : A -> DB -> DB -> Prop) : list A -> DB -> DB -> Prop :=
| iter_nil d : iter R [] d d
| iter_cons x l d d' d'' : R x d d' -> iter R l d' d'' -> iter R (x :: l) d d''.

(** [b] with its key set. *)
Definition with_ID (b : AccumulateBalances) (id : string) : AccumulateBalances :=
  mk_AccumulateBalances id (AB_ChainID b) (AB_AssetID b) (AB_Address b)
    (AB_TransactionCount b) (AB_TotalReceived b) (AB_TotalSent b).

(** The keys of [bs] were computed and their rows inserted, in order. *)
Inductive inserted : list AccumulateBalances -> list AccumulateBalances -> DB -> DB -> Prop :=
| inserted_nil d : inserted [] [] d d
| inserted_cons b id tbl bs bs' d d' :
    ComputeID (AB_ChainID b) (AB_AssetID b) (AB_Address b) = inr id ->
    InsertAccumulateBalances persist (with_ID b id) (accumulate_balances d) = inr tbl ->
    inserted bs bs' (set_accumulate_balances (fun _ => tbl) d) d' ->
    inserted (b :: bs) (with_ID b id :: bs') d d'.

(** One round of the loop of [processOutputs] that did not fail. *)
Definition row_rel (typ : processType) (row : OutputAddressAccumulate) (d d' : DB) : Prop :=
  match select_balances d row with
  | [] => d' = d
  | bs =>
      exists bs' d1,
        inserted bs bs' d d1 /\
        d' = set_output_addresses_accumulate (update_output_addresses_accumulate typ row)
               (fold_left
                  (fun d b => set_accumulate_balances (update_accumulate_balances typ b) d)
                  bs' d1)
  end.

(** The writes of a transaction pass that claimed [rows] and did not fail. *)
Definition txs_rel (rows : list OutputTxsAccumulate) (d d' : DB) : Prop :=
  match rows with
  | [] => d' = d
  | _ =>
      exists bs' d1,
        inserted (map balance_of_row rows) bs' d d1 /\
        d' = fold_left
               (fun d row => set_output_txs_accumulate (update_output_txs_accumulate row) d)
               rows
               (fold_left
                  (fun d b => set_accumulate_balances (update_transaction_count b) d)
                  bs' d1)
  end.

(** The tables after a pass that returned no error. *)
Definition pass_rel (p : Pass) (d d' : DB) : Prop :=
  match p with
  | PassOut => iter (row_rel processTypeOut) (select_claim_out d) d d'
  | PassIn => iter (row_rel processTypeIn) (select_claim_in d) d d'
  | PassTxs => txs_rel (select_claim_txs d) d d'
  end.

(** The tables the accumulator only reads. *)
Definition same_inputs (d d' : DB) : Prop :=
  avm_outputs d' = avm_outputs d /\
  avm_output_addresses d' = avm_output_addresses d /\
  avm_outputs_redeeming d' = avm_outputs_redeeming d.

(** * Conservation (invariant I4), stated on the tables *)



(** [k] is the balance key of (chain_id, asset_id, address). *)
Definition key_is (chain_id asset_id address k : string) : bool :=
  match ComputeID chain_id asset_id address with
  | inr k' => (k' =? k)%string
  | inl _ => false
  end.

(** The outputs accumulated under key [k] in direction [flag]: the
    staging rows whose [flag] is 1, each with its output, where the key
    of the output's chain and asset and the row's address is [k]. *)
Definition accumulated (flag : output_addresses_accumulate_row -> Z) (d : DB) (k : string)
  : list (output_addresses_accumulate_row * avm_outputs_row) :=
  filter (fun so => (flag (fst so) =? 1)%Z
                    && key_is (out_chain_id (snd so)) (out_asset_id (snd so))
                              (oaa_address (fst so)) k)
    (join (fun s o => (oaa_id s =? out_id o)%string)
          (output_addresses_accumulate d) (avm_outputs d)).

Definition sum_amounts (l : list (output_addresses_accumulate_row * avm_outputs_row)) : Z :=
  sumZ (map (fun so => out_amount (snd so)) l).

(** The rows of [output_txs_accumulate] with [processed = 1] whose
    balance key is [k]. *)
Definition accumulated_txs (d : DB) (k : string) : list output_txs_accumulate_row :=
  filter (fun t => (ota_processed t =? 1)%Z
                   && key_is (ota_chain_id t) (ota_asset_id t) (ota_address t) k)
    (output_txs_accumulate d).

(** I4 at balance key [k]. *)
Definition conserved_at (d : DB) (k : string) : Prop :=
  balance_column ab_total_received d k = sum_amounts (accumulated oaa_processed_out d k) /\
  balance_column ab_total_sent d k = sum_amounts (accumulated oaa_processed_in d k) /\
  balance_column ab_utxo_count d k =
    (Z.of_nat (List.length (accumulated oaa_processed_out d k))
     - Z.of_nat (List.length (accumulated oaa_processed_in d k)))%Z /\
  balance_column ab_transaction_count d k = Z.of_nat (List.length (accumulated_txs d k)).

(** I4. *)
Definition conserved (d : DB) : Prop := forall k, conserved_at d k.


(** The keys of the tables: (id, address) of a staging output row, id of
    an output, (output_id, address) of an output address, id of a
    redemption, id of a staging transaction row. *)
Record keys_ok (d : DB) : Prop := mk_keys_ok {
  ko_staging :
    NoDup (map (fun s => (oaa_id s, oaa_address s)) (output_addresses_accumulate d));
  ko_outputs : NoDup (map out_id (avm_outputs d));
  ko_addresses :
    NoDup (map (fun a => (adr_output_id a, adr_address a)) (avm_output_addresses d));
  ko_redeeming : NoDup (map red_id (avm_outputs_redeeming d));
  ko_txs : NoDup (map ota_id (output_txs_accumulate d))
}.

(** The flag a direction claims on and flips. *)
Definition flag_of (typ : processType) : output_addresses_accumulate_row -> Z :=
  match typ with
  | processTypeOut => oaa_processed_out
  | processTypeIn => oaa_processed_in
  end.

(** The flag of the other direction. *)
Definition other_flag_of (typ : processType) : output_addresses_accumulate_row -> Z :=
  match typ with
  | processTypeOut => oaa_processed_in
  | processTypeIn => oaa_processed_out
  end.

(** The staging row with the id and address of [row] is there, with the
    flag of [typ] at 0. *)
Definition unflagged (typ : processType) (row : OutputAddressAccumulate) (d : DB) : Prop :=
  exists s, In s (output_addresses_accumulate d) /\
            oaa_id s = OAA_ID row /\ oaa_address s = OAA_Address row /\
            flag_of typ s = 0%Z.

(** What the outputs with id [id] add under key [k] for address
    [address], measured by [g]. *)
Definition weight (g : avm_outputs_row -> Z) (d : DB) (k id address : string) : Z :=
  sumZ (map g (filter (fun o => (id =? out_id o)%string
                                && key_is (out_chain_id o) (out_asset_id o) address k)
                      (avm_outputs d))).

Definition row_key (row : OutputAddressAccumulate) : string * string :=
  (OAA_ID row, OAA_Address row).

(** A staging transaction row counts under [k] once it is processed. *)
Definition counts_at (k : string) (t : output_txs_accumulate_row) : Z :=
  if (ota_processed t =? 1)%Z
     && key_is (ota_chain_id t) (ota_asset_id t) (ota_address t) k
  then 1%Z else 0%Z.

(** The staging row of a claimed row is there, not yet processed. *)
Definition pending (row : OutputTxsAccumulate) (tbl : list output_txs_accumulate_row) : Prop :=
  exists t, In t tbl /\ ota_id t = OTA_ID row /\ ota_processed t = 0%Z /\
            ota_chain_id t = OTA_ChainID row /\ ota_asset_id t = OTA_AssetID row /\
            ota_address t = OTA_Address row.

(** The keys hold and I4 holds. *)
Definition sound (d : DB) : Prop := keys_ok d /\ conserved d.

(** A database that the accumulator has not touched: no aggregate row,
    every flag at 0. *)
Definition fresh (d : DB) : Prop :=
  accumulate_balances d = [] /\
  (forall s, In s (output_addresses_accumulate d) ->
             oaa_processed_out s = 0%Z /\ oaa_processed_in s = 0%Z) /\
  (forall t, In t (output_txs_accumulate d) -> ota_processed t = 0%Z).

(** The statement succeeded and no fault is scheduled. *)
Definition calm_ok {A : Type} (r : string + A) (w : World) : Prop :=
  faults w = [] /\ exists a, r = inr a.

(** * The trace of the accumulation loop *)

(** The claims in a trace, in order: the pass and the number of rows. *)
Fixpoint claims_of (evs : list Event) : list (Pass * nat) :=
  match evs with
  | [] => []
  | EvClaim p n :: evs' => (p, n) :: claims_of evs'
  | _ :: evs' => claims_of evs'
  end.

(** The batch sizes of one inner loop: full batches, then one that is
    short of [RowLintValue]. *)
Definition batch_run (cnts : list nat) : Prop :=
  exists full last,
    cnts = full ++ [last] /\ Forall (fun c => RowLintValue <= c) full /\ last < RowLintValue.

(** One round of the outer loop: the batch sizes of the three inner
    loops. *)
Record Sweep : Type := mk_Sweep {
  sw_out : list nat;
  sw_in : list nat;
  sw_txs : list nat
}.

Definition sweep_claims (s : Sweep) : list (Pass * nat) :=
  map (pair PassOut) (sw_out s) ++ map (pair PassIn) (sw_in s)
  ++ map (pair PassTxs) (sw_txs s).

Definition sweep_ok (s : Sweep) : Prop :=
  batch_run (sw_out s) /\ batch_run (sw_in s) /\ batch_run (sw_txs s).

(** A round in which no batch produced a row. *)
Definition idle (s : Sweep) : Prop :=
  sw_out s = [0] /\ sw_in s = [0] /\ sw_txs s = [0].

(** How a run that started with the counter at [icnt] ends: on idle
    rounds only, as many as the counter lacked to 10, or on 9 idle rounds
    after the last round that produced a row. *)
Definition ends_idle (icnt : nat) (sweeps : list Sweep) : Prop :=
  exists pre tail,
    sweeps = pre ++ tail /\ Forall idle tail /\
    ((pre = [] /\ List.length tail = 10 - icnt) \/
     (exists pre' s, pre = pre' ++ [s] /\ ~ idle s /\ List.length tail = 9)).

(** No pass has a row to claim. *)
Definition quiescent (d : DB) : Prop :=
  select_claim_out d = [] /\ select_claim_in d = [] /\ select_claim_txs d = [].

(** The trace of one idle round. *)
Definition idle_sweep_events : list Event :=
  [EvBegin; EvClaim PassOut 0; EvRollback;
   EvBegin; EvClaim PassIn 0; EvRollback;
   EvBegin; EvClaim PassTxs 0; EvRollback].

Fixpoint idle_sweeps_events (n : nat) : list Event :=
  match n with
  | 0 => []
  | S n' => idle_sweep_events ++ idle_sweeps_events n'
  end.

(** The events only a pass emits. *)
Definition is_pass_event (ev : Event) : bool :=
  match ev with
  | EvBegin | EvClaim _ _ | EvCommit | EvRollback | EvLogInfo _ => true
  | EvNewJob _ | EvLogWarn _ | EvSleep _ => false
  end.

Definition is_new_job (ev : Event) : bool :=
  match ev with
  | EvNewJob _ => true
  | _ => false
  end.

Definition is_sleep (ev : Event) : bool :=
  match ev with
  | EvSleep _ => true
  | _ => false
  end.

(** [time.Sleep(1 * time.Millisecond)]. *)
Definition sleep_1ms (w : World) : World :=
  mk_World (db w) (tx w) (faults w) (events w ++ [EvSleep 1]).

(** [sc.Log.Warn("Accumulate %v", err)] when [err] is not nil. *)
Definition warn_if (err : option string) (w : World) : World :=
  match err with
  | None => w
  | Some e => mk_World (db w) (tx w) (faults w)
                       (events w ++ [EvLogWarn ("Accumulate " ++ e)%string])
  end.

(** The error, if any, does not carry the deadlock message. *)
Definition not_deadlock (err : option string) : Prop :=
  match err with
  | None => True
  | Some e => Contains e DeadlockDBErrorMessage = false
  end.

(** The state of a run on quiescent tables [d0] that started with trace
    [ev0]: the tables are [d0] and every claim since loaded no row. *)
Definition still (d0 : DB) (ev0 : list Event) (w : World) : Prop :=
  db w = d0 /\
  exists evs, events w = ev0 ++ evs /\ Forall (fun c => snd c = 0) (claims_of evs).

Definition is_warn (ev : Event) : bool :=
  match ev with
  | EvLogWarn _ => true
  | _ => false
  end.



(** [deadlocked accfuel n w w']: from [w], [n] attempts of [Accumulate] in
    a row returned an error that carries the deadlock message, each
    followed by the sleep; [w'] is the state after the last sleep. *)
Inductive deadlocked (accfuel : nat) : nat -> World -> World -> Prop :=
| deadlocked_0 w : deadlocked accfuel 0 w w
| deadlocked_S n w e w1 w' :
    Accumulate ComputeID persist accfuel w = (Returned (Some e), w1) ->
    Contains e DeadlockDBErrorMessage = true ->
    deadlocked accfuel n (sleep_1ms w1) w' ->
    deadlocked accfuel (S n) w w'.

End Notions.

(** * The runner's admission protocol (lines 33-61), as interleaved steps

    Each call of [Run] and each background task is a thread with a
    program counter; one step is one atomic action of the Go code: an
    atomic load or add, taking or releasing the mutex, the [go]
    statement, one attempt of [Accumulate].  Any interleaving of the
    threads is a list of labels. *)

(** Where a call of [Run] stands. *)
Inductive CallerPc : Type :=
| AtFastLoad                    (* line 34: the load before the mutex *)
| AtLock                        (* line 38: a.lock.Lock() *)
| AtSlowLoad                    (* line 40: the load under the mutex *)
| AtAdd                         (* line 44: atomic.AddInt64(&a.running, 1) *)
| AtGo                          (* line 45: go func() *)
| AtUnlock (spawned : bool)     (* line 39: the deferred a.lock.Unlock() *)
| CallerReturned (spawned : bool).

(** Where a background task stands. *)
Inductive TaskPc : Type :=
| TaskAccumulate                (* line 51 *)
| TaskSleep                     (* line 55 *)
| TaskWarn                      (* line 58 *)
| TaskDeferred                  (* line 47: the deferred AddInt64(&a.running, -1) *)
| TaskExited.

(** What one attempt of [Accumulate] does, as the task sees it. *)
Inductive Attempt : Type :=
| AttemptNil
| AttemptError (e : string)
| AttemptPanic.

Record Runner : Type := mk_Runner {
  running : Z;
  lock_held : bool;
  callers : list CallerPc;
  tasks : list TaskPc
}.

Definition new_Runner : Runner := mk_Runner 0 false [] [].

Inductive Label : Type :=
| CallRun                               (* a new call of Run arrives *)
| StepCaller (i : nat)                  (* call i takes its next step *)
| StepTask (i : nat) (a : Attempt).     (* task i takes its next step *)

Fixpoint replace_nth {A : Type} (i : nat) (x : A) (l : list A) : list A :=
  match l, i with
  | [], _ => []
  | _ :: l', 0 => x :: l'
  | y :: l', S i' => y :: replace_nth i' x l'
  end.

(** The next step of call [i] at [pc]; [None] when it cannot move. *)
Definition step_caller (i : nat) (pc : CallerPc) (s : Runner) : option Runner :=
  match pc with
  | AtFastLoad =>
      Some (mk_Runner (running s) (lock_held s)
              (replace_nth i (if (running s =? 0)%Z then AtLock else CallerReturned false)
                           (callers s))
              (tasks s))
  | AtLock =>
      if lock_held s then None
      else Some (mk_Runner (running s) true (replace_nth i AtSlowLoad (callers s)) (tasks s))
  | AtSlowLoad =>
      Some (mk_Runner (running s) (lock_held s)
              (replace_nth i (if (running s =? 0)%Z then AtAdd else AtUnlock false)
                           (callers s))
              (tasks s))
  | AtAdd =>
      Some (mk_Runner (running s + 1) (lock_held s) (replace_nth i AtGo (callers s)) (tasks s))
  | AtGo =>
      Some (mk_Runner (running s) (lock_held s) (replace_nth i (AtUnlock true) (callers s))
              (tasks s ++ [TaskAccumulate]))
  | AtUnlock spawned =>
      Some (mk_Runner (running s) false (replace_nth i (CallerReturned spawned) (callers s))
              (tasks s))
  | CallerReturned _ => None
  end.

(** The next step of task [i] at [pc]; a panic in [Accumulate] unwinds to
    the deferred function. *)
Definition step_task (i : nat) (pc : TaskPc) (a : Attempt) (s : Runner) : option Runner :=
  match pc with
  | TaskAccumulate =>
      Some (mk_Runner (running s) (lock_held s) (callers s)
              (replace_nth i
                 (match a with
                  | AttemptNil => TaskDeferred
                  | AttemptError e =>
                      if Contains e DeadlockDBErrorMessage then TaskSleep else TaskWarn
                  | AttemptPanic => TaskDeferred
                  end) (tasks s)))
  | TaskSleep =>
      Some (mk_Runner (running s) (lock_held s) (callers s)
              (replace_nth i TaskAccumulate (tasks s)))
  | TaskWarn =>
      Some (mk_Runner (running s) (lock_held s) (callers s)
              (replace_nth i TaskDeferred (tasks s)))
  | TaskDeferred =>
      Some (mk_Runner (running s - 1) (lock_held s) (callers s)
              (replace_nth i TaskExited (tasks s)))
  | TaskExited => None
  end.

Definition step (l : Label) (s : Runner) : option Runner :=
  match l with
  | CallRun =>
      Some (mk_Runner (running s) (lock_held s) (callers s ++ [AtFastLoad]) (tasks s))
  | StepCaller i =>
      match nth_error (callers s) i with
      | Some pc => step_caller i pc s
      | None => None
      end
  | StepTask i a =>
      match nth_error (tasks s) i with
      | Some pc => step_task i pc a s
      | None => None
      end
  end.

(** An interleaving, from the first label on. *)
Fixpoint run (ls : list Label) (s : Runner) : option Runner :=
  match ls with
  | [] => Some s
  | l :: ls' =>
      match step l s with
      | Some s' => run ls' s'
      | None => None
      end
  end.

Definition count {A : Type} (p : A -> bool) (l : list A) : nat :=
  List.length (filter p l).

(** A task is in flight until its deferred decrement has run. *)
Definition task_in_flight (pc : TaskPc) : bool :=
  match pc with
  | TaskExited => false
  | _ => true
  end.

Definition in_flight (s : Runner) : nat := count task_in_flight (tasks s).

(** A call that has incremented the counter and not yet spawned. *)
Definition caller_spawning (pc : CallerPc) : bool :=
  match pc with
  | AtGo => true
  | _ => false
  end.

(** A call that holds the mutex. *)
Definition caller_holds_lock (pc : CallerPc) : bool :=
  match pc with
  | AtSlowLoad | AtAdd | AtGo | AtUnlock _ => true
  | _ => false
  end.

Definition caller_at_add (pc : CallerPc) : bool :=
  match pc with
  | AtAdd => true
  | _ => false
  end.

(** What holds in every state the runner can reach. *)
Record runner_inv (s : Runner) : Prop := mk_runner_inv {
  ri_counter :
    running s = Z.of_nat (in_flight s + count caller_spawning (callers s));
  ri_lock :
    count caller_holds_lock (callers s) = if lock_held s then 1 else 0;
  ri_add : 0 < count caller_at_add (callers s) -> running s = 0%Z;
  ri_bound : (running s <= 1)%Z
}.

(** Two calls of [Run] that both pass the first load before either takes
    the mutex. *)
Definition two_concurrent_calls : list Label :=
  [CallRun; CallRun; StepCaller 0; StepCaller 1;
   StepCaller 0; StepCaller 0; StepCaller 0; StepCaller 0; StepCaller 0;
   StepCaller 1; StepCaller 1; StepCaller 1].

(** The runner after [two_concurrent_calls]: the first call spawned, the
    second did not. *)
Definition after_two_calls : Runner :=
  mk_Runner 1 false [CallerReturned true; CallerReturned false] [TaskAccumulate].

(** Scenario 1 with a deadlock injected at the commit of the first two
    attempts: seven driver calls succeed, the eighth (the commit) fails. *)
Definition deadlocks_at_commit : World :=
  mk_World scenario1 None
    (repeat None 7 ++ [Some deadlock_message] ++ repeat None 7 ++ [Some deadlock_message])
    [].

(** A staging row (id, address) that the outputs-out pass claims and
    cannot process: its flag is 0, an output has its id, and the
    aggregation of lines 162-172 finds nothing for it. *)
Definition invalid_row (id address : string) (d : DB) : Prop :=
  (exists s, In s (output_addresses_accumulate d) /\
             oaa_id s = id /\ oaa_address s = address /\ oaa_processed_out s = 0%Z) /\
  (exists o, In o (avm_outputs d) /\ out_id o = id) /\
  select_balances d (mk_OutputAddressAccumulate id address) = [].

(** An output whose address row was not ingested. *)
Definition no_address_row : DB :=
  mk_DB [mk_oaa "X" "A" 0 0] [] [mk_out "X" "C" "S" "T" 10] [] [] [].

(** * Notions for the frame and the progress of the loop *)

(** A staging output row as a pass may leave it: the same id and address,
    each flag as it was or at 1. *)
Definition flags_grow (s s' : output_addresses_accumulate_row) : Prop :=
  oaa_id s' = oaa_id s /\ oaa_address s' = oaa_address s /\
  (oaa_processed_out s' = oaa_processed_out s \/ oaa_processed_out s' = 1%Z) /\
  (oaa_processed_in s' = oaa_processed_in s \/ oaa_processed_in s' = 1%Z).

(** A staging transaction row as a pass may leave it. *)
Definition processed_grows (t t' : output_txs_accumulate_row) : Prop :=
  ota_id t' = ota_id t /\ ota_chain_id t' = ota_chain_id t /\
  ota_asset_id t' = ota_asset_id t /\ ota_address t' = ota_address t /\
  ota_transaction_id t' = ota_transaction_id t /\
  (ota_processed t' = ota_processed t \/ ota_processed t' = 1%Z).

(** From [d] to [d'] the tables the accumulator reads are the same, and
    the staging tables hold the same rows, in the same order, with flags
    that only went up to 1. *)
Definition only_flags (d d' : DB) : Prop :=
  same_inputs d d' /\
  Forall2 flags_grow (output_addresses_accumulate d) (output_addresses_accumulate d') /\
  Forall2 processed_grows (output_txs_accumulate d) (output_txs_accumulate d').

(** No output carries a negative amount. *)
Definition amounts_nonneg (d : DB) : Prop :=
  forall o, In o (avm_outputs d) -> (0 <= out_amount o)%Z.

(** From [tbl] to [tbl'] no aggregate key is lost and, at every key,
    [total_received], [total_sent] and [transaction_count] are at least
    what they were. *)
Definition balances_grow (tbl tbl' : list accumulate_balances_row) : Prop :=
  forall k,
    (has_balance k tbl = true -> has_balance k tbl' = true) /\
    (column ab_total_received tbl k <= column ab_total_received tbl' k)%Z /\
    (column ab_total_sent tbl k <= column ab_total_sent tbl' k)%Z /\
    (column ab_transaction_count tbl k <= column ab_transaction_count tbl' k)%Z.

(** The flags still at 0 in the staging tables: a bound on what is left
    to accumulate. *)
Definition flags_left (d : DB) : nat :=
  count (fun s => (oaa_processed_out s =? 0)%Z) (output_addresses_accumulate d)
  + count (fun s => (oaa_processed_in s =? 0)%Z) (output_addresses_accumulate d)
  + count (fun t => (ota_processed t =? 0)%Z) (output_txs_accumulate d).

(** The aggregation of lines 162-172 finds a balance for every staging
    row that has an output. *)
Definition aggregations_nonempty (d : DB) : Prop :=
  forall s o,
    In s (output_addresses_accumulate d) -> In o (avm_outputs d) ->
    oaa_id s = out_id o ->
    select_balances d (mk_OutputAddressAccumulate (oaa_id s) (oaa_address s)) <> [].

(** The error an inner loop of [Accumulate] returned with, if any. *)
Definition loop_error (r : string + nat) : option string :=
  match r with
  | inl e => Some e
  | inr _ => None
  end.

Section Reach.

Variable ComputeID : string -> string -> string -> string + string.
Variable persist : Persist.

(** [passes_ok w w']: from [w], passes that each returned no error lead
    to [w']. *)
Inductive passes_ok : World -> World -> Prop :=
| passes_ok_refl w : passes_ok w w
| passes_ok_step w p cnt w1 w2 :
    run_pass ComputeID persist p w = ((cnt, None), w1) ->
    passes_ok w1 w2 -> passes_ok w w2.

(** How a loop of passes ended at [w']: on the error [e] of a pass that
    was the last to run, or with every pass it ran returning no error. *)
Definition ended_by {A : Type} (w : World) (r : Outcome A) (err : A -> option string)
    (w' : World) : Prop :=
  match r with
  | Returned a =>
      match err a with
      | Some e =>
          exists w1 p,
            passes_ok w w1 /\ run_pass ComputeID persist p w1 = ((0, Some e), w') /\
            db w' = db w1
      | None => passes_ok w w'
      end
  | OutOfFuel => passes_ok w w'
  end.

End Reach.

(** * Notions for the runner *)

Definition caller_returned (pc : CallerPc) : bool :=
  match pc with
  | CallerReturned _ => true
  | _ => false
  end.

(** A call that has spawned its task. *)
Definition caller_spawned (pc : CallerPc) : bool :=
  match pc with
  | AtUnlock true | CallerReturned true => true
  | _ => false
  end.

(** One more call of [Run], run to its end with no other thread moving. *)
Definition one_call_alone (s : Runner) : list Label :=
  CallRun :: repeat (StepCaller (List.length (callers s))) 6.

(** * Notions for the errors of a pass *)

(** The schedule [fs] is [fs'] after driver calls that all succeeded. *)
Definition spent (fs fs' : list (option string)) : Prop :=
  exists n, fs = repeat None n ++ fs'.

Section Errors.

Variable ComputeID : string -> string -> string -> string + string.
Variable persist : Persist.

(** An error of the two collaborators that are not the driver. *)
Definition own_error (e : string) : Prop :=
  (exists c s a, ComputeID c s a = inl e) \/
  (exists b tbl, InsertAccumulateBalances persist b tbl = inl e).

(** What a statement started on the schedule [fs0] did with it: it
    succeeded and every driver call before succeeded; or it returns the
    error of the first driver call that failed, and made no call after
    it; or it returns an error of a collaborator. *)
Definition accounted {A : Type} (fs0 : list (option string)) (r : string + A)
    (w' : World) : Prop :=
  match r with
  | inr _ => spent fs0 (faults w')
  | inl e =>
      (exists n, fs0 = repeat None n ++ Some e :: faults w') \/
      (own_error e /\ spent fs0 (faults w'))
  end.

Definition accounts {A : Type} (m : Tx A) : Prop :=
  forall fs0 w, spent fs0 (faults w) -> accounted fs0 (fst (m w)) (snd (m w)).

End Errors.

(** * Notions for the order of the two output passes *)

(** A staging row as the output pass of direction [typ] may leave it:
    the flag of the other direction as it was, its own as it was or at
    1. *)
Definition flag_grows (typ : processType) (s s' : output_addresses_accumulate_row) : Prop :=
  oaa_id s' = oaa_id s /\ oaa_address s' = oaa_address s /\
  other_flag_of typ s' = other_flag_of typ s /\
  (flag_of typ s' = flag_of typ s \/ flag_of typ s' = 1%Z).

(** No redemption is accumulated before its output: a staging row with
    [processed_in = 1] has [processed_out = 1]. *)
Definition in_after_out (d : DB) : Prop :=
  forall s, In s (output_addresses_accumulate d) ->
            oaa_processed_in s = 1%Z -> oaa_processed_out s = 1%Z.

(** [processed_out] holds 0 or 1. *)
Definition flags_binary (d : DB) : Prop :=
  forall s, In s (output_addresses_accumulate d) ->
            oaa_processed_out s = 0%Z \/ oaa_processed_out s = 1%Z.

(** The outputs-out pass has left no row behind that has an output and a
    balance. *)
Definition out_complete (d : DB) : Prop :=
  forall s o,
    In s (output_addresses_accumulate d) -> In o (avm_outputs d) ->
    oaa_id s = out_id o ->
    select_balances d (mk_OutputAddressAccumulate (oaa_id s) (oaa_address s)) <> [] ->
    oaa_processed_out s <> 0%Z.

(** * Notions for what a run computes *)

(** A redemption record exists for the output [id]. *)
Definition redeemed (d : DB) (id : string) : bool :=
  existsb (fun r => (red_id r =? id)%string) (avm_outputs_redeeming d).

(** An output row exists with the id [id]. *)
Definition has_output (d : DB) (id : string) : bool :=
  existsb (fun o => (out_id o =? id)%string) (avm_outputs d).

(** The staging rows whose [processed_in] is 1 have a redemption record
    in [d0]. *)
Definition in_redeemed (d0 d : DB) : Prop :=
  forall s, In s (output_addresses_accumulate d) ->
            oaa_processed_in s = 1%Z -> redeemed d0 (oaa_id s) = true.

(** The flags hold 0 or 1, and [processed_in] is 1 only where a
    redemption record exists. *)
Definition well_flagged (d : DB) : Prop :=
  (forall s, In s (output_addresses_accumulate d) ->
             (oaa_processed_out s = 0%Z \/ oaa_processed_out s = 1%Z) /\
             (oaa_processed_in s = 0%Z \/ oaa_processed_in s = 1%Z)) /\
  in_redeemed d d /\
  (forall t, In t (output_txs_accumulate d) ->
             ota_processed t = 0%Z \/ ota_processed t = 1%Z).

(** A staging row [s] as a run that ended with nothing to claim left it,
    [s']: when it has an output, [processed_out] is 1 and [processed_in]
    is 1 exactly when the output has a redemption record. *)
Definition done_row (d0 : DB) (s s' : output_addresses_accumulate_row) : Prop :=
  oaa_id s' = oaa_id s /\ oaa_address s' = oaa_address s /\
  (has_output d0 (oaa_id s) = true ->
   oaa_processed_out s' = 1%Z /\
   (oaa_processed_in s' = 1%Z <-> redeemed d0 (oaa_id s) = true)).

Section Totals.

Variable ComputeID : string -> string -> string -> string + string.

(** Every staged output under the balance key [k], with its staging row,
    whatever its flags. *)
Definition staged (d : DB) (k : string)
  : list (output_addresses_accumulate_row * avm_outputs_row) :=
  accumulated ComputeID (fun _ => 1%Z) d k.

(** Those of them that have a redemption record. *)
Definition staged_redeemed (d : DB) (k : string)
  : list (output_addresses_accumulate_row * avm_outputs_row) :=
  accumulated ComputeID (fun s => if redeemed d (oaa_id s) then 1%Z else 0%Z) d k.

(** Every staged transaction row under the balance key [k]. *)
Definition staged_txs (d : DB) (k : string) : list output_txs_accumulate_row :=
  filter (fun t => key_is ComputeID (ota_chain_id t) (ota_asset_id t) (ota_address t) k)
    (output_txs_accumulate d).

End Totals.


(** * More worlds used to run the model *)

(** The two calls of [two_concurrent_calls], then the task of the first
    to its end: an attempt that returns nil, the deferred decrement. *)
Definition task_to_its_end : list Label :=
  two_concurrent_calls ++ [StepTask 0 AttemptNil; StepTask 0 AttemptNil].

(** The runner after [task_to_its_end]. *)
Definition after_task : Runner :=
  mk_Runner 0 false [CallerReturned true; CallerReturned false] [TaskExited].


(** * Reasoning about statements: weakest preconditions *)

Lemma wp_run {A : Type} (m : Tx A) Q w r w' :
  wp m Q w -> m w = (r, w') -> Q r w'.
Proof. unfold wp. intros H E. rewrite E in H. exact H. Qed.

Lemma wp_ret {A : Type} (a : A) (Q : string + A -> World -> Prop) w :
  Q (inr a) w -> wp (ret a) Q w.
Proof. exact (fun H => H). Qed.

Lemma wp_throw {A : Type} e (Q : string + A -> World -> Prop) w :
  Q (inl e) w -> wp (throw e) Q w.
Proof. exact (fun H => H). Qed.

Lemma wp_bind {A B : Type} (m : Tx A) (k : A -> Tx B) (Q : string + B -> World -> Prop) w :
  wp m (fun r w1 => match r with
                    | inl e => Q (inl e) w1
                    | inr a => wp (k a) Q w1
                    end) w ->
  wp (bind m k) Q w.
Proof.
  unfold wp, bind. destruct (m w) as [[e | a] w1]; simpl; auto.
Qed.

Lemma wp_weaken {A : Type} (m : Tx A) (Q Q' : string + A -> World -> Prop) w :
  wp m Q w -> (forall r w', Q r w' -> Q' r w') -> wp m Q' w.
Proof. unfold wp. auto. Qed.

Lemma wp_db_call (Q : string + unit -> World -> Prop) w :
  (forall fs, Q (inr tt) (with_faults fs w)) ->
  (forall e fs, Q (inl e) (with_faults fs w)) ->
  wp db_call Q w.
Proof.
  intros Hok Herr. unfold wp, db_call.
  destruct (faults w) as [| [e |] fs] eqn:E; simpl.
  - specialize (Hok []). unfold with_faults in Hok. rewrite <- E in Hok.
    destruct w; exact Hok.
  - apply Herr.
  - apply Hok.
Qed.

Lemma wp_emit ev (Q : string + unit -> World -> Prop) w :
  Q (inr tt) (mk_World (db w) (tx w) (faults w) (events w ++ [ev])) ->
  wp (emit ev) Q w.
Proof. exact (fun H => H). Qed.

Lemma wp_query {A : Type} (q : DB -> A) (Q : string + A -> World -> Prop) w :
  (forall fs, Q (inr (q (db w))) (with_faults fs w)) ->
  (forall e fs, Q (inl e) (with_faults fs w)) ->
  wp (query q) Q w.
Proof.
  intros Hok Herr. unfold query. apply wp_bind.
  apply wp_db_call; [intros fs; apply Hok | intros e fs; apply Herr].
Qed.

Lemma wp_exec (f : DB -> DB) (Q : string + unit -> World -> Prop) w :
  (forall fs, Q (inr tt) (mk_World (f (db w)) (tx w) fs (events w))) ->
  (forall e fs, Q (inl e) (with_faults fs w)) ->
  wp (exec f) Q w.
Proof.
  intros Hok Herr. unfold exec. apply wp_bind.
  apply wp_db_call; [intros fs; apply Hok | intros e fs; apply Herr].
Qed.

(** The loop rule: [I rest] holds before the round that starts with
    [rest] still to do. *)
Lemma wp_for_each {A : Type} (body : A -> Tx unit) (I : list A -> World -> Prop)
    (Q : string + unit -> World -> Prop) :
  (forall x rest w, I (x :: rest) w ->
     wp (body x) (fun r w' => match r with
                              | inl e => Q (inl e) w'
                              | inr _ => I rest w'
                              end) w) ->
  (forall w, I [] w -> Q (inr tt) w) ->
  forall l w, I l w -> wp (for_each l body) Q w.
Proof.
  intros Hbody Hend. induction l as [| x l IH]; intros w HI; simpl.
  - apply wp_ret. auto.
  - apply wp_bind. eapply wp_weaken; [apply Hbody; exact HI |].
    intros [e | []] w'; auto.
Qed.

(** The loop rule for a loop that collects: [I rest done] holds when
    [done] has been collected and [rest] is still to do. *)
Lemma wp_for_each_collect {A B : Type} (body : A -> Tx B)
    (I : list A -> list B -> World -> Prop) (E : string -> World -> Prop) :
  (forall x rest done w, I (x :: rest) done w ->
     wp (body x) (fun r w' => match r with
                              | inl e => E e w'
                              | inr y => I rest (done ++ [y]) w'
                              end) w) ->
  forall l done w, I l done w ->
    wp (for_each_collect l body)
       (fun r w' => match r with
                    | inl e => E e w'
                    | inr ys => I [] (done ++ ys) w'
                    end) w.
Proof.
  intros Hbody. induction l as [| x l IH]; intros done w HI; simpl.
  - apply wp_ret. rewrite app_nil_r. exact HI.
  - apply wp_bind. eapply wp_weaken; [apply Hbody; exact HI |].
    intros [e | y] w' H; auto.
    apply wp_bind. eapply wp_weaken; [apply IH; exact H |].
    intros [e | ys] w'' H'; auto.
    apply wp_ret. rewrite <- app_assoc in H'. exact H'.
Qed.

(** * What a pass may do to the tables, and what it shows *)

Section PassShape.

Variable ComputeID : string -> string -> string -> string + string.
Variable persist : Persist.

Lemma open_inv_faults p d0 t0 ev0 w fs :
  open_inv persist p d0 t0 ev0 w -> open_inv persist p d0 t0 ev0 (with_faults fs w).
Proof. exact (fun H => H). Qed.

Lemma open_inv_step p d0 t0 ev0 w d' fs :
  open_inv persist p d0 t0 ev0 w -> pass_step persist p d0 (db w) d' ->
  open_inv persist p d0 t0 ev0 (mk_World d' (tx w) fs (events w)).
Proof.
  intros (Hs & Ht & Hi) Hstep. split; [| split]; simpl; auto.
  eapply rt_trans; [exact Hs | apply rt_step; exact Hstep].
Qed.

Lemma open_inv_info p d0 t0 ev0 w msg :
  open_inv persist p d0 t0 ev0 w ->
  open_inv persist p d0 t0 ev0 (mk_World (db w) (tx w) (faults w) (events w ++ [EvLogInfo msg])).
Proof.
  intros (Hs & Ht & infos & Hf & He). split; [| split]; simpl; auto.
  exists (infos ++ [EvLogInfo msg]). split.
  - apply Forall_app. split; auto.
  - rewrite He, app_assoc. reflexivity.
Qed.

Lemma pass_step_insert p d0 d b tbl :
  InsertAccumulateBalances persist b (accumulate_balances d) = inr tbl ->
  pass_step persist p d0 d (set_accumulate_balances (fun _ => tbl) d).
Proof. destruct p; simpl; intros H; econstructor; exact H. Qed.

Lemma compute_and_insert_open p d0 t0 ev0 b w :
  open_inv persist p d0 t0 ev0 w ->
  wp (compute_and_insert ComputeID persist b) (fun _ w' => open_inv persist p d0 t0 ev0 w') w.
Proof.
  intros HI. unfold compute_and_insert, AB_ComputeID.
  apply wp_bind.
  destruct (ComputeID (AB_ChainID b) (AB_AssetID b) (AB_Address b)) as [e | id].
  - apply wp_throw. exact HI.
  - apply wp_ret. apply wp_bind. unfold persist_InsertAccumulateBalances.
    apply wp_bind. apply wp_db_call; [intros fs | intros e fs; exact HI].
    unfold wp. simpl.
    destruct (InsertAccumulateBalances persist _ (accumulate_balances (db w))) as [e | tbl] eqn:E;
      simpl.
    + exact HI.
    + apply (open_inv_step p d0 t0 ev0 w _ fs HI). eapply pass_step_insert. exact E.
Qed.

Lemma inserts_open {A : Type} p d0 t0 ev0 (f : A -> AccumulateBalances) l w :
  open_inv persist p d0 t0 ev0 w ->
  wp (for_each_collect l (fun x => compute_and_insert ComputeID persist (f x)))
     (fun _ w' => open_inv persist p d0 t0 ev0 w') w.
Proof.
  intros HI.
  eapply wp_weaken.
  - apply (wp_for_each_collect _ (fun _ _ w' => open_inv persist p d0 t0 ev0 w')
             (fun _ w' => open_inv persist p d0 t0 ev0 w')) with (done := []); [| exact HI].
    intros x rest done w0 H0. eapply wp_weaken.
    + apply compute_and_insert_open; exact H0.
    + intros [e | y] w' H; exact H.
  - intros [e | ys] w' H; exact H.
Qed.

Lemma select_locked_open p d0 t0 ev0 ids w :
  open_inv persist p d0 t0 ev0 w ->
  wp (select_locked ids) (fun _ w' => open_inv persist p d0 t0 ev0 w') w.
Proof.
  intros HI. unfold select_locked. apply wp_query; intros; exact HI.
Qed.

Lemma process_row_open typ row w t0 ev0 d0 :
  In row (select_claim typ d0) ->
  open_inv persist (pass_of typ) d0 t0 ev0 w ->
  wp (process_row ComputeID persist typ row)
     (fun _ w' => open_inv persist (pass_of typ) d0 t0 ev0 w') w.
Proof.
  intros Hin HI. unfold process_row.
  apply wp_bind. apply wp_query; [intros fs | intros e fs; exact HI].
  destruct (select_balances (db w) row) as [| b0 bs].
  - apply wp_emit. apply (open_inv_info _ _ _ _ (with_faults fs w)). exact HI.
  - apply wp_bind. eapply wp_weaken;
      [apply (inserts_open (pass_of typ) d0 t0 ev0 (fun b => b));
       apply open_inv_faults; exact HI |].
    intros [e | balances'] w1 H1; [exact H1 |].
    apply wp_bind. eapply wp_weaken; [apply select_locked_open; exact H1 |].
    intros [e | ids] w2 H2; [exact H2 |].
    apply wp_bind.
    apply (wp_for_each _ (fun _ w' => open_inv persist (pass_of typ) d0 t0 ev0 w')) ; [| | exact H2].
    + intros b rest w3 H3. apply wp_exec; [intros fs' | intros e fs'; exact H3].
      apply (open_inv_step _ d0 t0 ev0 w3 _ fs' H3).
      destruct typ; simpl; apply out_step_update.
    + intros w3 H3. apply wp_exec; [intros fs' | intros e fs'; exact H3].
      apply (open_inv_step _ d0 t0 ev0 w3 _ fs' H3).
      destruct typ; simpl; apply out_step_flag; exact Hin.
Qed.

Lemma open_inv_err p w0 w e :
  open_inv persist p (db w0) (tx w0) (events w0 ++ [EvClaim p (claim_len p (db w0))]) w ->
  tx_post persist p w0 (inl e) w.
Proof.
  intros (Hs & Ht & infos & Hf & He). split; [exact Hs |].
  exists infos. split; [exact Hf |]. split; [exact Ht |].
  right. rewrite He, <- app_assoc. reflexivity.
Qed.

Lemma dbTx_Commit_post p w0 w n :
  claim_len p (db w0) = S n ->
  open_inv persist p (db w0) (tx w0) (events w0 ++ [EvClaim p (claim_len p (db w0))]) w ->
  wp (dbTx_Commit ;; ret (S n)) (tx_post persist p w0) w.
Proof.
  intros Hlen HI. apply wp_bind. unfold dbTx_Commit. apply wp_bind.
  apply wp_db_call; [intros fs | intros e fs; apply open_inv_err; exact HI].
  unfold wp; simpl.
  destruct HI as (Hs & Ht & infos & Hf & He). split; [exact Hs |].
  exists infos. split; [exact Hf |]. split; [symmetry; exact Hlen |].
  split; [reflexivity |].
  rewrite He, Hlen, <- !app_assoc. reflexivity.
Qed.

Lemma open_inv_start p w0 fs :
  open_inv persist p (db w0) (tx w0) (events w0 ++ [EvClaim p (claim_len p (db w0))])
    (mk_World (db w0) (tx w0) fs (events w0 ++ [EvClaim p (claim_len p (db w0))])).
Proof.
  split; [apply rt_refl | split; [reflexivity |]].
  exists []. split; [constructor | simpl; rewrite app_nil_r; reflexivity].
Qed.

Lemma tx_post_select_failed p w0 e fs : tx_post persist p w0 (inl e) (with_faults fs w0).
Proof.
  split; [apply rt_refl |]. exists []. split; [constructor |].
  split; [reflexivity | left; reflexivity].
Qed.

Lemma tx_post_empty p w0 fs :
  claim_len p (db w0) = 0 ->
  tx_post persist p w0 (inr 0) (mk_World (db w0) (tx w0) fs (events w0 ++ [EvClaim p 0])).
Proof.
  intros Hlen. split; [apply rt_refl |]. exists []. split; [constructor |].
  split; [symmetry; exact Hlen |]. simpl. auto.
Qed.

Lemma processOutputs_tx_post typ w0 :
  wp (processOutputs_tx ComputeID persist typ) (tx_post persist (pass_of typ) w0) w0.
Proof.
  unfold processOutputs_tx.
  apply wp_bind.
  apply wp_query; [intros fs | intros e fs; apply tx_post_select_failed].
  apply wp_bind. apply wp_emit.
  assert (Hlen : List.length (select_claim typ (db w0)) = claim_len (pass_of typ) (db w0))
    by (destruct typ; reflexivity).
  simpl db; simpl tx; simpl events; simpl faults.
  destruct (select_claim typ (db w0)) as [| row0 rows] eqn:Erows.
  - apply wp_ret. simpl. apply tx_post_empty. rewrite <- Hlen. reflexivity.
  - rewrite Hlen. apply wp_bind.
    apply (wp_for_each _
             (fun rest w => incl rest (select_claim typ (db w0)) /\
                            open_inv persist (pass_of typ) (db w0) (tx w0)
                              (events w0 ++ [EvClaim (pass_of typ)
                                               (claim_len (pass_of typ) (db w0))]) w)).
    + intros x rest w [Hincl HI]. eapply wp_weaken.
      * apply process_row_open; [apply Hincl; left; reflexivity | exact HI].
      * intros [e | []] w' H'; [apply open_inv_err; exact H' |].
        split; [| exact H']. intros y Hy. apply Hincl. right. exact Hy.
    + intros w [_ HI]. cbv beta iota.
      rewrite <- Hlen. simpl List.length.
      apply dbTx_Commit_post; [| exact HI].
      rewrite <- Hlen. reflexivity.
    + split; [rewrite Erows; apply incl_refl | apply open_inv_start].
Qed.

Lemma processTransactions_tx_post w0 :
  wp (processTransactions_tx ComputeID persist) (tx_post persist PassTxs w0) w0.
Proof.
  unfold processTransactions_tx.
  apply wp_bind.
  apply wp_query; [intros fs | intros e fs; apply tx_post_select_failed].
  apply wp_bind. apply wp_emit.
  assert (Hlen : List.length (select_claim_txs (db w0)) = claim_len PassTxs (db w0))
    by reflexivity.
  simpl db; simpl tx; simpl events; simpl faults.
  destruct (select_claim_txs (db w0)) as [| row0 rows] eqn:Erows.
  - apply wp_ret. simpl. apply tx_post_empty. rewrite <- Hlen. reflexivity.
  - rewrite Hlen. apply wp_bind. eapply wp_weaken;
      [apply (inserts_open PassTxs (db w0) (tx w0)
                (events w0 ++ [EvClaim PassTxs (claim_len PassTxs (db w0))]) balance_of_row);
       apply open_inv_start |].
    intros [e | balances] w1 H1; [apply open_inv_err; exact H1 |].
    apply wp_bind. eapply wp_weaken; [apply select_locked_open; exact H1 |].
    intros [e | ids] w2 H2; [apply open_inv_err; exact H2 |].
    apply wp_bind.
    apply (wp_for_each _ (fun _ w' => open_inv persist PassTxs (db w0) (tx w0)
                (events w0 ++ [EvClaim PassTxs (claim_len PassTxs (db w0))]) w'));
      [| | exact H2].
    + intros b rest w3 H3.
      apply wp_exec; [intros fs' | intros e fs'; apply open_inv_err; exact H3].
      apply (open_inv_step _ _ _ _ w3 _ fs' H3). simpl. apply txs_step_update.
    + intros w3 H3. apply wp_bind.
      apply (wp_for_each _
               (fun rest w => incl rest (select_claim_txs (db w0)) /\
                              open_inv persist PassTxs (db w0) (tx w0)
                                (events w0 ++ [EvClaim PassTxs (claim_len PassTxs (db w0))]) w)).
      * intros x rest w [Hincl HI].
        apply wp_exec; [intros fs' | intros e fs'; apply open_inv_err; exact HI].
        split; [intros y Hy; apply Hincl; right; exact Hy |].
        apply (open_inv_step _ _ _ _ w _ fs' HI). simpl. apply txs_step_flag.
        apply Hincl. left. reflexivity.
      * intros w [_ HI]. cbv beta iota.
        rewrite <- Hlen. simpl List.length.
        apply dbTx_Commit_post; [| exact HI].
        rewrite <- Hlen. reflexivity.
      * split; [rewrite Erows; apply incl_refl | exact H3].
Qed.

End PassShape.

(** * The shape of one pass *)

Section PassResult.

Variable ComputeID : string -> string -> string -> string + string.
Variable persist : Persist.

Lemma run_pass_in_tx p :
  run_pass ComputeID persist p =
  in_tx (match p with
         | PassOut => processOutputs_tx ComputeID persist processTypeOut
         | PassIn => processOutputs_tx ComputeID persist processTypeIn
         | PassTxs => processTransactions_tx ComputeID persist
         end).
Proof. destruct p; reflexivity. Qed.

Lemma sess_Begin_cases w :
  (exists e fs, sess_Begin w = (inl e, with_faults fs w)) \/
  (exists fs, sess_Begin w =
              (inr tt, mk_World (db w) (Some (db w)) fs (events w ++ [EvBegin]))).
Proof.
  unfold sess_Begin, bind, db_call.
  destruct (faults w) as [| [e |] fs] eqn:E.
  - right. exists []. simpl. rewrite E. reflexivity.
  - left. exists e, fs. reflexivity.
  - right. exists fs. reflexivity.
Qed.

Lemma in_tx_result p body w :
  (forall w0, wp body (tx_post persist p w0) w0) ->
  forall cnt err w', in_tx body w = ((cnt, err), w') -> pass_result persist p w cnt err w'.
Proof.
  intros Hbody cnt err w' Hrun. unfold in_tx in Hrun.
  destruct (sess_Begin_cases w) as [(e & fs & E) | (fs & E)]; rewrite E in Hrun.
  - inversion Hrun; subst. split; simpl.
    + exists []. rewrite app_nil_r. split; [reflexivity | constructor].
    + reflexivity.
    + apply rt_refl.
    + reflexivity.
  - set (w0 := mk_World (db w) (Some (db w)) fs (events w ++ [EvBegin])) in *.
    specialize (Hbody w0). unfold wp in Hbody.
    destruct (body w0) as [r w1]. simpl in Hbody.
    destruct Hbody as (Hsteps & infos & Hinfos & Hr).
    change (db w0) with (db w) in *. change (tx w0) with (Some (db w)) in *.
    change (events w0) with (events w ++ [EvBegin]) in *.
    destruct r as [e | n].
    + destruct Hr as (Htx & Hev). inversion Hrun; subst. clear Hrun.
      unfold RollbackUnlessCommitted. rewrite Htx. split; simpl.
      * destruct Hev as [Hev | Hev]; rewrite Hev.
        -- exists [EvBegin; EvRollback]. rewrite <- app_assoc. split; [reflexivity | constructor].
        -- eexists. rewrite <- !app_assoc. split; [reflexivity |].
           simpl. apply pass_trace_failed. exact Hinfos.
      * reflexivity.
      * apply rt_refl.
      * reflexivity.
    + destruct Hr as (Hn & Hr). inversion Hrun; subst cnt err w'. clear Hrun.
      destruct n as [| n]; unfold RollbackUnlessCommitted.
      * destruct Hr as (Htx & Hdb & Hev). rewrite Htx. split; simpl.
        -- exists [EvBegin; EvClaim p 0; EvRollback]. rewrite Hev, <- !app_assoc.
           split; [reflexivity | apply pass_trace_empty; auto].
        -- exact Hn.
        -- apply rt_refl.
        -- reflexivity.
      * destruct Hr as (Htx & Hev). rewrite Htx. split; simpl.
        -- eexists. rewrite Hev, <- !app_assoc. split; [reflexivity |].
           simpl. rewrite Hn. apply pass_trace_committed; [rewrite <- Hn; discriminate | exact Hinfos].
        -- exact Hn.
        -- exact Hsteps.
        -- intros [H | H]; [contradiction H; reflexivity | rewrite <- Hn in H; discriminate].
Qed.

Lemma run_pass_result p w cnt err w' :
  run_pass ComputeID persist p w = ((cnt, err), w') -> pass_result persist p w cnt err w'.
Proof.
  rewrite run_pass_in_tx. apply in_tx_result.
  destruct p; intros w0.
  - apply (processOutputs_tx_post ComputeID persist processTypeOut).
  - apply (processOutputs_tx_post ComputeID persist processTypeIn).
  - apply processTransactions_tx_post.
Qed.

End PassResult.

(** * Passes that claim nothing *)

Section Idle.

Variable ComputeID : string -> string -> string -> string + string.
Variable persist : Persist.

Lemma no_fault_in_2_cases fs :
  no_fault_in 2 fs ->
  fs = [] \/ fs = [None] \/ exists fs', fs = None :: None :: fs'.
Proof.
  intros H.
  destruct fs as [| [e |] fs];
    [auto | exfalso; apply (H e); left; reflexivity |].
  destruct fs as [| [e' |] fs'];
    [auto | exfalso; apply (H e'); right; left; reflexivity | right; right; eauto].
Qed.

Lemma processOutputs_idle typ w :
  select_claim typ (db w) = [] -> no_fault_in 2 (faults w) ->
  processOutputs ComputeID persist typ w =
  ((0, None),
   mk_World (db w) None (skipn 2 (faults w))
            (events w ++ [EvBegin; EvClaim (pass_of typ) 0; EvRollback])).
Proof.
  destruct w as [d t fs ev]. cbn [db faults events]. intros Hrows Hf.
  unfold processOutputs, processOutputs_tx, sess_Begin, query, emit, bind, db_call, ret.
  destruct (no_fault_in_2_cases _ Hf) as [E | [E | [fs' E]]]; subst fs;
    cbn [db tx faults events]; rewrite Hrows; unfold RollbackUnlessCommitted;
    cbn [db tx faults events skipn List.length];
    rewrite <- !app_assoc; reflexivity.
Qed.

Lemma processTransactions_idle w :
  select_claim_txs (db w) = [] -> no_fault_in 2 (faults w) ->
  processTransactions ComputeID persist w =
  ((0, None),
   mk_World (db w) None (skipn 2 (faults w))
            (events w ++ [EvBegin; EvClaim PassTxs 0; EvRollback])).
Proof.
  destruct w as [d t fs ev]. cbn [db faults events]. intros Hrows Hf.
  unfold processTransactions, processTransactions_tx, sess_Begin, query, emit, bind,
    db_call, ret.
  destruct (no_fault_in_2_cases _ Hf) as [E | [E | [fs' E]]]; subst fs;
    cbn [db tx faults events]; rewrite Hrows; unfold RollbackUnlessCommitted;
    cbn [db tx faults events skipn List.length];
    rewrite <- !app_assoc; reflexivity.
Qed.

Lemma pass_trace_no_commit p len err evs :
  pass_trace p len err evs -> len = 0 -> ~ In EvCommit evs.
Proof.
  intros Ht Hlen Hin. destruct Ht as [e | e | e infos Hinfos | Hz | infos Hnz Hinfos];
    simpl in Hin.
  - exact Hin.
  - destruct Hin as [H | [H | []]]; discriminate.
  - destruct Hin as [H | [H | Hin]]; try discriminate.
    apply in_app_or in Hin. destruct Hin as [Hin | [H | []]]; [| discriminate].
    rewrite Forall_forall in Hinfos. apply Hinfos in Hin. discriminate.
  - destruct Hin as [H | [H | [H | []]]]; discriminate.
  - contradiction.
Qed.

Lemma length_zero_nil {A : Type} (l : list A) : List.length l = 0 -> l = [].
Proof. destruct l; [reflexivity | discriminate]. Qed.

(** C8 (as amended): when the claim of a pass selects no staging row, the
    pass returns 0 and no error once [Begin] and the claim have succeeded;
    it does so without committing: the only way the transaction ends is the
    deferred [RollbackUnlessCommitted], and the tables are as before.
    Whatever the driver does, such a pass never commits. *)
Theorem empty_claim_returns_zero_by_rollback :
  (forall typ w,
      select_claim typ (db w) = [] -> no_fault_in 2 (faults w) ->
      processOutputs ComputeID persist typ w =
      ((0, None),
       mk_World (db w) None (skipn 2 (faults w))
                (events w ++ [EvBegin; EvClaim (pass_of typ) 0; EvRollback]))) /\
  (forall w,
      select_claim_txs (db w) = [] -> no_fault_in 2 (faults w) ->
      processTransactions ComputeID persist w =
      ((0, None),
       mk_World (db w) None (skipn 2 (faults w))
                (events w ++ [EvBegin; EvClaim PassTxs 0; EvRollback]))) /\
  (forall p w cnt err w',
      claim_len p (db w) = 0 ->
      run_pass ComputeID persist p w = ((cnt, err), w') ->
      cnt = 0 /\ db w' = db w /\
      exists evs, events w' = events w ++ evs /\ ~ In EvCommit evs).
Proof.
  split; [exact processOutputs_idle | split; [exact processTransactions_idle |]].
  intros p w cnt err w' Hlen Hrun.
  destruct (run_pass_result ComputeID persist p w cnt err w' Hrun)
    as [(evs & Hev & Htr) Hcnt _ Hundone].
  split; [| split].
  - rewrite Hcnt. destruct err; [reflexivity | exact Hlen].
  - apply Hundone. right. exact Hlen.
  - exists evs. split; [exact Hev |]. eapply pass_trace_no_commit; eauto.
Qed.

End Idle.

(** * What the writes of a pass leave alone *)

Lemma firstn_In {A : Type} n (l : list A) x : In x (firstn n l) -> In x l.
Proof.
  revert l. induction n as [| n IH]; intros [| y l]; simpl; try tauto.
  intros [H | H]; [left; exact H | right; apply IH; exact H].
Qed.

Lemma In_join {A B : Type} (on : A -> B -> bool) l r a b :
  In (a, b) (join on l r) <-> In a l /\ In b r /\ on a b = true.
Proof.
  unfold join. rewrite in_flat_map. split.
  - intros (a' & Ha & Hin). apply in_map_iff in Hin.
    destruct Hin as (b' & Heq & Hb). inversion Heq; subst.
    apply filter_In in Hb. tauto.
  - intros (Ha & Hb & Hon). exists a. split; [exact Ha |].
    apply in_map. apply filter_In. tauto.
Qed.

Lemma In_select_claim_in d row :
  In row (select_claim_in d) ->
  exists s o r,
    In s (output_addresses_accumulate d) /\ In o (avm_outputs d) /\
    In r (avm_outputs_redeeming d) /\
    oaa_id s = OAA_ID row /\ oaa_address s = OAA_Address row /\
    oaa_processed_in s = 0%Z /\ out_id o = OAA_ID row /\ red_id r = OAA_ID row.
Proof.
  unfold select_claim_in. intros H. apply firstn_In in H.
  apply in_map_iff in H. destruct H as ([[s o] r] & Hrow & H).
  apply filter_In in H. destruct H as [H Hflag].
  apply In_join in H. destruct H as (H & Hr & Honr).
  apply In_join in H. destruct H as (Hs & Ho & Hono).
  simpl in *. subst row. simpl.
  apply String.eqb_eq in Honr, Hono. apply Z.eqb_eq in Hflag.
  exists s, o, r. repeat split; auto; congruence.
Qed.

Lemma In_select_claim_out d row :
  In row (select_claim_out d) ->
  exists s o,
    In s (output_addresses_accumulate d) /\ In o (avm_outputs d) /\
    oaa_id s = OAA_ID row /\ oaa_address s = OAA_Address row /\
    oaa_processed_out s = 0%Z /\ out_id o = OAA_ID row.
Proof.
  unfold select_claim_out. intros H. apply firstn_In in H.
  apply in_map_iff in H. destruct H as ([s o] & Hrow & H).
  apply filter_In in H. destruct H as [H Hflag].
  apply In_join in H. destruct H as (Hs & Ho & Hono).
  simpl in *. subst row. simpl.
  apply String.eqb_eq in Hono. apply Z.eqb_eq in Hflag.
  exists s, o. repeat split; auto; congruence.
Qed.

Lemma In_select_claim_txs d row :
  In row (select_claim_txs d) ->
  exists t,
    In t (output_txs_accumulate d) /\ ota_processed t = 0%Z /\
    row = mk_OutputTxsAccumulate (ota_id t) (ota_chain_id t) (ota_asset_id t)
                                 (ota_address t) (ota_transaction_id t).
Proof.
  unfold select_claim_txs. intros H. apply firstn_In in H.
  apply in_map_iff in H. destruct H as (t & Hrow & H).
  apply filter_In in H. destruct H as [H Hflag]. apply Z.eqb_eq in Hflag.
  exists t. auto.
Qed.

Section Frames.

Variable ComputeID : string -> string -> string -> string + string.
Variable persist : Persist.

(** A staging row whose id no claimed row has stays where and as it is. *)
Lemma out_steps_keep_row typ rows i s d d' :
  (forall row, In row rows -> OAA_ID row <> oaa_id s) ->
  clos_refl_trans DB (out_step persist typ rows) d d' ->
  nth_error (output_addresses_accumulate d) i = Some s ->
  nth_error (output_addresses_accumulate d') i = Some s.
Proof.
  intros Hrows Hsteps. induction Hsteps as [d d' Hstep | d | d d1 d2 _ IH1 _ IH2]; auto.
  destruct Hstep as [d b tbl _ | d b | d row Hin]; simpl; auto.
  intros Hnth. unfold update_output_addresses_accumulate.
  rewrite nth_error_map, Hnth. simpl.
  destruct (String.eqb_spec (oaa_id s) (OAA_ID row)) as [E | _]; [| reflexivity].
  exfalso. apply (Hrows row Hin). auto.
Qed.

(** C9: the outputs-in pass claims a staging row only when a row of
    [avm_outputs_redeeming] has its output id (and its [processed_in] is
    0); so a staging row with no redemption record keeps its place and
    its flags through the pass, whatever else the pass does; and when no
    unprocessed staging row has a redemption record, the pass leaves every
    table, the aggregate rows included, as it found them. *)
Theorem in_pass_waits_for_redemption :
  (forall d row,
      In row (select_claim_in d) ->
      exists s r,
        In s (output_addresses_accumulate d) /\
        oaa_id s = OAA_ID row /\ oaa_address s = OAA_Address row /\
        oaa_processed_in s = 0%Z /\
        In r (avm_outputs_redeeming d) /\ red_id r = oaa_id s) /\
  (forall w i s,
      nth_error (output_addresses_accumulate (db w)) i = Some s ->
      (forall r, In r (avm_outputs_redeeming (db w)) -> red_id r <> oaa_id s) ->
      nth_error (output_addresses_accumulate
                   (db (snd (processOutputs ComputeID persist processTypeIn w)))) i
      = Some s) /\
  (forall w,
      (forall s r, In s (output_addresses_accumulate (db w)) ->
                   oaa_processed_in s = 0%Z ->
                   In r (avm_outputs_redeeming (db w)) -> red_id r <> oaa_id s) ->
      db (snd (processOutputs ComputeID persist processTypeIn w)) = db w).
Proof.
  split; [| split].
  - intros d row H. apply In_select_claim_in in H.
    destruct H as (s & o & r & Hs & _ & Hr & Hid & Haddr & Hflag & _ & Hrid).
    exists s, r. repeat split; auto. congruence.
  - intros w i s Hnth Hnone.
    destruct (processOutputs ComputeID persist processTypeIn w) as [[cnt err] w'] eqn:Hrun.
    destruct (run_pass_result ComputeID persist PassIn w cnt err w' Hrun)
      as [_ _ Hsteps _].
    simpl. eapply out_steps_keep_row; [| exact Hsteps | exact Hnth].
    intros row Hin Heq. apply In_select_claim_in in Hin.
    destruct Hin as (s' & o & r & _ & _ & Hr & _ & _ & _ & _ & Hrid).
    apply (Hnone r Hr). congruence.
  - intros w Hnone.
    destruct (processOutputs ComputeID persist processTypeIn w) as [[cnt err] w'] eqn:Hrun.
    destruct (run_pass_result ComputeID persist PassIn w cnt err w' Hrun)
      as [_ _ _ Hundone].
    simpl. apply Hundone. right. simpl.
    destruct (select_claim_in (db w)) as [| row rows] eqn:E; [reflexivity |].
    exfalso. assert (Hin : In row (select_claim_in (db w))) by (rewrite E; left; reflexivity).
    apply In_select_claim_in in Hin.
    destruct Hin as (s & o & r & Hs & _ & Hr & Hid & _ & Hflag & _ & Hrid).
    apply (Hnone s r Hs Hflag Hr). congruence.
Qed.

Lemma find_update_row (g : accumulate_balances_row -> accumulate_balances_row)
    (c : accumulate_balances_row -> bool) k tbl :
  (forall r, ab_id (g r) = ab_id r) ->
  find (fun r => (ab_id r =? k)%string) (map (fun r => if c r then g r else r) tbl) =
  option_map (fun r => if c r then g r else r)
             (find (fun r => (ab_id r =? k)%string) tbl).
Proof.
  intros Hid. induction tbl as [| r tbl IH]; simpl; [reflexivity |].
  replace (ab_id (if c r then g r else r)) with (ab_id r)
    by (destruct (c r); [rewrite Hid |]; reflexivity).
  destruct (ab_id r =? k)%string; [reflexivity | exact IH].
Qed.

Lemma has_balance_find k tbl :
  has_balance k tbl = false -> find (fun r => (ab_id r =? k)%string) tbl = None.
Proof.
  unfold has_balance. induction tbl as [| r tbl IH]; simpl; [reflexivity |].
  destruct (ab_id r =? k)%string; simpl; [discriminate | exact IH].
Qed.

Lemma find_app_zero k k0 tbl :
  has_balance k0 tbl = false ->
  find (fun r => (ab_id r =? k)%string) (tbl ++ [zero_balance k0]) =
  match find (fun r => (ab_id r =? k)%string) tbl with
  | Some r => Some r
  | None => if (k0 =? k)%string then Some (zero_balance k0) else None
  end.
Proof.
  intros _. induction tbl as [| r tbl IH]; simpl; [reflexivity |].
  destruct (ab_id r =? k)%string; [reflexivity | exact IH].
Qed.

Hypothesis persist_ok : persist_contract persist.

Lemma insert_keeps_column f d b tbl k :
  (forall id, f (zero_balance id) = 0%Z) ->
  InsertAccumulateBalances persist b (accumulate_balances d) = inr tbl ->
  balance_column f (set_accumulate_balances (fun _ => tbl) d) k = balance_column f d k.
Proof.
  intros Hzero Hins. rewrite persist_ok in Hins. inversion Hins as [Htbl]. clear Hins.
  unfold balance_column, column. simpl.
  destruct (has_balance (AB_ID b) (accumulate_balances d)) eqn:E; [reflexivity |].
  rewrite (find_app_zero _ _ _ E).
  destruct (find (fun r => (ab_id r =? k)%string) (accumulate_balances d));
    [reflexivity |].
  destruct (AB_ID b =? k)%string; [apply Hzero | reflexivity].
Qed.

Lemma update_keeps_column (f : accumulate_balances_row -> Z)
    (g : accumulate_balances_row -> accumulate_balances_row)
    (c : accumulate_balances_row -> bool) d k :
  (forall r, ab_id (g r) = ab_id r) -> (forall r, f (g r) = f r) ->
  balance_column f
    (set_accumulate_balances (map (fun r => if c r then g r else r)) d) k
  = balance_column f d k.
Proof.
  intros Hid Hf. unfold balance_column, column. simpl.
  rewrite (find_update_row g c k _ Hid).
  destruct (find (fun r => (ab_id r =? k)%string) (accumulate_balances d)) as [r |];
    simpl; [| reflexivity].
  destruct (c r); [apply Hf | reflexivity].
Qed.

Lemma pass_steps_keep_column p f d0 d d' k :
  outside p f ->
  pass_steps persist p d0 d d' -> balance_column f d' k = balance_column f d k.
Proof.
  intros [Hzero Hout] Hsteps.
  induction Hsteps as [d d' Hstep | d | d d1 d2 _ IH1 _ IH2];
    [| reflexivity | congruence].
  destruct p; simpl in Hstep, Hout;
    destruct Hstep as [d b tbl Hins | d b | d row Hin];
    try (eapply insert_keeps_column; eassumption);
    try reflexivity.
  - apply (update_keeps_column f (apply_delta processTypeOut b)); [| apply Hout].
    intros r. reflexivity.
  - apply (update_keeps_column f (apply_delta processTypeIn b)); [| apply Hout].
    intros r. reflexivity.
  - apply (update_keeps_column f bump_transaction_count); [| apply Hout].
    intros r. reflexivity.
Qed.

Lemma run_pass_keeps_column p f w k :
  outside p f ->
  balance_column f (db (snd (run_pass ComputeID persist p w))) k =
  balance_column f (db w) k.
Proof.
  intros Hout.
  destruct (run_pass ComputeID persist p w) as [[cnt err] w'] eqn:Hrun.
  destruct (run_pass_result ComputeID persist p w cnt err w' Hrun) as [_ _ Hsteps _].
  simpl. eapply pass_steps_keep_column; eauto.
Qed.

(** C10: each pass leaves the columns outside its direction as they were,
    for every balance key, whether the pass commits or rolls back, and
    whatever rows it creates on the way: the outputs-out pass leaves
    total_sent and transaction_count, the outputs-in pass total_received
    and transaction_count, and the transaction pass utxo_count,
    total_received and total_sent.  In particular the transaction_count
    that the aggregation of the output pass selects never reaches the
    aggregate row. *)
Theorem passes_leave_other_columns (w : World) (k : string) :
  (balance_column ab_total_sent
     (db (snd (processOutputs ComputeID persist processTypeOut w))) k
   = balance_column ab_total_sent (db w) k /\
   balance_column ab_transaction_count
     (db (snd (processOutputs ComputeID persist processTypeOut w))) k
   = balance_column ab_transaction_count (db w) k) /\
  (balance_column ab_total_received
     (db (snd (processOutputs ComputeID persist processTypeIn w))) k
   = balance_column ab_total_received (db w) k /\
   balance_column ab_transaction_count
     (db (snd (processOutputs ComputeID persist processTypeIn w))) k
   = balance_column ab_transaction_count (db w) k) /\
  (balance_column ab_utxo_count
     (db (snd (processTransactions ComputeID persist w))) k
   = balance_column ab_utxo_count (db w) k /\
   balance_column ab_total_received
     (db (snd (processTransactions ComputeID persist w))) k
   = balance_column ab_total_received (db w) k /\
   balance_column ab_total_sent
     (db (snd (processTransactions ComputeID persist w))) k
   = balance_column ab_total_sent (db w) k).
Proof.
  repeat split.
  - apply (run_pass_keeps_column PassOut). split; reflexivity.
  - apply (run_pass_keeps_column PassOut). split; reflexivity.
  - apply (run_pass_keeps_column PassIn). split; reflexivity.
  - apply (run_pass_keeps_column PassIn). split; reflexivity.
  - apply (run_pass_keeps_column PassTxs). split; reflexivity.
  - apply (run_pass_keeps_column PassTxs). split; reflexivity.
  - apply (run_pass_keeps_column PassTxs). split; reflexivity.
Qed.

End Frames.

(** * What a statement does to the tables when it succeeds *)

Lemma on_ok_weaken {A : Type} (m : Tx A) (R R' : DB -> A -> DB -> Prop) :
  on_ok m R -> (forall d a d', R d a d' -> R' d a d') -> on_ok m R'.
Proof. intros H HR w a w' E. apply HR. eapply H. exact E. Qed.

Lemma on_ok_ret {A : Type} (a : A) : on_ok (ret a) (fun d a' d' => a' = a /\ d' = d).
Proof. intros w a' w' E. inversion E; subst. auto. Qed.

Lemma on_ok_bind {A B : Type} (m : Tx A) (k : A -> Tx B) R1 R2 :
  on_ok m R1 -> (forall a, on_ok (k a) (R2 a)) ->
  on_ok (bind m k) (fun d b d'' => exists a d', R1 d a d' /\ R2 a d' b d'').
Proof.
  intros H1 H2 w b w'' E. unfold bind in E.
  destruct (m w) as [[e | a] w'] eqn:Em; [discriminate |].
  exists a, (db w'). split; [eapply H1; exact Em | eapply H2; exact E].
Qed.

Lemma on_ok_db_call : on_ok db_call (fun d _ d' => d' = d).
Proof.
  intros w a w' E. unfold db_call in E.
  destruct (faults w) as [| [e |] fs]; inversion E; reflexivity.
Qed.

Lemma on_ok_emit ev : on_ok (emit ev) (fun d _ d' => d' = d).
Proof. intros w a w' E. inversion E. reflexivity. Qed.

Lemma on_ok_query {A : Type} (q : DB -> A) :
  on_ok (query q) (fun d a d' => a = q d /\ d' = d).
Proof.
  intros w a w' E. unfold query, bind in E.
  destruct (db_call w) as [[e | u] w1] eqn:E1; [discriminate |].
  apply on_ok_db_call in E1. inversion E; subst. rewrite E1. auto.
Qed.

Lemma on_ok_exec (f : DB -> DB) : on_ok (exec f) (fun d _ d' => d' = f d).
Proof.
  intros w a w' E. unfold exec, bind in E.
  destruct (db_call w) as [[e | u] w1] eqn:E1; [discriminate |].
  apply on_ok_db_call in E1. inversion E; subst. simpl. rewrite E1. reflexivity.
Qed.

Lemma on_ok_for_each {A : Type} (body : A -> Tx unit) (R : A -> DB -> DB -> Prop) l :
  (forall x, In x l -> on_ok (body x) (fun d _ d' => R x d d')) ->
  on_ok (for_each l body) (fun d _ d' => iter R l d d').
Proof.
  induction l as [| x l IH]; intros Hbody w a w' E; simpl in E.
  - inversion E. constructor.
  - unfold bind in E. destruct (body x w) as [[e | u] w1] eqn:E1; [discriminate |].
    econstructor.
    + apply (Hbody x (or_introl eq_refl) w u w1 E1).
    + apply (IH (fun y Hy => Hbody y (or_intror Hy)) w1 a w' E).
Qed.

Lemma iter_exec {A : Type} (g : A -> DB -> DB) l d d' :
  iter (fun x d d' => d' = g x d) l d d' -> d' = fold_left (fun d x => g x d) l d.
Proof.
  induction 1 as [d | x l d d1 d2 H _ IH]; simpl; [reflexivity |].
  subst d1. exact IH.
Qed.

Section Success.

Variable ComputeID : string -> string -> string -> string + string.
Variable persist : Persist.

Lemma on_ok_compute_and_insert b :
  on_ok (compute_and_insert ComputeID persist b)
    (fun d b' d' => exists id tbl,
         ComputeID (AB_ChainID b) (AB_AssetID b) (AB_Address b) = inr id /\
         b' = with_ID b id /\
         InsertAccumulateBalances persist b' (accumulate_balances d) = inr tbl /\
         d' = set_accumulate_balances (fun _ => tbl) d).
Proof.
  intros w b' w' E. unfold compute_and_insert, AB_ComputeID, bind in E.
  destruct (ComputeID (AB_ChainID b) (AB_AssetID b) (AB_Address b)) as [e | id] eqn:Ek;
    [discriminate |].
  simpl in E. unfold persist_InsertAccumulateBalances, bind in E.
  destruct (db_call w) as [[e | u] w1] eqn:E1; [discriminate |].
  apply on_ok_db_call in E1.
  destruct (InsertAccumulateBalances persist _ (accumulate_balances (db w1))) as [e | tbl] eqn:Ei;
    [discriminate |].
  inversion E; subst b' w'. simpl. rewrite E1 in *.
  exists id, tbl. auto.
Qed.

Lemma on_ok_inserts {A : Type} (f : A -> AccumulateBalances) l :
  on_ok (for_each_collect l (fun x => compute_and_insert ComputeID persist (f x)))
    (fun d bs' d' => inserted ComputeID persist (map f l) bs' d d').
Proof.
  induction l as [| x l IH]; intros w bs' w' E; simpl in E.
  - inversion E. constructor.
  - unfold bind at 1 in E.
    destruct (compute_and_insert ComputeID persist (f x) w) as [[e | b'] w1] eqn:E1;
      [discriminate |].
    apply on_ok_compute_and_insert in E1. destruct E1 as (id & tbl & Hk & Hb & Hi & Hd).
    unfold bind in E.
    destruct (for_each_collect l _ w1) as [[e | ys] w2] eqn:E2; [discriminate |].
    apply IH in E2. inversion E; subst bs' w'. subst b'. simpl.
    econstructor; eauto. rewrite <- Hd. exact E2.
Qed.

Lemma on_ok_process_row typ row :
  on_ok (process_row ComputeID persist typ row) (fun d _ d' => row_rel ComputeID persist typ row d d').
Proof.
  intros w a w' E. unfold process_row in E. unfold bind at 1 in E.
  destruct (query (fun d => select_balances d row) w) as [[e | bs] w1] eqn:E1;
    [discriminate |].
  apply on_ok_query in E1. destruct E1 as [Hbs Hd1].
  unfold row_rel. rewrite <- Hbs.
  destruct bs as [| b0 bs].
  - apply on_ok_emit in E. congruence.
  - unfold bind at 1 in E.
    destruct (for_each_collect (b0 :: bs) _ w1) as [[e | bs'] w2] eqn:E2; [discriminate |].
    apply (on_ok_inserts (fun b => b)) in E2. rewrite map_id, Hd1 in E2.
    unfold bind at 1 in E.
    destruct (select_locked (map AB_ID bs') w2) as [[e | ids] w3] eqn:E3; [discriminate |].
    apply on_ok_query in E3. destruct E3 as [_ Hd3].
    unfold bind at 1 in E.
    destruct (for_each bs' _ w3) as [[e | u] w4] eqn:E4; [discriminate |].
    apply (on_ok_for_each _
             (fun b d d' =>
                d' = set_accumulate_balances (update_accumulate_balances typ b) d)) in E4;
      [| intros b _; apply on_ok_exec].
    apply iter_exec in E4. apply on_ok_exec in E.
    exists bs', (db w2). split; [exact E2 |]. rewrite E, E4, Hd3. reflexivity.
Qed.

(** [processOutputs] between [Begin] and the rollback, when it did not
    fail. *)
Lemma on_ok_processOutputs_tx typ :
  on_ok (processOutputs_tx ComputeID persist typ)
    (fun d n d' => n = List.length (select_claim typ d) /\
                   iter (row_rel ComputeID persist typ) (select_claim typ d) d d').
Proof.
  intros w n w' E. unfold processOutputs_tx in E. unfold bind at 1 in E.
  destruct (query (select_claim typ) w) as [[e | rows] w1] eqn:E1; [discriminate |].
  apply on_ok_query in E1. destruct E1 as [Hrows Hd1]. rewrite <- Hrows.
  unfold bind at 1 in E. simpl emit in E. cbv beta iota in E.
  unfold emit at 1 in E. cbv beta iota in E.
  destruct rows as [| row0 rows].
  - inversion E; subst. simpl. split; [reflexivity |]. rewrite Hd1. constructor.
  - unfold bind at 1 in E.
    destruct (for_each (row0 :: rows) _ _) as [[e | u] w2] eqn:E2; [discriminate |].
    apply (on_ok_for_each _ (row_rel ComputeID persist typ)) in E2;
      [| intros x _; apply on_ok_process_row].
    simpl db in E2. rewrite Hd1 in E2.
    unfold bind at 1 in E.
    destruct (dbTx_Commit w2) as [[e | u'] w3] eqn:E3; [discriminate |].
    unfold dbTx_Commit, bind in E3.
    destruct (db_call w2) as [[e | u''] w2'] eqn:E4; [discriminate |].
    apply on_ok_db_call in E4. inversion E3; subst w3. inversion E; subst n w'.
    simpl. split; [reflexivity |]. rewrite E4. exact E2.
Qed.

Lemma on_ok_processTransactions_tx :
  on_ok (processTransactions_tx ComputeID persist)
    (fun d n d' => n = List.length (select_claim_txs d) /\
                   txs_rel ComputeID persist (select_claim_txs d) d d').
Proof.
  intros w n w' E. unfold processTransactions_tx in E. unfold bind at 1 in E.
  destruct (query select_claim_txs w) as [[e | rows] w1] eqn:E1; [discriminate |].
  apply on_ok_query in E1. destruct E1 as [Hrows Hd1]. rewrite <- Hrows.
  unfold bind at 1 in E. unfold emit at 1 in E. cbv beta iota in E.
  destruct rows as [| row0 rows].
  - inversion E; subst. simpl. split; [reflexivity |]. exact Hd1.
  - unfold txs_rel.
    unfold bind at 1 in E.
    destruct (for_each_collect (row0 :: rows) _ _) as [[e | bs'] w2] eqn:E2; [discriminate |].
    apply (on_ok_inserts balance_of_row) in E2. simpl db in E2. rewrite Hd1 in E2.
    unfold bind at 1 in E.
    destruct (select_locked (map AB_ID bs') w2) as [[e | ids] w3] eqn:E3; [discriminate |].
    apply on_ok_query in E3. destruct E3 as [_ Hd3].
    unfold bind at 1 in E.
    destruct (for_each bs' _ w3) as [[e | u] w4] eqn:E4; [discriminate |].
    apply (on_ok_for_each _
             (fun b d d' =>
                d' = set_accumulate_balances (update_transaction_count b) d)) in E4;
      [| intros b _; apply on_ok_exec].
    apply iter_exec in E4.
    unfold bind at 1 in E.
    destruct (for_each (row0 :: rows) _ w4) as [[e | u5] w5] eqn:E5; [discriminate |].
    apply (on_ok_for_each _
             (fun row d d' =>
                d' = set_output_txs_accumulate (update_output_txs_accumulate row) d)) in E5;
      [| intros b _; apply on_ok_exec].
    apply iter_exec in E5.
    unfold bind at 1 in E.
    destruct (dbTx_Commit w5) as [[e | u'] w6] eqn:E6; [discriminate |].
    unfold dbTx_Commit, bind in E6.
    destruct (db_call w5) as [[e | u''] w5'] eqn:E7; [discriminate |].
    apply on_ok_db_call in E7. inversion E6; subst w6. inversion E; subst n w'.
    simpl. split; [reflexivity |].
    exists bs', (db w2). split; [exact E2 |]. rewrite E7, E5, E4, Hd3. reflexivity.
Qed.

Lemma in_tx_ok p body (R : DB -> nat -> DB -> Prop) w cnt w' :
  on_ok body R ->
  (forall w0, wp body (tx_post persist p w0) w0) ->
  in_tx body w = ((cnt, None), w') -> R (db w) cnt (db w').
Proof.
  intros Hok Htx Hrun. unfold in_tx in Hrun.
  destruct (sess_Begin_cases w) as [(e & fs & E) | (fs & E)]; rewrite E in Hrun;
    [discriminate |].
  set (w0 := mk_World (db w) (Some (db w)) fs (events w ++ [EvBegin])) in *.
  specialize (Htx w0). unfold wp in Htx.
  destruct (body w0) as [[e | n] w1] eqn:Eb; [discriminate |].
  apply Hok in Eb. simpl in Htx, Eb.
  destruct Htx as (_ & infos & _ & Hn & Htx).
  inversion Hrun; subst cnt w'. clear Hrun.
  unfold RollbackUnlessCommitted.
  destruct n as [| n].
  - destruct Htx as (Htx & Hdb & _). rewrite Htx. simpl. rewrite Hdb in Eb. exact Eb.
  - destruct Htx as (Htx & _). rewrite Htx. exact Eb.
Qed.

(** Every pass that returns no error has done exactly the writes of
    [pass_rel ComputeID persist], and they are committed. *)
Lemma run_pass_ok p w cnt w' :
  run_pass ComputeID persist p w = ((cnt, None), w') -> pass_rel ComputeID persist p (db w) (db w').
Proof.
  rewrite run_pass_in_tx. intros Hrun. destruct p; simpl.
  - apply (in_tx_ok PassOut _
             (fun d n d' => iter (row_rel ComputeID persist processTypeOut) (select_claim_out d) d d'))
      in Hrun; auto.
    + eapply on_ok_weaken; [apply (on_ok_processOutputs_tx processTypeOut) |].
      intros d a d' [_ H]. exact H.
    + intros w0. apply (processOutputs_tx_post ComputeID persist processTypeOut).
  - apply (in_tx_ok PassIn _
             (fun d n d' => iter (row_rel ComputeID persist processTypeIn) (select_claim_in d) d d'))
      in Hrun; auto.
    + eapply on_ok_weaken; [apply (on_ok_processOutputs_tx processTypeIn) |].
      intros d a d' [_ H]. exact H.
    + intros w0. apply (processOutputs_tx_post ComputeID persist processTypeIn).
  - apply (in_tx_ok PassTxs _ (fun d n d' => txs_rel ComputeID persist (select_claim_txs d) d d'))
      in Hrun; auto.
    + eapply on_ok_weaken; [apply on_ok_processTransactions_tx |].
      intros d a d' [_ H]. exact H.
    + intros w0. apply processTransactions_tx_post.
Qed.

End Success.

(** * Atomicity of a pass *)

Lemma same_inputs_refl d : same_inputs d d.
Proof. repeat split. Qed.

Lemma same_inputs_trans d1 d2 d3 :
  same_inputs d1 d2 -> same_inputs d2 d3 -> same_inputs d1 d3.
Proof. unfold same_inputs. intuition congruence. Qed.

Lemma select_balances_inputs d d' row :
  same_inputs d d' -> select_balances d' row = select_balances d row.
Proof. intros (H1 & H2 & _). unfold select_balances. rewrite H1, H2. reflexivity. Qed.

Lemma fold_set_accumulate_balances {A : Type}
    (g : A -> list accumulate_balances_row -> list accumulate_balances_row) l d :
  fold_left (fun d x => set_accumulate_balances (g x) d) l d =
  set_accumulate_balances (fun tbl => fold_left (fun tbl x => g x tbl) l tbl) d.
Proof.
  revert d. induction l as [| x l IH]; intros d; simpl.
  - destruct d; reflexivity.
  - rewrite IH. reflexivity.
Qed.

Lemma fold_set_output_txs_accumulate {A : Type}
    (g : A -> list output_txs_accumulate_row -> list output_txs_accumulate_row) l d :
  fold_left (fun d x => set_output_txs_accumulate (g x) d) l d =
  set_output_txs_accumulate (fun tbl => fold_left (fun tbl x => g x tbl) l tbl) d.
Proof.
  revert d. induction l as [| x l IH]; intros d; simpl.
  - destruct d; reflexivity.
  - rewrite IH. reflexivity.
Qed.

Section Atomic.

Variable ComputeID : string -> string -> string -> string + string.
Variable persist : Persist.

Lemma inserted_frame bs bs' d d' :
  inserted ComputeID persist bs bs' d d' ->
  same_inputs d d' /\
  output_addresses_accumulate d' = output_addresses_accumulate d /\
  output_txs_accumulate d' = output_txs_accumulate d.
Proof.
  induction 1 as [d | b id tbl bs bs' d d' _ _ _ IH].
  - repeat split.
  - destruct IH as ((H1 & H2 & H3) & H4 & H5). simpl in *. repeat split; assumption.
Qed.

Lemma inserted_keys bs bs' d d' :
  inserted ComputeID persist bs bs' d d' ->
  forall b, In b bs ->
    exists id, ComputeID (AB_ChainID b) (AB_AssetID b) (AB_Address b) = inr id.
Proof.
  induction 1 as [d | b0 id tbl bs bs' d d' Hk _ _ IH]; intros b Hin.
  - destruct Hin.
  - destruct Hin as [E | Hin]; [subst; eauto | apply IH; exact Hin].
Qed.

Lemma row_rel_inputs typ row d d' :
  row_rel ComputeID persist typ row d d' -> same_inputs d d'.
Proof.
  unfold row_rel. destruct (select_balances d row) as [| b0 bs].
  - intros ->. apply same_inputs_refl.
  - intros (bs' & d1 & Hins & ->). apply inserted_frame in Hins.
    destruct Hins as ((H1 & H2 & H3) & _). rewrite fold_set_accumulate_balances.
    repeat split; simpl; assumption.
Qed.

Lemma iter_row_rel_keys typ rows d d' :
  iter (row_rel ComputeID persist typ) rows d d' ->
  forall row b, In row rows -> In b (select_balances d row) ->
    exists id, ComputeID (AB_ChainID b) (AB_AssetID b) (AB_Address b) = inr id.
Proof.
  induction 1 as [d | row0 rows d d1 d2 Hrow _ IH]; intros row b Hrow' Hb.
  - destruct Hrow'.
  - destruct Hrow' as [E | Hin].
    + subst row0. unfold row_rel in Hrow.
      destruct (select_balances d row) as [| b0 bs]; [destruct Hb |].
      destruct Hrow as (bs' & d1' & Hins & _).
      eapply inserted_keys; eauto.
    + apply (IH row b Hin).
      rewrite (select_balances_inputs d d1 row (row_rel_inputs _ _ _ _ Hrow)). exact Hb.
Qed.

Lemma pass_trace_error_no_commit p len e evs :
  pass_trace p len (Some e) evs -> ~ In EvCommit evs.
Proof.
  intros Ht Hin. inversion Ht as [e0 | e0 | e0 infos Hinfos | |]; subst; simpl in Hin.
  - exact Hin.
  - destruct Hin as [H | [H | []]]; discriminate.
  - destruct Hin as [H | [H | Hin]]; try discriminate.
    apply in_app_or in Hin. destruct Hin as [Hin | [H | []]]; [| discriminate].
    rewrite Forall_forall in Hinfos. apply Hinfos in Hin. discriminate.
Qed.

Lemma pass_trace_ok_commit p len evs :
  pass_trace p len None evs -> len <> 0 -> In EvCommit evs /\ ~ In EvRollback evs.
Proof.
  intros Ht Hlen. inversion Ht as [| | | Hz | infos Hnz Hinfos]; subst; [contradiction |].
  split.
  - right. right. apply in_or_app. right. left. reflexivity.
  - intros [H | [H | Hin]]; try discriminate.
    apply in_app_or in Hin. destruct Hin as [Hin | [H | []]]; [| discriminate].
    rewrite Forall_forall in Hinfos. apply Hinfos in Hin. discriminate.
Qed.

Lemma db_call_no_fault w : faults w = [] -> db_call w = (inr tt, w).
Proof. intros H. unfold db_call. rewrite H. reflexivity. Qed.

(** C6: a pass is one transaction.  When it returns an error, whichever
    statement failed, it returns count 0, nothing was committed and the
    tables are what they were at [Begin]: no flag flipped, no counter
    moved.  When it returns no error, the tables hold exactly the writes
    of the pass ([pass_rel]: for each claimed row that has a balance, the
    inserts, the counter deltas and the flag flip together), committed by
    one [Commit] when a row was claimed.  A balance key that cannot be
    computed is such an error: the pass then fails, and when nothing fails
    before it the error returned is the one [ComputeID] gave. *)
Theorem pass_is_atomic :
  (forall p w cnt e w',
      run_pass ComputeID persist p w = ((cnt, Some e), w') ->
      cnt = 0 /\ db w' = db w /\
      exists evs, events w' = events w ++ evs /\ ~ In EvCommit evs) /\
  (forall p w cnt w',
      run_pass ComputeID persist p w = ((cnt, None), w') ->
      pass_rel ComputeID persist p (db w) (db w') /\
      ((cnt = 0 /\ db w' = db w) \/
       (cnt <> 0 /\ exists evs, events w' = events w ++ evs /\
                                In EvCommit evs /\ ~ In EvRollback evs))) /\
  (forall typ w row b e,
      In row (select_claim typ (db w)) -> In b (select_balances (db w) row) ->
      ComputeID (AB_ChainID b) (AB_AssetID b) (AB_Address b) = inl e ->
      (exists e', fst (processOutputs ComputeID persist typ w) = (0, Some e')) /\
      db (snd (processOutputs ComputeID persist typ w)) = db w) /\
  (forall w row e,
      In row (select_claim_txs (db w)) ->
      ComputeID (OTA_ChainID row) (OTA_AssetID row) (OTA_Address row) = inl e ->
      (exists e', fst (processTransactions ComputeID persist w) = (0, Some e')) /\
      db (snd (processTransactions ComputeID persist w)) = db w) /\
  (forall w row rows e,
      faults w = [] -> select_claim_txs (db w) = row :: rows ->
      ComputeID (OTA_ChainID row) (OTA_AssetID row) (OTA_Address row) = inl e ->
      processTransactions ComputeID persist w =
      ((0, Some e),
       mk_World (db w) None []
                (events w ++ [EvBegin; EvClaim PassTxs (S (List.length rows)); EvRollback]))).
Proof.
  split; [| split; [| split; [| split]]].
  - intros p w cnt e w' Hrun.
    destruct (run_pass_result ComputeID persist p w cnt (Some e) w' Hrun)
      as [(evs & Hev & Htr) Hcnt _ Hundone].
    split; [exact Hcnt | split].
    + apply Hundone. left. discriminate.
    + exists evs. split; [exact Hev |]. eapply pass_trace_error_no_commit; eauto.
  - intros p w cnt w' Hrun. split; [eapply run_pass_ok; eauto |].
    destruct (run_pass_result ComputeID persist p w cnt None w' Hrun)
      as [(evs & Hev & Htr) Hcnt _ Hundone].
    destruct (claim_len p (db w)) as [| n] eqn:Elen.
    + left. split; [exact Hcnt | apply Hundone; right; reflexivity].
    + right. split; [rewrite Hcnt; discriminate |].
      exists evs. split; [exact Hev |]. eapply pass_trace_ok_commit; eauto.
  - intros typ w row b e Hrow Hb Hk.
    assert (Hpass : processOutputs ComputeID persist typ =
                    run_pass ComputeID persist (pass_of typ)) by (destruct typ; reflexivity).
    rewrite Hpass.
    destruct (run_pass ComputeID persist (pass_of typ) w) as [[cnt err] w'] eqn:Hrun.
    destruct (run_pass_result ComputeID persist _ w cnt err w' Hrun)
      as [_ Hcnt _ Hundone].
    destruct err as [e' |]; simpl.
    + split; [exists e'; rewrite Hcnt; reflexivity | apply Hundone; left; discriminate].
    + exfalso. apply run_pass_ok in Hrun.
      assert (Hiter : iter (row_rel ComputeID persist typ) (select_claim typ (db w))
                        (db w) (db w')) by (destruct typ; exact Hrun).
      destruct (iter_row_rel_keys _ _ _ _ Hiter row b Hrow Hb) as [id Hid].
      congruence.
  - intros w row e Hrow Hk.
    change (processTransactions ComputeID persist)
      with (run_pass ComputeID persist PassTxs).
    destruct (run_pass ComputeID persist PassTxs w) as [[cnt err] w'] eqn:Hrun.
    destruct (run_pass_result ComputeID persist _ w cnt err w' Hrun)
      as [_ Hcnt _ Hundone].
    destruct err as [e' |]; simpl.
    + split; [exists e'; rewrite Hcnt; reflexivity | apply Hundone; left; discriminate].
    + exfalso. apply run_pass_ok in Hrun. simpl in Hrun. unfold txs_rel in Hrun.
      destruct (select_claim_txs (db w)) as [| row0 rows] eqn:E; [destruct Hrow |].
      destruct Hrun as (bs' & d1 & Hins & _).
      destruct (inserted_keys _ _ _ _ Hins (balance_of_row row)) as [id Hid].
      * apply in_map. exact Hrow.
      * simpl in Hid. congruence.
  - intros [d t fs ev] row rows e Hf Hrows Hk. simpl in Hf, Hrows. subst fs.
    unfold processTransactions, processTransactions_tx, sess_Begin, query, emit, bind,
      db_call. cbn [db tx faults events]. rewrite Hrows.
    cbn [for_each_collect]. unfold bind, compute_and_insert, AB_ComputeID, bind.
    cbn [balance_of_row AB_ChainID AB_AssetID AB_Address]. rewrite Hk.
    unfold throw, RollbackUnlessCommitted. cbn [db tx faults events List.length].
    rewrite <- !app_assoc. reflexivity.
Qed.

End Atomic.

(** * Lists: sums, keys and joins *)

Lemma sumZ_app l1 l2 : sumZ (l1 ++ l2) = (sumZ l1 + sumZ l2)%Z.
Proof. induction l1 as [| x l1 IH]; simpl; [reflexivity | rewrite IH; lia]. Qed.

Lemma sumZ_flat_map {A B : Type} (g : A -> list B) (f : B -> Z) l :
  sumZ (map f (flat_map g l)) = sumZ (map (fun a => sumZ (map f (g a))) l).
Proof.
  induction l as [| a l IH]; simpl; [reflexivity |].
  rewrite map_app, sumZ_app, IH. reflexivity.
Qed.

Lemma sumZ_cons x l : sumZ (x :: l) = (x + sumZ l)%Z.
Proof. reflexivity. Qed.

Lemma length_sumZ {A : Type} (l : list A) :
  Z.of_nat (List.length l) = sumZ (map (fun _ => 1%Z) l).
Proof.
  induction l as [| a l IH]; [reflexivity |].
  cbn [List.length map]. rewrite sumZ_cons, Nat2Z.inj_succ, IH. lia.
Qed.

Lemma filter_flat_map {A B : Type} (p : B -> bool) (g : A -> list B) l :
  filter p (flat_map g l) = flat_map (fun a => filter p (g a)) l.
Proof.
  induction l as [| a l IH]; simpl; [reflexivity |].
  rewrite filter_app, IH. reflexivity.
Qed.

Lemma filter_map_pair {A B : Type} (p : A * B -> bool) (a : A) (l : list B) :
  filter p (map (pair a) l) = map (pair a) (filter (fun b => p (a, b)) l).
Proof.
  induction l as [| b l IH]; simpl; [reflexivity |].
  destruct (p (a, b)); simpl; rewrite IH; reflexivity.
Qed.

Lemma filter_filter {A : Type} (p q : A -> bool) l :
  filter p (filter q l) = filter (fun x => q x && p x) l.
Proof.
  induction l as [| x l IH]; simpl; [reflexivity |].
  destruct (q x); simpl; [destruct (p x); rewrite IH; reflexivity | exact IH].
Qed.

Lemma filter_all_false {A : Type} (p : A -> bool) l :
  (forall x, In x l -> p x = false) -> filter p l = [].
Proof.
  induction l as [| x l IH]; intros H; simpl; [reflexivity |].
  rewrite (H x (or_introl eq_refl)). apply IH. intros y Hy. apply H. right. exact Hy.
Qed.

Lemma NoDup_map_eq {A B : Type} (f : A -> B) l x y :
  NoDup (map f l) -> In x l -> In y l -> f x = f y -> x = y.
Proof.
  induction l as [| a l IH]; intros Hnd Hx Hy Hf; [destruct Hx |].
  simpl in Hnd. inversion Hnd as [| ? ? Hnotin Hnd']; subst.
  destruct Hx as [-> | Hx], Hy as [-> | Hy]; auto.
  - exfalso. apply Hnotin. rewrite Hf. apply in_map. exact Hy.
  - exfalso. apply Hnotin. rewrite <- Hf. apply in_map. exact Hx.
Qed.

Lemma NoDup_map_on {A B : Type} (f : A -> B) l :
  NoDup l -> (forall x y, In x l -> In y l -> f x = f y -> x = y) -> NoDup (map f l).
Proof.
  induction l as [| a l IH]; intros Hnd Hinj; simpl; [constructor |].
  inversion Hnd as [| ? ? Hnotin Hnd']; subst. constructor.
  - intros Hin. apply in_map_iff in Hin. destruct Hin as (y & Hfy & Hy).
    apply Hnotin. rewrite (Hinj a y); auto; [left; reflexivity | right; exact Hy].
  - apply IH; [exact Hnd' |]. intros x y Hx Hy. apply Hinj; right; assumption.
Qed.

Lemma NoDup_firstn {A : Type} n (l : list A) : NoDup l -> NoDup (firstn n l).
Proof.
  revert l. induction n as [| n IH]; intros [| x l] Hnd; simpl; try constructor.
  - inversion Hnd; subst. intros Hin. apply firstn_In in Hin. contradiction.
  - inversion Hnd; subst. apply IH. assumption.
Qed.

Lemma NoDup_join {A B : Type} (on : A -> B -> bool) l r :
  NoDup l -> NoDup r -> NoDup (join on l r).
Proof.
  intros Hl Hr. unfold join. induction l as [| a l IH]; simpl; [constructor |].
  inversion Hl as [| ? ? Hnotin Hl']; subst.
  apply NoDup_app.
  - apply NoDup_map_on; [apply NoDup_filter; exact Hr |].
    intros x y _ _ E. inversion E. reflexivity.
  - apply IH. exact Hl'.
  - intros [a' b] Hin1 Hin2. apply in_map_iff in Hin1.
    destruct Hin1 as (b' & E & _). inversion E; subst a' b'.
    apply (In_join on l r a b) in Hin2. tauto.
Qed.

(** A list whose members are all equal and that has no duplicate holds
    at most one member. *)
Lemma at_most_one {A : Type} (l : list A) :
  NoDup l -> (forall x y, In x l -> In y l -> x = y) -> l = [] \/ exists x, l = [x].
Proof.
  intros Hnd Heq. destruct l as [| x [| y l]]; [auto | eauto |].
  exfalso. inversion Hnd as [| ? ? Hnotin _]; subst.
  apply Hnotin. rewrite (Heq x y); [left; reflexivity | left; reflexivity |].
  right. left. reflexivity.
Qed.

(** The sum of [h] over a table after an UPDATE that changes the one row
    [x0] that matches. *)
Lemma sum_update_one {A : Type} (h : A -> Z) (m : A -> bool) (u : A -> A) l x0 :
  NoDup l ->
  (forall x y, In x l -> In y l -> m x = true -> m y = true -> x = y) ->
  In x0 l -> m x0 = true ->
  sumZ (map h (map (fun x => if m x then u x else x) l)) =
  (sumZ (map h l) + (h (u x0) - h x0))%Z.
Proof.
  intros Hnd Huniq Hin Hm. induction l as [| a l IH]; [destruct Hin |].
  inversion Hnd as [| ? ? Hnotin Hnd']; subst. simpl.
  destruct Hin as [-> | Hin].
  - rewrite Hm.
    assert (Hrest : map (fun x => if m x then u x else x) l = l).
    { rewrite <- (map_id l) at 2. apply map_ext_in. intros y Hy.
      destruct (m y) eqn:Ey; [| reflexivity].
      exfalso. apply Hnotin. rewrite (Huniq x0 y); auto; [left; reflexivity | right; exact Hy]. }
    rewrite Hrest. lia.
  - assert (Ea : m a = false).
    { destruct (m a) eqn:Ea; [| reflexivity].
      exfalso. apply Hnotin. rewrite (Huniq a x0); auto; [left; reflexivity | right; exact Hin]. }
    rewrite Ea, IH; auto; [lia |].
    intros x y Hx Hy. apply Huniq; right; assumption.
Qed.

(** The sum of [h] over a table after an UPDATE that [h] does not see. *)
Lemma sum_update_none {A : Type} (h : A -> Z) (m : A -> bool) (u : A -> A) l :
  (forall x, h (u x) = h x) ->
  sumZ (map h (map (fun x => if m x then u x else x) l)) = sumZ (map h l).
Proof.
  intros Hh. rewrite map_map. f_equal. apply map_ext. intros x.
  destruct (m x); [apply Hh | reflexivity].
Qed.

Lemma NoDup_map_update {A B : Type} (key : A -> B) (m : A -> bool) (u : A -> A) l :
  (forall x, key (u x) = key x) ->
  map key (map (fun x => if m x then u x else x) l) = map key l.
Proof.
  intros Hk. rewrite map_map. apply map_ext. intros x.
  destruct (m x); [apply Hk | reflexivity].
Qed.

(** * Conservation: the sums seen row by row *)

Lemma group_key_eqb_refl k : group_key_eqb k k = true.
Proof.
  unfold group_key_eqb. rewrite !String.eqb_refl. reflexivity.
Qed.

Lemma filter_eq_unique {A : Type} (f : A -> string) l x0 :
  NoDup (map f l) -> In x0 l -> filter (fun y => (f x0 =? f y)%string) l = [x0].
Proof.
  induction l as [| a l IH]; intros Hnd Hin; [destruct Hin |].
  simpl in Hnd. inversion Hnd as [| ? ? Hnotin Hnd']; subst. simpl.
  destruct Hin as [-> | Hin].
  - rewrite String.eqb_refl. f_equal. apply filter_all_false.
    intros y Hy. apply String.eqb_neq. intros E. apply Hnotin. rewrite E.
    apply in_map. exact Hy.
  - destruct (String.eqb_spec (f x0) (f a)) as [E | _]; [| apply IH; assumption].
    exfalso. apply Hnotin. rewrite <- E. apply in_map. exact Hin.
Qed.

Section Weights.

Variable ComputeID : string -> string -> string -> string + string.

Lemma accumulated_sum g flag d k :
  sumZ (map (fun so => g (snd so)) (accumulated ComputeID flag d k)) =
  sumZ (map (fun s => if (flag s =? 1)%Z
                      then weight ComputeID g d k (oaa_id s) (oaa_address s) else 0%Z)
            (output_addresses_accumulate d)).
Proof.
  unfold accumulated, join. rewrite filter_flat_map, sumZ_flat_map.
  f_equal. apply map_ext. intros s.
  rewrite filter_map_pair, map_map, filter_filter. simpl.
  destruct (flag s =? 1)%Z; simpl.
  - unfold weight. reflexivity.
  - rewrite filter_all_false; [reflexivity |].
    intros o _. apply andb_false_r.
Qed.

Lemma sum_amounts_weight flag d k :
  sum_amounts (accumulated ComputeID flag d k) =
  sumZ (map (fun s => if (flag s =? 1)%Z
                      then weight ComputeID out_amount d k (oaa_id s) (oaa_address s) else 0%Z)
            (output_addresses_accumulate d)).
Proof. apply (accumulated_sum out_amount). Qed.

Lemma length_weight flag d k :
  Z.of_nat (List.length (accumulated ComputeID flag d k)) =
  sumZ (map (fun s => if (flag s =? 1)%Z
                      then weight ComputeID (fun _ => 1%Z) d k (oaa_id s) (oaa_address s) else 0%Z)
            (output_addresses_accumulate d)).
Proof. rewrite length_sumZ. apply (accumulated_sum (fun _ => 1%Z)). Qed.

Lemma weight_unique g d k o address id' :
  NoDup (map out_id (avm_outputs d)) -> In o (avm_outputs d) ->
  ComputeID (out_chain_id o) (out_asset_id o) address = inr id' ->
  weight ComputeID g d k (out_id o) address = if (id' =? k)%string then g o else 0%Z.
Proof.
  intros Hnd Hin Hk. unfold weight.
  rewrite <- (filter_filter
                (fun o' => key_is ComputeID (out_chain_id o') (out_asset_id o') address k)
                (fun o' => (out_id o =? out_id o')%string)).
  rewrite (filter_eq_unique out_id _ o Hnd Hin). simpl.
  unfold key_is. rewrite Hk. destruct (id' =? k)%string; simpl; lia.
Qed.

Lemma weight_inputs g d d' k id address :
  same_inputs d d' -> weight ComputeID g d' k id address = weight ComputeID g d k id address.
Proof. intros (H & _). unfold weight. rewrite H. reflexivity. Qed.

End Weights.

(** The aggregation of a claimed row, when the keys of the tables hold:
    nothing, or the one balance of the one output with that id. *)
Lemma select_balances_keys d row :
  keys_ok d ->
  select_balances d row = [] \/
  exists o, In o (avm_outputs d) /\ out_id o = OAA_ID row /\
            select_balances d row =
            [mk_AccumulateBalances "" (out_chain_id o) (out_asset_id o) (OAA_Address row)
               1 (out_amount o + 0) (out_amount o + 0)].
Proof.
  intros Hk. unfold select_balances.
  set (joined := filter _ (join _ (avm_outputs d) (avm_output_addresses d))).
  assert (Hone : joined = [] \/ exists x, joined = [x]).
  { apply at_most_one.
    - apply NoDup_filter. apply NoDup_join.
      + eapply NoDup_map_inv. apply (ko_outputs d Hk).
      + eapply NoDup_map_inv. apply (ko_addresses d Hk).
    - intros [o a] [o' a'] Hx Hy. unfold joined in Hx, Hy.
      apply filter_In in Hx, Hy. destruct Hx as [Hx Hpx], Hy as [Hy Hpy].
      apply In_join in Hx, Hy. destruct Hx as (Ho & Ha & Hon), Hy as (Ho' & Ha' & Hon').
      simpl in Hpx, Hpy. apply andb_true_iff in Hpx, Hpy.
      destruct Hpx as [Hid Had], Hpy as [Hid' Had'].
      apply String.eqb_eq in Hon, Hon', Hid, Had, Hid', Had'.
      assert (o = o') by (apply (NoDup_map_eq out_id _ _ _ (ko_outputs d Hk)); congruence).
      assert (a = a').
      { apply (NoDup_map_eq (fun a => (adr_output_id a, adr_address a)) _ _ _
                 (ko_addresses d Hk)); auto. f_equal; congruence. }
      congruence. }
  destruct Hone as [E | [[o a] E]]; rewrite E; [left; reflexivity | right].
  assert (Hin : In (o, a) joined) by (rewrite E; left; reflexivity).
  unfold joined in Hin. apply filter_In in Hin. destruct Hin as [Hin Hp].
  apply In_join in Hin. destruct Hin as (Ho & _ & _).
  simpl in Hp. apply andb_true_iff in Hp. destruct Hp as [Hid Had].
  apply String.eqb_eq in Hid, Had.
  exists o. split; [exact Ho | split; [exact Hid |]].
  simpl. rewrite group_key_eqb_refl. simpl. rewrite Had. reflexivity.
Qed.

(** * Conservation: the aggregate columns row by row *)

Lemma find_none_has k tbl :
  find (fun r => (ab_id r =? k)%string) tbl = None -> has_balance k tbl = false.
Proof.
  unfold has_balance. induction tbl as [| r tbl IH]; simpl; [reflexivity |].
  destruct (ab_id r =? k)%string; [discriminate | exact IH].
Qed.

Lemma find_key k tbl r :
  find (fun r => (ab_id r =? k)%string) tbl = Some r -> ab_id r = k.
Proof. intros H. apply find_some in H. apply String.eqb_eq. tauto. Qed.

Lemma has_balance_update id (g : accumulate_balances_row -> accumulate_balances_row)
    (c : accumulate_balances_row -> bool) tbl :
  (forall r, ab_id (g r) = ab_id r) ->
  has_balance id (map (fun r => if c r then g r else r) tbl) = has_balance id tbl.
Proof.
  intros Hid. unfold has_balance. induction tbl as [| r tbl IH]; simpl; [reflexivity |].
  rewrite IH. destruct (c r); [rewrite Hid |]; reflexivity.
Qed.

Lemma has_balance_app id tbl tbl' :
  has_balance id (tbl ++ tbl') = has_balance id tbl || has_balance id tbl'.
Proof. unfold has_balance. apply existsb_app. Qed.

(** The UPDATE of the row with key [id], seen at key [k]. *)
Lemma column_update f (g : accumulate_balances_row -> accumulate_balances_row) id tbl k delta :
  (forall r, ab_id (g r) = ab_id r) ->
  (forall r, f (g r) = (f r + delta)%Z) ->
  has_balance id tbl = true ->
  column f (map (fun r => if (ab_id r =? id)%string then g r else r) tbl) k =
  (column f tbl k + if (id =? k)%string then delta else 0)%Z.
Proof.
  intros Hid Hf Hhas. unfold column.
  rewrite (find_update_row g (fun r => (ab_id r =? id)%string) k tbl Hid).
  destruct (find (fun r => (ab_id r =? k)%string) tbl) as [r |] eqn:E; simpl.
  - apply find_key in E. rewrite E, (String.eqb_sym k id).
    destruct (id =? k)%string; [apply Hf | lia].
  - destruct (String.eqb_spec id k) as [-> | _]; [| reflexivity].
    apply find_none_has in E. congruence.
Qed.

Section Columns.

Variable persist : Persist.
Hypothesis persist_ok : persist_contract persist.

Lemma insert_has b tbl tbl' :
  InsertAccumulateBalances persist b tbl = inr tbl' ->
  has_balance (AB_ID b) tbl' = true /\
  (forall id, has_balance id tbl = true -> has_balance id tbl' = true) /\
  (forall f k, (forall id, f (zero_balance id) = 0%Z) -> column f tbl' k = column f tbl k).
Proof.
  rewrite persist_ok. intros H. inversion H as [E]. clear H.
  destruct (has_balance (AB_ID b) tbl) eqn:Eh.
  - auto.
  - split; [| split].
    + rewrite has_balance_app. simpl. rewrite String.eqb_refl. apply orb_true_r.
    + intros id Hid. rewrite has_balance_app, Hid. reflexivity.
    + intros f k Hzero. unfold column. rewrite (find_app_zero k _ _ Eh).
      destruct (find (fun r => (ab_id r =? k)%string) tbl); [reflexivity |].
      destruct (AB_ID b =? k)%string; [apply Hzero | reflexivity].
Qed.

End Columns.

(** * Conservation: the flags row by row *)

Lemma flag_of_flip typ s : flag_of typ (flip_flag typ s) = 1%Z.
Proof. destruct typ; reflexivity. Qed.

Lemma other_flag_of_flip typ s : other_flag_of typ (flip_flag typ s) = other_flag_of typ s.
Proof. destruct typ; reflexivity. Qed.

Lemma staging_match_unique (tbl : list output_addresses_accumulate_row) row x y :
  NoDup (map (fun s => (oaa_id s, oaa_address s)) tbl) ->
  In x tbl -> In y tbl ->
  (oaa_id x =? OAA_ID row)%string && (oaa_address x =? OAA_Address row)%string = true ->
  (oaa_id y =? OAA_ID row)%string && (oaa_address y =? OAA_Address row)%string = true ->
  x = y.
Proof.
  intros Hnd Hx Hy Hmx Hmy.
  apply andb_true_iff in Hmx, Hmy. destruct Hmx as [H1 H2], Hmy as [H3 H4].
  apply String.eqb_eq in H1, H2, H3, H4.
  apply (NoDup_map_eq (fun s => (oaa_id s, oaa_address s)) tbl x y Hnd Hx Hy).
  f_equal; congruence.
Qed.

(** The flip seen by the sum over the flag that is flipped. *)
Lemma flip_sum_same typ row tbl (W : string -> string -> Z) s0 :
  NoDup (map (fun s => (oaa_id s, oaa_address s)) tbl) ->
  In s0 tbl -> oaa_id s0 = OAA_ID row -> oaa_address s0 = OAA_Address row ->
  flag_of typ s0 = 0%Z ->
  sumZ (map (fun s => if (flag_of typ s =? 1)%Z then W (oaa_id s) (oaa_address s) else 0%Z)
            (update_output_addresses_accumulate typ row tbl)) =
  (sumZ (map (fun s => if (flag_of typ s =? 1)%Z then W (oaa_id s) (oaa_address s) else 0%Z)
             tbl)
   + W (OAA_ID row) (OAA_Address row))%Z.
Proof.
  intros Hnd Hin Hid Had Hflag. unfold update_output_addresses_accumulate.
  rewrite (sum_update_one _ _ (flip_flag typ) tbl s0).
  - rewrite flag_of_flip, Hflag. simpl.
    replace (oaa_id (flip_flag typ s0)) with (OAA_ID row) by (destruct typ; simpl; congruence).
    replace (oaa_address (flip_flag typ s0)) with (OAA_Address row)
      by (destruct typ; simpl; congruence).
    lia.
  - eapply NoDup_map_inv. exact Hnd.
  - intros x y Hx Hy. apply (staging_match_unique tbl row); assumption.
  - exact Hin.
  - rewrite Hid, Had, !String.eqb_refl. reflexivity.
Qed.

(** The flip seen by the sum over the other flag. *)
Lemma flip_sum_other typ row tbl (W : string -> string -> Z) :
  sumZ (map (fun s => if (other_flag_of typ s =? 1)%Z
                      then W (oaa_id s) (oaa_address s) else 0%Z)
            (update_output_addresses_accumulate typ row tbl)) =
  sumZ (map (fun s => if (other_flag_of typ s =? 1)%Z
                      then W (oaa_id s) (oaa_address s) else 0%Z) tbl).
Proof.
  unfold update_output_addresses_accumulate. apply sum_update_none.
  intros s. rewrite other_flag_of_flip. destruct typ; reflexivity.
Qed.

Lemma update_staging_keys typ row tbl :
  map (fun s => (oaa_id s, oaa_address s)) (update_output_addresses_accumulate typ row tbl) =
  map (fun s => (oaa_id s, oaa_address s)) tbl.
Proof.
  unfold update_output_addresses_accumulate. apply NoDup_map_update.
  intros s. destruct typ; reflexivity.
Qed.

(** A flip leaves the rows with another id or address alone. *)
Lemma unflagged_update typ row row' tbl d :
  output_addresses_accumulate d = update_output_addresses_accumulate typ row tbl ->
  (OAA_ID row', OAA_Address row') <> (OAA_ID row, OAA_Address row) ->
  (exists s, In s tbl /\ oaa_id s = OAA_ID row' /\ oaa_address s = OAA_Address row' /\
             flag_of typ s = 0%Z) ->
  unflagged typ row' d.
Proof.
  intros Hd Hne (s & Hin & Hid & Had & Hflag). exists s. rewrite Hd.
  split; [| auto]. unfold update_output_addresses_accumulate.
  apply in_map_iff. exists s. split; [| exact Hin].
  destruct (String.eqb_spec (oaa_id s) (OAA_ID row)) as [E1 | _]; [| reflexivity].
  destruct (String.eqb_spec (oaa_address s) (OAA_Address row)) as [E2 | _]; [| reflexivity].
  exfalso. apply Hne. f_equal; congruence.
Qed.

(** * Conservation: one round of the output pass *)

Section RowConservation.

Variable ComputeID : string -> string -> string -> string + string.
Variable persist : Persist.
Hypothesis persist_ok : persist_contract persist.

(** The sums over the accumulated outputs after the flip of [row], whose
    one output [o] has key [id]. *)
Lemma flip_accumulated typ row d d' o id k g :
  output_addresses_accumulate d' =
    update_output_addresses_accumulate typ row (output_addresses_accumulate d) ->
  avm_outputs d' = avm_outputs d ->
  keys_ok d -> unflagged typ row d ->
  In o (avm_outputs d) -> out_id o = OAA_ID row ->
  ComputeID (out_chain_id o) (out_asset_id o) (OAA_Address row) = inr id ->
  sumZ (map (fun so => g (snd so)) (accumulated ComputeID (flag_of typ) d' k)) =
    (sumZ (map (fun so => g (snd so)) (accumulated ComputeID (flag_of typ) d k))
     + if (id =? k)%string then g o else 0)%Z /\
  sumZ (map (fun so => g (snd so)) (accumulated ComputeID (other_flag_of typ) d' k)) =
    sumZ (map (fun so => g (snd so)) (accumulated ComputeID (other_flag_of typ) d k)).
Proof.
  intros Hst Hout Hk (s0 & Hin & Hid & Had & Hflag) Ho Hoid Hkey.
  rewrite !accumulated_sum. rewrite Hst.
  assert (Hw : forall id' address, weight ComputeID g d' k id' address
                                   = weight ComputeID g d k id' address).
  { intros. unfold weight. rewrite Hout. reflexivity. }
  split.
  - rewrite (map_ext _ (fun s => if (flag_of typ s =? 1)%Z
                                 then weight ComputeID g d k (oaa_id s) (oaa_address s)
                                 else 0%Z))
      by (intros s; rewrite Hw; reflexivity).
    rewrite (flip_sum_same typ row _ (weight ComputeID g d k) s0 (ko_staging d Hk)
               Hin Hid Had Hflag).
    rewrite <- Hoid, (weight_unique ComputeID g d k o _ id (ko_outputs d Hk) Ho Hkey).
    reflexivity.
  - rewrite (map_ext _ (fun s => if (other_flag_of typ s =? 1)%Z
                                 then weight ComputeID g d k (oaa_id s) (oaa_address s)
                                 else 0%Z))
      by (intros s; rewrite Hw; reflexivity).
    apply flip_sum_other.
Qed.

Lemma accumulated_ext flag d d' k :
  output_addresses_accumulate d' = output_addresses_accumulate d ->
  avm_outputs d' = avm_outputs d ->
  accumulated ComputeID flag d' k = accumulated ComputeID flag d k.
Proof. intros H1 H2. unfold accumulated. rewrite H1, H2. reflexivity. Qed.

Lemma conserved_at_flags_swap typ d k :
  conserved_at ComputeID d k <->
  (balance_column (match typ with
                   | processTypeOut => ab_total_received
                   | processTypeIn => ab_total_sent
                   end) d k = sum_amounts (accumulated ComputeID (flag_of typ) d k) /\
   balance_column (match typ with
                   | processTypeOut => ab_total_sent
                   | processTypeIn => ab_total_received
                   end) d k = sum_amounts (accumulated ComputeID (other_flag_of typ) d k) /\
   balance_column ab_utxo_count d k =
     (match typ with processTypeOut => 1 | processTypeIn => -1 end
      * (Z.of_nat (List.length (accumulated ComputeID (flag_of typ) d k))
         - Z.of_nat (List.length (accumulated ComputeID (other_flag_of typ) d k))))%Z /\
   balance_column ab_transaction_count d k =
     Z.of_nat (List.length (accumulated_txs ComputeID d k))).
Proof.
  unfold conserved_at. destruct typ; simpl flag_of; simpl other_flag_of; intuition lia.
Qed.

(** The writes of one round on a row whose one output is [o]. *)
Lemma row_writes_conserved typ row d o id tbl :
  keys_ok d -> conserved ComputeID d -> unflagged typ row d ->
  In o (avm_outputs d) -> out_id o = OAA_ID row ->
  ComputeID (out_chain_id o) (out_asset_id o) (OAA_Address row) = inr id ->
  let b' := mk_AccumulateBalances id (out_chain_id o) (out_asset_id o) (OAA_Address row)
              1 (out_amount o + 0) (out_amount o + 0) in
  InsertAccumulateBalances persist b' (accumulate_balances d) = inr tbl ->
  forall d',
    d' = set_output_addresses_accumulate (update_output_addresses_accumulate typ row)
           (set_accumulate_balances (update_accumulate_balances typ b')
              (set_accumulate_balances (fun _ => tbl) d)) ->
    conserved ComputeID d' /\ keys_ok d' /\ same_inputs d d' /\
    output_txs_accumulate d' = output_txs_accumulate d /\
    (forall row', (OAA_ID row', OAA_Address row') <> (OAA_ID row, OAA_Address row) ->
                  unflagged typ row' d -> unflagged typ row' d').
Proof.
  intros Hk Hc Hun Ho Hoid Hkey b' Hi d' Hd'.
  destruct (insert_has persist persist_ok b' _ tbl Hi) as (Hhas & _ & Hcol).
  assert (Hst : output_addresses_accumulate d' =
                update_output_addresses_accumulate typ row (output_addresses_accumulate d))
    by (rewrite Hd'; reflexivity).
  assert (Hout : avm_outputs d' = avm_outputs d) by (rewrite Hd'; reflexivity).
  assert (Htx : output_txs_accumulate d' = output_txs_accumulate d)
    by (rewrite Hd'; reflexivity).
  assert (Hab : accumulate_balances d' = update_accumulate_balances typ b' tbl)
    by (rewrite Hd'; reflexivity).
  split; [| split; [| split; [| split]]].
  - intros k. specialize (Hc k).
    apply (conserved_at_flags_swap typ) in Hc. apply (conserved_at_flags_swap typ).
    destruct Hc as (Hown & Hother & Hutxo & Htxc).
    destruct (flip_accumulated typ row d d' o id k out_amount Hst Hout Hk Hun Ho Hoid Hkey)
      as [Ha1 Ha2].
    destruct (flip_accumulated typ row d d' o id k (fun _ => 1%Z) Hst Hout Hk Hun Ho Hoid Hkey)
      as [Hl1 Hl2].
    rewrite <- !length_sumZ in Hl1, Hl2.
    unfold sum_amounts. rewrite Ha1, Ha2, Hl1, Hl2.
    unfold balance_column in *. rewrite Hab. unfold update_accumulate_balances.
    assert (Hidb : AB_ID b' = id) by reflexivity.
    split; [| split; [| split]].
    + rewrite (column_update _ (apply_delta typ b') (AB_ID b') tbl k (out_amount o + 0));
        [| destruct typ; reflexivity | destruct typ; reflexivity | exact Hhas].
      rewrite Hcol by (destruct typ; reflexivity).
      rewrite Hidb. unfold sum_amounts in Hown. destruct (id =? k)%string; lia.
    + rewrite (column_update _ (apply_delta typ b') (AB_ID b') tbl k 0);
        [| destruct typ; reflexivity | destruct typ; intros r; simpl; lia | exact Hhas].
      rewrite Hcol by (destruct typ; reflexivity).
      unfold sum_amounts in Hother. destruct (AB_ID b' =? k)%string; lia.
    + rewrite (column_update _ (apply_delta typ b') (AB_ID b') tbl k
                 (match typ with processTypeOut => 1 | processTypeIn => -1 end));
        [| destruct typ; reflexivity | destruct typ; intros r; simpl; lia | exact Hhas].
      rewrite Hcol by reflexivity.
      rewrite Hidb. destruct (id =? k)%string; destruct typ; lia.
    + rewrite (column_update _ (apply_delta typ b') (AB_ID b') tbl k 0);
        [| destruct typ; reflexivity | destruct typ; intros r; simpl; lia | exact Hhas].
      rewrite Hcol by reflexivity.
      unfold accumulated_txs. rewrite Htx. fold (accumulated_txs ComputeID d k).
      destruct (AB_ID b' =? k)%string; lia.
  - destruct Hk as [K1 K2 K3 K4 K5]. split; rewrite Hd'; simpl; auto.
    rewrite update_staging_keys. exact K1.
  - rewrite Hd'. repeat split.
  - exact Htx.
  - intros row' Hne Hrow'. eapply unflagged_update; eauto.
Qed.

Lemma inserted_one b bs' d d1 :
  inserted ComputeID persist [b] bs' d d1 ->
  exists id tbl,
    ComputeID (AB_ChainID b) (AB_AssetID b) (AB_Address b) = inr id /\
    InsertAccumulateBalances persist (with_ID b id) (accumulate_balances d) = inr tbl /\
    bs' = [with_ID b id] /\ d1 = set_accumulate_balances (fun _ => tbl) d.
Proof.
  intros H. inversion H; subst.
  match goal with H' : inserted _ _ [] _ _ _ |- _ => inversion H'; subst end.
  eauto 10.
Qed.

(** One round that did not fail keeps I4, given the keys and the flag of
    the claimed row at 0. *)
Lemma row_rel_conserved typ row d d' :
  keys_ok d -> conserved ComputeID d -> unflagged typ row d ->
  row_rel ComputeID persist typ row d d' ->
  conserved ComputeID d' /\ keys_ok d' /\ same_inputs d d' /\
  output_txs_accumulate d' = output_txs_accumulate d /\
  (forall row', (OAA_ID row', OAA_Address row') <> (OAA_ID row, OAA_Address row) ->
                unflagged typ row' d -> unflagged typ row' d').
Proof.
  intros Hk Hc Hun Hrel. unfold row_rel in Hrel.
  destruct (select_balances_keys d row Hk) as [E | (o & Ho & Hoid & E)]; rewrite E in Hrel.
  - subst d'.
    split; [exact Hc | split; [exact Hk | split; [apply same_inputs_refl |]]].
    split; [reflexivity | auto].
  - destruct Hrel as (bs' & d1 & Hins & Hd').
    apply inserted_one in Hins. destruct Hins as (id & tbl & Hkey & Hi & Hbs & Hd1).
    rewrite Hbs, Hd1 in Hd'. unfold with_ID in Hi, Hd'. simpl in Hkey, Hi, Hd'.
    exact (row_writes_conserved typ row d o id tbl Hk Hc Hun Ho Hoid Hkey Hi d' Hd').
Qed.

End RowConservation.

(** * Conservation: the output pass *)

Lemma claim_unflagged typ d row :
  In row (select_claim typ d) -> unflagged typ row d.
Proof.
  destruct typ; simpl; intros H.
  - apply In_select_claim_in in H.
    destruct H as (s & o & r & Hs & _ & _ & Hid & Had & Hflag & _).
    exists s. auto.
  - apply In_select_claim_out in H.
    destruct H as (s & o & Hs & _ & Hid & Had & Hflag & _).
    exists s. auto.
Qed.

Lemma claim_out_NoDup d : keys_ok d -> NoDup (map row_key (select_claim_out d)).
Proof.
  intros Hk. unfold select_claim_out. rewrite <- firstn_map. apply NoDup_firstn.
  rewrite map_map. apply NoDup_map_on.
  - apply NoDup_filter. apply NoDup_join.
    + eapply NoDup_map_inv. apply (ko_staging d Hk).
    + eapply NoDup_map_inv. apply (ko_outputs d Hk).
  - intros [s o] [s' o'] Hx Hy E. unfold row_key in E. simpl in E.
    apply filter_In in Hx, Hy. destruct Hx as [Hx _], Hy as [Hy _].
    apply In_join in Hx, Hy. destruct Hx as (Hs & Ho & Hon), Hy as (Hs' & Ho' & Hon').
    apply String.eqb_eq in Hon, Hon'.
    assert (s = s')
      by (apply (NoDup_map_eq (fun s => (oaa_id s, oaa_address s)) _ _ _ (ko_staging d Hk));
          auto).
    assert (o = o') by (apply (NoDup_map_eq out_id _ _ _ (ko_outputs d Hk)); congruence).
    congruence.
Qed.

Lemma claim_in_NoDup d : keys_ok d -> NoDup (map row_key (select_claim_in d)).
Proof.
  intros Hk. unfold select_claim_in. rewrite <- firstn_map. apply NoDup_firstn.
  rewrite map_map. apply NoDup_map_on.
  - apply NoDup_filter. apply NoDup_join; [apply NoDup_join |].
    + eapply NoDup_map_inv. apply (ko_staging d Hk).
    + eapply NoDup_map_inv. apply (ko_outputs d Hk).
    + eapply NoDup_map_inv. apply (ko_redeeming d Hk).
  - intros [[s o] r] [[s' o'] r'] Hx Hy E. unfold row_key in E. simpl in E.
    apply filter_In in Hx, Hy. destruct Hx as [Hx _], Hy as [Hy _].
    apply In_join in Hx, Hy. destruct Hx as (Hx & Hr & Honr), Hy as (Hy & Hr' & Honr').
    apply In_join in Hx, Hy. destruct Hx as (Hs & Ho & Hon), Hy as (Hs' & Ho' & Hon').
    simpl in Honr, Honr'. apply String.eqb_eq in Hon, Hon', Honr, Honr'.
    assert (s = s')
      by (apply (NoDup_map_eq (fun s => (oaa_id s, oaa_address s)) _ _ _ (ko_staging d Hk));
          auto).
    assert (o = o') by (apply (NoDup_map_eq out_id _ _ _ (ko_outputs d Hk)); congruence).
    assert (r = r') by (apply (NoDup_map_eq red_id _ _ _ (ko_redeeming d Hk)); congruence).
    congruence.
Qed.

Section OutputPassConservation.

Variable ComputeID : string -> string -> string -> string + string.
Variable persist : Persist.
Hypothesis persist_ok : persist_contract persist.

Lemma iter_row_rel_conserved typ rows d d' :
  iter (row_rel ComputeID persist typ) rows d d' ->
  NoDup (map row_key rows) ->
  (forall row, In row rows -> unflagged typ row d) ->
  keys_ok d -> conserved ComputeID d ->
  conserved ComputeID d' /\ keys_ok d' /\ same_inputs d d' /\
  output_txs_accumulate d' = output_txs_accumulate d.
Proof.
  induction 1 as [d | row rows d d1 d2 Hrow _ IH]; intros Hnd Hun Hk Hc.
  - split; [exact Hc | split; [exact Hk | split; [apply same_inputs_refl | reflexivity]]].
  - simpl in Hnd. inversion Hnd as [| ? ? Hnotin Hnd']; subst.
    destruct (row_rel_conserved ComputeID persist persist_ok typ row d d1 Hk Hc
                (Hun row (or_introl eq_refl)) Hrow) as (Hc1 & Hk1 & Hi1 & Ht1 & Hun1).
    destruct IH as (Hc2 & Hk2 & Hi2 & Ht2); auto.
    + intros row' Hin. apply Hun1; [| apply Hun; right; exact Hin].
      intros E. apply Hnotin. change (row_key row' = row_key row) in E.
      rewrite <- E. apply in_map. exact Hin.
    + split; [exact Hc2 | split; [exact Hk2 | split]].
      * eapply same_inputs_trans; eauto.
      * congruence.
Qed.

End OutputPassConservation.

(** * Conservation: the transaction pass *)

Lemma length_filter_sum {A : Type} (p : A -> bool) l :
  Z.of_nat (List.length (filter p l)) = sumZ (map (fun x => if p x then 1%Z else 0%Z) l).
Proof.
  induction l as [| x l IH]; [reflexivity |].
  cbn [filter map]. rewrite sumZ_cons, <- IH.
  destruct (p x); cbn [List.length]; lia.
Qed.

(** The bumps of a transaction pass, seen at key [k] in column [f]. *)
Lemma fold_bump_column f delta bs tbl k :
  (forall r, f (bump_transaction_count r) = (f r + delta)%Z) ->
  (forall b, In b bs -> has_balance (AB_ID b) tbl = true) ->
  column f (fold_left (fun tbl b => update_transaction_count b tbl) bs tbl) k =
  (column f tbl k + sumZ (map (fun b => if (AB_ID b =? k)%string then delta else 0%Z) bs))%Z.
Proof.
  intros Hf. revert tbl. induction bs as [| b bs IH]; intros tbl Hhas; simpl.
  - lia.
  - rewrite IH.
    + unfold update_transaction_count at 1.
      rewrite (column_update f bump_transaction_count (AB_ID b) tbl k delta);
        [lia | reflexivity | exact Hf | apply Hhas; left; reflexivity].
    + intros b' Hb'. unfold update_transaction_count.
      rewrite has_balance_update by reflexivity. apply Hhas. right. exact Hb'.
Qed.

Section TxsConservation.

Variable ComputeID : string -> string -> string -> string + string.
Variable persist : Persist.
Hypothesis persist_ok : persist_contract persist.

Lemma inserted_facts bs bs' d d1 :
  inserted ComputeID persist bs bs' d d1 ->
  (forall f k, (forall id, f (zero_balance id) = 0%Z) ->
               column f (accumulate_balances d1) k = column f (accumulate_balances d) k) /\
  (forall id, has_balance id (accumulate_balances d) = true ->
              has_balance id (accumulate_balances d1) = true) /\
  (forall b', In b' bs' -> has_balance (AB_ID b') (accumulate_balances d1) = true) /\
  Forall2 (fun b b' => ComputeID (AB_ChainID b) (AB_AssetID b) (AB_Address b)
                       = inr (AB_ID b')) bs bs'.
Proof.
  induction 1 as [d | b id tbl bs bs' d d1 Hkey Hi _ IH].
  - split; [auto | split; [auto | split; [intros b' [] | constructor]]].
  - destruct IH as (Hcol & Hmono & Hhas & Hall).
    destruct (insert_has persist persist_ok _ _ _ Hi) as (Hh1 & Hm1 & Hc1).
    simpl in Hcol, Hmono, Hhas. split; [| split; [| split]].
    + intros f k Hz. rewrite Hcol by exact Hz. apply Hc1. exact Hz.
    + intros id' Hid'. apply Hmono. apply Hm1. exact Hid'.
    + intros b' [<- | Hb']; [apply Hmono; exact Hh1 | apply Hhas; exact Hb'].
    + constructor; [exact Hkey | exact Hall].
Qed.

Lemma mark_sum k row tbl :
  NoDup (map ota_id tbl) -> pending row tbl ->
  sumZ (map (counts_at ComputeID k) (update_output_txs_accumulate row tbl)) =
  (sumZ (map (counts_at ComputeID k) tbl)
   + if key_is ComputeID (OTA_ChainID row) (OTA_AssetID row) (OTA_Address row) k
     then 1 else 0)%Z.
Proof.
  intros Hnd (t0 & Hin & Hid & Hp & Hc & Ha & Had).
  unfold update_output_txs_accumulate.
  rewrite (sum_update_one (counts_at ComputeID k) _ mark_processed tbl t0).
  - unfold counts_at. simpl. rewrite Hp, Hc, Ha, Had. simpl.
    destruct (key_is ComputeID _ _ _ k); lia.
  - eapply NoDup_map_inv. exact Hnd.
  - intros x y Hx Hy Hmx Hmy. apply String.eqb_eq in Hmx, Hmy.
    apply (NoDup_map_eq ota_id tbl x y Hnd Hx Hy). congruence.
  - exact Hin.
  - apply String.eqb_eq. exact Hid.
Qed.

Lemma pending_update row row' tbl :
  OTA_ID row' <> OTA_ID row -> pending row' tbl ->
  pending row' (update_output_txs_accumulate row tbl).
Proof.
  intros Hne (t & Hin & Hid & Hrest). exists t. split; [| auto].
  unfold update_output_txs_accumulate. apply in_map_iff. exists t. split; [| exact Hin].
  destruct (String.eqb_spec (ota_id t) (OTA_ID row)) as [E | _]; [| reflexivity].
  exfalso. apply Hne. congruence.
Qed.

Lemma update_txs_ids row tbl :
  map ota_id (update_output_txs_accumulate row tbl) = map ota_id tbl.
Proof.
  unfold update_output_txs_accumulate. apply NoDup_map_update. reflexivity.
Qed.

Lemma fold_mark_sum k rows tbl :
  NoDup (map OTA_ID rows) -> NoDup (map ota_id tbl) ->
  (forall row, In row rows -> pending row tbl) ->
  let tbl' := fold_left (fun tbl row => update_output_txs_accumulate row tbl) rows tbl in
  sumZ (map (counts_at ComputeID k) tbl') =
  (sumZ (map (counts_at ComputeID k) tbl)
   + sumZ (map (fun row =>
                  if key_is ComputeID (OTA_ChainID row) (OTA_AssetID row) (OTA_Address row) k
                  then 1 else 0) rows))%Z /\
  map ota_id tbl' = map ota_id tbl.
Proof.
  revert tbl. induction rows as [| row rows IH]; intros tbl Hndr Hnd Hpend; simpl.
  - split; [lia | reflexivity].
  - simpl in Hndr. inversion Hndr as [| ? ? Hnotin Hndr']; subst.
    destruct (IH (update_output_txs_accumulate row tbl)) as [Hs Hids]; auto.
    + rewrite update_txs_ids. exact Hnd.
    + intros row' Hin. apply pending_update; [| apply Hpend; right; exact Hin].
      intros E. apply Hnotin. rewrite <- E. apply in_map. exact Hin.
    + split.
      * rewrite Hs, (mark_sum k row tbl Hnd (Hpend row (or_introl eq_refl))). lia.
      * rewrite Hids. apply update_txs_ids.
Qed.

Lemma claim_txs_pending d row :
  In row (select_claim_txs d) -> pending row (output_txs_accumulate d).
Proof.
  intros H. apply In_select_claim_txs in H. destruct H as (t & Hin & Hp & ->).
  exists t. simpl. auto 10.
Qed.

Lemma claim_txs_NoDup d : keys_ok d -> NoDup (map OTA_ID (select_claim_txs d)).
Proof.
  intros Hk. unfold select_claim_txs. rewrite <- firstn_map. apply NoDup_firstn.
  rewrite map_map. simpl. apply NoDup_map_on.
  - apply NoDup_filter. eapply NoDup_map_inv. apply (ko_txs d Hk).
  - intros x y Hx Hy E. apply filter_In in Hx, Hy.
    apply (NoDup_map_eq ota_id _ x y (ko_txs d Hk)); tauto.
Qed.

Lemma keys_sum k rows bs' :
  Forall2 (fun b b' => ComputeID (AB_ChainID b) (AB_AssetID b) (AB_Address b)
                       = inr (AB_ID b')) (map balance_of_row rows) bs' ->
  sumZ (map (fun b => if (AB_ID b =? k)%string then 1%Z else 0%Z) bs') =
  sumZ (map (fun row =>
               if key_is ComputeID (OTA_ChainID row) (OTA_AssetID row) (OTA_Address row) k
               then 1%Z else 0%Z) rows).
Proof.
  revert bs'. induction rows as [| row rows IH]; intros bs' H; inversion H; subst.
  - reflexivity.
  - cbn [map]. rewrite !sumZ_cons, (IH _ ltac:(eassumption)). f_equal.
    unfold key_is. simpl in *.
    match goal with Hk : ComputeID _ _ _ = inr _ |- _ => rewrite Hk end. reflexivity.
Qed.

(** A transaction pass that did not fail keeps I4, given the keys. *)
Lemma txs_rel_conserved d d' :
  keys_ok d -> conserved ComputeID d ->
  txs_rel ComputeID persist (select_claim_txs d) d d' ->
  conserved ComputeID d' /\ keys_ok d'.
Proof.
  intros Hk Hc Hrel. unfold txs_rel in Hrel.
  destruct (select_claim_txs d) as [| row0 rows0] eqn:Erows; [subst d'; auto |].
  rewrite <- Erows in Hrel.
  destruct Hrel as (bs' & d1 & Hins & Hd').
  destruct (inserted_frame _ _ _ _ _ _ Hins) as ((Hi1 & Hi2 & Hi3) & Hst1 & Htx1).
  destruct (inserted_facts _ _ _ _ Hins) as (Hcol & _ & Hhas & Hall).
  rewrite fold_set_accumulate_balances, fold_set_output_txs_accumulate in Hd'.
  assert (Hst : output_addresses_accumulate d' = output_addresses_accumulate d)
    by (rewrite Hd'; simpl; exact Hst1).
  assert (Hout : avm_outputs d' = avm_outputs d) by (rewrite Hd'; simpl; exact Hi1).
  assert (Hab : accumulate_balances d' =
                fold_left (fun tbl b => update_transaction_count b tbl) bs'
                          (accumulate_balances d1)) by (rewrite Hd'; reflexivity).
  assert (Htx : output_txs_accumulate d' =
                fold_left (fun tbl row => update_output_txs_accumulate row tbl)
                          (select_claim_txs d) (output_txs_accumulate d))
    by (rewrite Hd'; simpl; rewrite Htx1; reflexivity).
  pose proof (fun k => fold_mark_sum k (select_claim_txs d) (output_txs_accumulate d)
                         (claim_txs_NoDup d Hk) (ko_txs d Hk)
                         (fun row => claim_txs_pending d row)) as Hmark.
  cbv zeta in Hmark. rewrite <- Htx in Hmark.
  split.
  - intros k. destruct (Hc k) as (H1 & H2 & H3 & H4). destruct (Hmark k) as [Hsum _].
    unfold conserved_at, balance_column.
    rewrite !(accumulated_ext ComputeID _ d d' k Hst Hout). rewrite Hab.
    rewrite (fold_bump_column ab_total_received 0 bs' _ k) by (auto; intros; simpl; lia).
    rewrite (fold_bump_column ab_total_sent 0 bs' _ k) by (auto; intros; simpl; lia).
    rewrite (fold_bump_column ab_utxo_count 0 bs' _ k) by (auto; intros; simpl; lia).
    rewrite (fold_bump_column ab_transaction_count 1 bs' _ k) by (auto; intros; simpl; lia).
    rewrite !Hcol by reflexivity.
    assert (Hzero : sumZ (map (fun b => if (AB_ID b =? k)%string then 0%Z else 0%Z) bs') = 0%Z).
    { clear. induction bs' as [| b bs IH]; [reflexivity |].
      cbn [map]. rewrite sumZ_cons, IH. destruct (AB_ID b =? k)%string; reflexivity. }
    rewrite Hzero.
    unfold balance_column in H1, H2, H3, H4.
    split; [lia | split; [lia | split; [lia |]]].
    unfold accumulated_txs in *. rewrite length_filter_sum in *.
    fold (counts_at ComputeID k) in *. rewrite Hsum, (keys_sum k _ _ Hall). lia.
  - destruct Hk as [K1 K2 K3 K4 K5].
    split; try (rewrite Hd'; simpl; congruence).
    destruct (Hmark "") as [_ Hids]. rewrite Hids. exact K5.
Qed.

End TxsConservation.

(** * Invariants of the accumulation loop *)

Section LoopInvariant.

Variable ComputeID : string -> string -> string -> string + string.
Variable persist : Persist.

Variable Inv : World -> Prop.
Hypothesis Inv_pass : forall p w, Inv w -> Inv (snd (run_pass ComputeID persist p w)).

Lemma pass_loop_inv fuel p icnt w :
  Inv w -> Inv (snd (pass_loop ComputeID persist fuel p icnt w)).
Proof.
  revert icnt w. induction fuel as [| fuel IH]; intros icnt w Hs; simpl; [exact Hs |].
  pose proof (Inv_pass p w Hs) as H1.
  destruct (run_pass ComputeID persist p w) as [[cnt [e |]] w1]; simpl in *; [exact H1 |].
  destruct (cnt <? RowLintValue)%nat; [exact H1 | apply IH; exact H1].
Qed.

Lemma sweep_inv fuel icnt w :
  Inv w -> Inv (snd (sweep ComputeID persist fuel icnt w)).
Proof.
  intros Hs. unfold sweep.
  pose proof (pass_loop_inv fuel PassOut icnt w Hs) as H1.
  destruct (pass_loop ComputeID persist fuel PassOut icnt w) as [[[e | icnt1] |] w1];
    simpl in *; try exact H1.
  pose proof (pass_loop_inv fuel PassIn icnt1 w1 H1) as H2.
  destruct (pass_loop ComputeID persist fuel PassIn icnt1 w1) as [[[e | icnt2] |] w2];
    simpl in *; try exact H2.
  apply pass_loop_inv. exact H2.
Qed.

Lemma Accumulate_loop_inv fuel icnt w :
  Inv w -> Inv (snd (Accumulate_loop ComputeID persist fuel icnt w)).
Proof.
  revert icnt w. induction fuel as [| fuel IH]; intros icnt w Hs; simpl.
  - destruct (icnt <? 10)%nat; exact Hs.
  - destruct (icnt <? 10)%nat; [| exact Hs].
    pose proof (sweep_inv (S fuel) icnt w Hs) as H1.
    destruct (sweep ComputeID persist (S fuel) icnt w) as [[[e | icnt'] |] w'];
      simpl in *; try exact H1.
    apply IH. exact H1.
Qed.

End LoopInvariant.

(** * Conservation: the accumulation loop *)

Section LoopConservation.

Variable ComputeID : string -> string -> string -> string + string.
Variable persist : Persist.
Hypothesis persist_ok : persist_contract persist.

Lemma run_pass_sound p w :
  sound ComputeID (db w) -> sound ComputeID (db (snd (run_pass ComputeID persist p w))).
Proof.
  intros [Hk Hc].
  destruct (run_pass ComputeID persist p w) as [[cnt [e |]] w'] eqn:Hrun; simpl.
  - destruct (run_pass_result ComputeID persist p w cnt (Some e) w' Hrun) as [_ _ _ Hundone].
    rewrite Hundone by (left; discriminate). split; assumption.
  - apply run_pass_ok in Hrun. destruct p; simpl in Hrun.
    + destruct (iter_row_rel_conserved ComputeID persist persist_ok processTypeOut
                  _ _ _ Hrun (claim_out_NoDup _ Hk)
                  (fun row => claim_unflagged processTypeOut (db w) row) Hk Hc)
        as (H1 & H2 & _).
      split; assumption.
    + destruct (iter_row_rel_conserved ComputeID persist persist_ok processTypeIn
                  _ _ _ Hrun (claim_in_NoDup _ Hk)
                  (fun row => claim_unflagged processTypeIn (db w) row) Hk Hc)
        as (H1 & H2 & _).
      split; assumption.
    + destruct (txs_rel_conserved ComputeID persist persist_ok _ _ Hk Hc Hrun).
      split; assumption.
Qed.

(** An untouched database satisfies I4. *)
Lemma fresh_conserved d : fresh d -> conserved ComputeID d.
Proof.
  intros (Hab & Hst & Htx) k.
  assert (Hacc : forall flag,
             (flag = oaa_processed_out \/ flag = oaa_processed_in) ->
             accumulated ComputeID flag d k = []).
  { intros flag Hflag. unfold accumulated. apply filter_all_false.
    intros [s o] Hin. apply In_join in Hin. destruct Hin as (Hs & _ & _).
    destruct (Hst s Hs) as [H1 H2]. simpl.
    destruct Hflag as [-> | ->]; [rewrite H1 | rewrite H2]; reflexivity. }
  assert (Htxs : accumulated_txs ComputeID d k = []).
  { unfold accumulated_txs. apply filter_all_false. intros t Ht.
    rewrite (Htx t Ht). reflexivity. }
  unfold conserved_at, balance_column, column.
  rewrite Hab, !Hacc, Htxs by auto. simpl. auto.
Qed.

(** C1: I4 holds whenever the accumulation loop stops, for every balance
    key: when it returns at quiescence, when it returns an error, and at
    every point between two passes (where the fuel may cut the run).  It
    is an invariant of the passes: it holds after the loop if it held
    before, as it does on an untouched database ([fresh_conserved]), given
    the keys of the tables.  [total_received] is the sum of the amounts of
    the outputs whose [processed_out] is 1, [total_sent] that of those
    whose [processed_in] is 1, [utxo_count] the difference of their
    counts, and [transaction_count] the count of [output_txs_accumulate]
    rows with [processed] 1, all taken at the balance key. *)
Theorem accumulate_conserves (fuel : nat) (w : World) :
  keys_ok (db w) -> conserved ComputeID (db w) ->
  keys_ok (db (snd (Accumulate ComputeID persist fuel w))) /\
  forall k,
    let d' := db (snd (Accumulate ComputeID persist fuel w)) in
    balance_column ab_total_received d' k =
      sum_amounts (accumulated ComputeID oaa_processed_out d' k) /\
    balance_column ab_total_sent d' k =
      sum_amounts (accumulated ComputeID oaa_processed_in d' k) /\
    balance_column ab_utxo_count d' k =
      (Z.of_nat (List.length (accumulated ComputeID oaa_processed_out d' k))
       - Z.of_nat (List.length (accumulated ComputeID oaa_processed_in d' k)))%Z /\
    balance_column ab_transaction_count d' k =
      Z.of_nat (List.length (accumulated_txs ComputeID d' k)).
Proof.
  intros Hk Hc. unfold Accumulate.
  apply (Accumulate_loop_inv ComputeID persist (fun w => sound ComputeID (db w)) run_pass_sound fuel 0
           (mk_World (db w) (tx w) (faults w) (events w ++ [EvNewJob "accumulate"]))).
  split; assumption.
Qed.

End LoopConservation.

(** * The transaction pass when nothing fails *)

Lemma wp_db_call_calm (Q : string + unit -> World -> Prop) w :
  faults w = [] -> Q (inr tt) w -> wp db_call Q w.
Proof. intros Hf HQ. unfold wp. rewrite (db_call_no_fault w Hf). exact HQ. Qed.

Lemma wp_query_calm {A : Type} (q : DB -> A) (Q : string + A -> World -> Prop) w :
  faults w = [] -> Q (inr (q (db w))) w -> wp (query q) Q w.
Proof.
  intros Hf HQ. unfold query. apply wp_bind. apply wp_db_call_calm; [exact Hf | exact HQ].
Qed.

Lemma wp_exec_calm (f : DB -> DB) (Q : string + unit -> World -> Prop) w :
  faults w = [] ->
  Q (inr tt) (mk_World (f (db w)) (tx w) (faults w) (events w)) ->
  wp (exec f) Q w.
Proof.
  intros Hf HQ. unfold exec. apply wp_bind. apply wp_db_call_calm; [exact Hf | exact HQ].
Qed.

Lemma for_each_exec_calm {A : Type} (g : A -> DB -> DB) l w :
  faults w = [] -> wp (for_each l (fun x => exec (g x))) calm_ok w.
Proof.
  intros Hf.
  apply (wp_for_each _ (fun _ w' => faults w' = [])); [| | exact Hf].
  - intros x rest w0 H0. apply wp_exec_calm; [exact H0 | exact H0].
  - intros w0 H0. split; [exact H0 | eauto].
Qed.

Section TxsCalm.

Variable ComputeID : string -> string -> string -> string + string.
Variable persist : Persist.
Hypothesis persist_ok : persist_contract persist.

Lemma inserts_calm {A : Type} (f : A -> AccumulateBalances) l w :
  faults w = [] ->
  (forall x, In x l ->
     exists id, ComputeID (AB_ChainID (f x)) (AB_AssetID (f x)) (AB_Address (f x)) = inr id) ->
  wp (for_each_collect l (fun x => compute_and_insert ComputeID persist (f x))) calm_ok w.
Proof.
  intros Hf Hkeys.
  eapply wp_weaken.
  - apply (wp_for_each_collect _
             (fun rest _ w' => faults w' = [] /\
                               forall x, In x rest ->
                                 exists id, ComputeID (AB_ChainID (f x)) (AB_AssetID (f x))
                                              (AB_Address (f x)) = inr id)
             (fun _ _ => False)) with (done := []); [| split; [exact Hf | exact Hkeys]].
    intros x rest done w0 [H0 Hk0].
    destruct (Hk0 x (or_introl eq_refl)) as [id Hid].
    unfold compute_and_insert, AB_ComputeID. rewrite Hid.
    apply wp_bind. apply wp_ret. apply wp_bind.
    unfold persist_InsertAccumulateBalances. apply wp_bind.
    apply wp_db_call_calm; [exact H0 |].
    unfold wp. rewrite persist_ok. simpl. split; [exact H0 |].
    intros y Hy. apply Hk0. right. exact Hy.
  - intros [e | ys] w' H; [destruct H |]. destruct H as [H _]. split; [exact H | eauto].
Qed.

Lemma processTransactions_tx_calm w :
  faults w = [] ->
  (forall row, In row (select_claim_txs (db w)) ->
     exists id, ComputeID (OTA_ChainID row) (OTA_AssetID row) (OTA_Address row) = inr id) ->
  wp (processTransactions_tx ComputeID persist) calm_ok w.
Proof.
  intros Hf Hkeys. unfold processTransactions_tx.
  apply wp_bind. apply wp_query_calm; [exact Hf |].
  apply wp_bind. apply wp_emit.
  destruct (select_claim_txs (db w)) as [| row0 rows] eqn:Erows.
  - apply wp_ret. split; [exact Hf | eauto].
  - apply wp_bind. eapply wp_weaken; [apply (inserts_calm balance_of_row) |].
    + exact Hf.
    + intros x Hx. apply Hkeys. exact Hx.
    + intros r1 w1 [Hf1 [bs' ->]].
      apply wp_bind. unfold select_locked. apply wp_query_calm; [exact Hf1 |].
      apply wp_bind. eapply wp_weaken; [apply for_each_exec_calm; exact Hf1 |].
      intros r2 w2 [Hf2 [u2 ->]].
      apply wp_bind. eapply wp_weaken; [apply for_each_exec_calm; exact Hf2 |].
      intros r3 w3 [Hf3 [u3 ->]].
      apply wp_bind. unfold dbTx_Commit. apply wp_bind.
      apply wp_db_call_calm; [exact Hf3 |].
      unfold wp. simpl. split; [exact Hf3 | eauto].
Qed.

(** With no fault scheduled and every key computable, the transaction
    pass returns no error. *)
Lemma processTransactions_calm w :
  faults w = [] ->
  (forall row, In row (select_claim_txs (db w)) ->
     exists id, ComputeID (OTA_ChainID row) (OTA_AssetID row) (OTA_Address row) = inr id) ->
  exists cnt w', processTransactions ComputeID persist w = ((cnt, None), w').
Proof.
  intros Hf Hkeys. unfold processTransactions, sess_Begin, bind.
  rewrite (db_call_no_fault w Hf).
  set (w0 := mk_World (db w) (Some (db w)) (faults w) (events w ++ [EvBegin])).
  pose proof (processTransactions_tx_calm w0 Hf Hkeys) as H. unfold wp in H.
  destruct (processTransactions_tx ComputeID persist w0) as [r w1].
  simpl in H. destruct H as [_ [n ->]]. eauto.
Qed.

Lemma fold_mark_processed rows tbl t :
  In t (fold_left (fun tbl row => update_output_txs_accumulate row tbl) rows tbl) ->
  (In (ota_id t) (map OTA_ID rows) -> ota_processed t = 1%Z) /\
  (~ In (ota_id t) (map OTA_ID rows) -> In t tbl).
Proof.
  revert tbl. induction rows as [| row rows IH]; intros tbl Hin; simpl in *.
  - tauto.
  - apply IH in Hin. destruct Hin as [H1 H2].
    destruct (in_dec string_dec (ota_id t) (map OTA_ID rows)) as [Hd | Hd].
    + split; [intros _; apply H1; exact Hd | tauto].
    + specialize (H2 Hd). unfold update_output_txs_accumulate in H2.
      apply in_map_iff in H2. destruct H2 as (t0 & Ht0 & Hin0).
      destruct (String.eqb_spec (ota_id t0) (OTA_ID row)) as [E | E]; subst t.
      * split; [reflexivity | simpl; intros Hn; exfalso; apply Hn; left; symmetry; exact E].
      * split; [intros [E' | E']; [congruence | contradiction] | intros _; exact Hin0].
Qed.

Lemma NoDup_ids_insert b tbl tbl' :
  NoDup (map ab_id tbl) ->
  InsertAccumulateBalances persist b tbl = inr tbl' -> NoDup (map ab_id tbl').
Proof.
  intros Hnd. rewrite persist_ok. intros H. inversion H as [E]. clear H.
  destruct (has_balance (AB_ID b) tbl) eqn:Eh; [exact Hnd |].
  rewrite map_app. simpl. apply NoDup_app; [exact Hnd | repeat constructor; auto |].
  intros id Hin [<- | []]. apply in_map_iff in Hin. destruct Hin as (r & Hr & Hin).
  unfold has_balance in Eh.
  assert (Hex : existsb (fun r => (ab_id r =? AB_ID b)%string) tbl = true).
  { apply existsb_exists. exists r. split; [exact Hin | apply String.eqb_eq; exact Hr]. }
  congruence.
Qed.

Lemma inserted_NoDup bs bs' d d1 :
  inserted ComputeID persist bs bs' d d1 ->
  NoDup (map ab_id (accumulate_balances d)) -> NoDup (map ab_id (accumulate_balances d1)).
Proof.
  induction 1 as [d | b id tbl bs bs' d d1 _ Hi _ IH]; intros Hnd; [exact Hnd |].
  apply IH. simpl. eapply NoDup_ids_insert; eauto.
Qed.

Lemma fold_bump_ids bs tbl :
  map ab_id (fold_left (fun tbl b => update_transaction_count b tbl) bs tbl) = map ab_id tbl.
Proof.
  revert tbl. induction bs as [| b bs IH]; intros tbl; simpl; [reflexivity |].
  rewrite IH. unfold update_transaction_count. apply NoDup_map_update. reflexivity.
Qed.

(** C7: the transaction pass bumps [transaction_count] once per claimed
    staging row.  With no fault scheduled and every key computable, the
    pass over the claimed rows returns their number and no error; at every
    balance key [transaction_count] has grown by the number of claimed
    rows with that key (so by 3 when three claimed rows share it), each
    such key has its aggregate row, only one when the ids of the aggregate
    rows were distinct before, and every claimed staging row is at
    [processed = 1]. *)
Theorem transaction_count_once_per_row (w : World) :
  faults w = [] ->
  (forall row, In row (select_claim_txs (db w)) ->
     exists id, ComputeID (OTA_ChainID row) (OTA_AssetID row) (OTA_Address row) = inr id) ->
  let rows := select_claim_txs (db w) in
  let r := processTransactions ComputeID persist w in
  fst r = (List.length rows, None) /\
  (forall k,
      balance_column ab_transaction_count (db (snd r)) k =
      (balance_column ab_transaction_count (db w) k
       + Z.of_nat (List.length
           (filter (fun row => key_is ComputeID (OTA_ChainID row) (OTA_AssetID row)
                                      (OTA_Address row) k) rows)))%Z) /\
  (forall row k, In row rows ->
      ComputeID (OTA_ChainID row) (OTA_AssetID row) (OTA_Address row) = inr k ->
      has_balance k (accumulate_balances (db (snd r))) = true) /\
  (NoDup (map ab_id (accumulate_balances (db w))) ->
   NoDup (map ab_id (accumulate_balances (db (snd r))))) /\
  (forall row t, In row rows -> In t (output_txs_accumulate (db (snd r))) ->
      ota_id t = OTA_ID row -> ota_processed t = 1%Z).
Proof.
  intros Hf Hkeys rows r.
  destruct (processTransactions_calm w Hf Hkeys) as (cnt & w' & Hrun).
  subst r. rewrite Hrun. simpl fst. simpl snd.
  change (processTransactions ComputeID persist) with (run_pass ComputeID persist PassTxs)
    in Hrun.
  destruct (run_pass_result ComputeID persist PassTxs w cnt None w' Hrun) as [_ Hcnt _ Hundone].
  pose proof (run_pass_ok ComputeID persist PassTxs w cnt w' Hrun) as Hrel.
  simpl in Hrel, Hcnt. fold rows in Hrel, Hcnt. unfold txs_rel in Hrel.
  split; [rewrite Hcnt; reflexivity |].
  destruct rows as [| row0 rows0] eqn:Erows.
  - rewrite Hrel. repeat split; auto; try (intros; simpl; lia); intros ? ? [].
  - rewrite <- Erows in *. clear Erows row0 rows0.
    destruct Hrel as (bs' & d1 & Hins & Hd').
    destruct (inserted_frame _ _ _ _ _ _ Hins) as (_ & _ & Htx1).
    destruct (inserted_facts ComputeID persist persist_ok _ _ _ _ Hins)
      as (Hcol & Hmono & Hhas & Hall).
    rewrite fold_set_accumulate_balances, fold_set_output_txs_accumulate in Hd'.
    assert (Hab : accumulate_balances (db w') =
                  fold_left (fun tbl b => update_transaction_count b tbl) bs'
                            (accumulate_balances d1)) by (rewrite Hd'; reflexivity).
    assert (Htx : output_txs_accumulate (db w') =
                  fold_left (fun tbl row => update_output_txs_accumulate row tbl)
                            rows (output_txs_accumulate (db w)))
      by (rewrite Hd'; simpl; rewrite Htx1; reflexivity).
    split; [| split; [| split]].
    + intros k. unfold balance_column. rewrite Hab.
      rewrite (fold_bump_column ab_transaction_count 1 bs' _ k)
        by (auto; intros; simpl; lia).
      rewrite Hcol by reflexivity.
      rewrite (keys_sum ComputeID k rows bs' Hall), length_filter_sum. reflexivity.
    + intros row k Hrow Hk.
      assert (Hin : exists b', In b' bs' /\ AB_ID b' = k).
      { clear - Hall Hrow Hk. revert bs' Hall.
        induction rows as [| row1 rows1 IH]; intros bs' Hall; [destruct Hrow |].
        inversion Hall as [| b b' l l' Hb Hrest]; subst.
        destruct Hrow as [-> | Hrow].
        - exists b'. split; [left; reflexivity |]. simpl in Hb. congruence.
        - destruct (IH Hrow _ Hrest) as (b0 & Hb0 & Hid). exists b0. split; [right |]; auto. }
      destruct Hin as (b' & Hb' & <-). rewrite Hab.
      assert (Hids : forall id tbl,
                 has_balance id (fold_left (fun tbl b => update_transaction_count b tbl) bs' tbl)
                 = has_balance id tbl).
      { intros id. clear. induction bs' as [| b bs IH]; intros tbl; simpl; [reflexivity |].
        rewrite IH. unfold update_transaction_count. apply has_balance_update. reflexivity. }
      rewrite Hids. apply Hhas. exact Hb'.
    + intros Hnd. rewrite Hab, fold_bump_ids. eapply inserted_NoDup; eauto.
    + intros row t Hrow Ht Hid. rewrite Htx in Ht.
      apply fold_mark_processed in Ht. apply (proj1 Ht).
      rewrite Hid. apply in_map. exact Hrow.
Qed.

End TxsCalm.

(** * The rounds of the accumulation loop *)

Lemma claims_of_app evs evs' : claims_of (evs ++ evs') = claims_of evs ++ claims_of evs'.
Proof.
  induction evs as [| ev evs IH]; simpl; [reflexivity |].
  destruct ev; simpl; rewrite IH; reflexivity.
Qed.

Lemma claims_of_infos infos :
  Forall (fun ev => is_info ev = true) infos -> claims_of infos = [].
Proof.
  induction 1 as [| ev infos Hev _ IH]; simpl; [reflexivity |].
  destruct ev; try discriminate. exact IH.
Qed.

Lemma pass_trace_claims p len evs :
  pass_trace p len None evs -> claims_of evs = [(p, len)].
Proof.
  intros H. inversion H as [| | | Hz | infos Hnz Hinfos]; subst; simpl.
  - reflexivity.
  - rewrite claims_of_app, (claims_of_infos _ Hinfos). reflexivity.
Qed.

Lemma batch_run_last cnt : cnt < RowLintValue -> batch_run [cnt].
Proof. intros H. exists [], cnt. repeat split; [constructor | exact H]. Qed.

Lemma batch_run_cons cnt cnts :
  RowLintValue <= cnt -> batch_run cnts -> batch_run (cnt :: cnts).
Proof.
  intros H (full & last & -> & Hfull & Hlast).
  exists (cnt :: full), last. repeat split; [constructor; assumption | exact Hlast].
Qed.

Section Rounds.

Variable ComputeID : string -> string -> string -> string + string.
Variable persist : Persist.

Lemma run_pass_claims p w cnt w' :
  run_pass ComputeID persist p w = ((cnt, None), w') ->
  (exists evs, events w' = events w ++ evs /\ claims_of evs = [(p, cnt)]) /\
  cnt = claim_len p (db w) /\ (cnt = 0 -> db w' = db w).
Proof.
  intros Hrun.
  destruct (run_pass_result ComputeID persist p w cnt None w' Hrun)
    as [(evs & Hev & Htr) Hcnt _ Hundone].
  split; [| split].
  - exists evs. split; [exact Hev |]. rewrite Hcnt. apply pass_trace_claims. exact Htr.
  - exact Hcnt.
  - intros Hz. apply Hundone. right. congruence.
Qed.

(** One inner loop that broke: its batches, and what it did to the
    counter. *)
Lemma pass_loop_trace fuel p icnt w icnt' w' :
  pass_loop ComputeID persist fuel p icnt w = (Returned (inr icnt'), w') ->
  exists evs cnts,
    events w' = events w ++ evs /\ claims_of evs = map (pair p) cnts /\ batch_run cnts /\
    ((cnts = [0] /\ icnt' = icnt /\ db w' = db w /\ claim_len p (db w) = 0) \/
     (cnts <> [0] /\ icnt' = 0)).
Proof.
  revert icnt w. induction fuel as [| fuel IH]; intros icnt w Hrun; simpl in Hrun;
    [discriminate |].
  destruct (run_pass ComputeID persist p w) as [[cnt [e |]] w1] eqn:Hpass; [discriminate |].
  destruct (run_pass_claims p w cnt w1 Hpass) as ((evs & Hev & Hcl) & Hcnt & Hdb).
  destruct (cnt <? RowLintValue)%nat eqn:Elt.
  - inversion Hrun; subst icnt' w'. clear Hrun. apply Nat.ltb_lt in Elt.
    exists evs, [cnt]. split; [exact Hev | split; [exact Hcl | split]].
    + apply batch_run_last. exact Elt.
    + destruct cnt as [| n]; simpl.
      * left. repeat split; auto.
      * right. split; [discriminate | reflexivity].
  - apply Nat.ltb_ge in Elt.
    assert (Hpos : (0 <? cnt)%nat = true) by (apply Nat.ltb_lt; unfold RowLintValue in Elt; lia).
    rewrite Hpos in Hrun. apply IH in Hrun.
    destruct Hrun as (evs' & cnts' & Hev' & Hcl' & Hbr & Hicnt).
    exists (evs ++ evs'), (cnt :: cnts').
    split; [rewrite Hev', Hev, app_assoc; reflexivity |].
    split; [rewrite claims_of_app, Hcl, Hcl'; reflexivity |].
    split; [apply batch_run_cons; assumption |].
    right. split.
    + intros E. inversion E; subst. unfold RowLintValue in Elt. lia.
    + destruct Hicnt as [(_ & H & _) | (_ & H)]; exact H.
Qed.

(** One round of the outer loop that ran to its end. *)
Lemma sweep_trace fuel icnt w icnt' w' :
  sweep ComputeID persist fuel icnt w = (Returned (inr icnt'), w') ->
  exists evs s,
    events w' = events w ++ evs /\ claims_of evs = sweep_claims s /\ sweep_ok s /\
    ((idle s /\ icnt' = icnt /\ db w' = db w /\ quiescent (db w)) \/
     (~ idle s /\ icnt' = 0)).
Proof.
  unfold sweep. intros Hrun.
  destruct (pass_loop ComputeID persist fuel PassOut icnt w) as [[[e | icnt1] |] w1] eqn:E1;
    try discriminate.
  destruct (pass_loop ComputeID persist fuel PassIn icnt1 w1) as [[[e | icnt2] |] w2] eqn:E2;
    try discriminate.
  apply pass_loop_trace in E1, E2, Hrun.
  destruct E1 as (ev1 & c1 & Hev1 & Hcl1 & Hb1 & H1).
  destruct E2 as (ev2 & c2 & Hev2 & Hcl2 & Hb2 & H2).
  destruct Hrun as (ev3 & c3 & Hev3 & Hcl3 & Hb3 & H3).
  exists (ev1 ++ ev2 ++ ev3), (mk_Sweep c1 c2 c3).
  split; [rewrite Hev3, Hev2, Hev1, <- !app_assoc; reflexivity |].
  split; [rewrite !claims_of_app, Hcl1, Hcl2, Hcl3; reflexivity |].
  split; [repeat split; assumption |].
  unfold idle. simpl.
  destruct H1 as [(-> & -> & Hd1 & Hq1) | (Hn1 & ->)];
    destruct H2 as [(-> & -> & Hd2 & Hq2) | (Hn2 & ->)];
    destruct H3 as [(-> & -> & Hd3 & Hq3) | (Hn3 & ->)];
    try (right; split; [intros (Ha & Hb & Hc); congruence | reflexivity]).
  left. split; [auto |]. split; [reflexivity |]. split; [congruence |].
  rewrite Hd2, Hd1 in Hq3. rewrite Hd1 in Hq2. simpl in Hq1, Hq2, Hq3.
  repeat split; apply length_zero_nil; assumption.
Qed.

Lemma ends_idle_cons_idle icnt s sweeps :
  (icnt < 10)%nat -> idle s -> ends_idle (icnt + 1) sweeps -> ends_idle icnt (s :: sweeps).
Proof.
  intros Hlt Hs (pre & tail & -> & Htail & Hend).
  destruct Hend as [(-> & Hlen) | (pre' & s0 & -> & Hs0 & Hlen)].
  - exists [], (s :: tail). split; [reflexivity |]. split; [constructor; assumption |].
    left. split; [reflexivity |]. cbn [List.length]. lia.
  - exists (s :: pre' ++ [s0]), tail. split; [reflexivity |]. split; [exact Htail |].
    right. exists (s :: pre'), s0. auto.
Qed.

Lemma ends_idle_cons_busy icnt s sweeps :
  ~ idle s -> ends_idle 1 sweeps -> ends_idle icnt (s :: sweeps).
Proof.
  intros Hs (pre & tail & -> & Htail & Hend).
  destruct Hend as [(-> & Hlen) | (pre' & s0 & -> & Hs0 & Hlen)].
  - exists [s], tail. split; [reflexivity |]. split; [exact Htail |].
    right. exists [], s. auto.
  - exists (s :: pre' ++ [s0]), tail. split; [reflexivity |]. split; [exact Htail |].
    right. exists (s :: pre'), s0. auto.
Qed.

(** The outer loop, when it returns nil. *)
Lemma Accumulate_loop_trace fuel icnt w w' :
  Accumulate_loop ComputeID persist fuel icnt w = (Returned None, w') ->
  exists evs sweeps,
    events w' = events w ++ evs /\
    claims_of evs = List.concat (map sweep_claims sweeps) /\
    Forall sweep_ok sweeps /\ ends_idle icnt sweeps /\
    ((10 <= icnt /\ w' = w) \/ quiescent (db w')).
Proof.
  revert icnt w. induction fuel as [| fuel IH]; intros icnt w Hrun.
  - simpl in Hrun. destruct (icnt <? 10)%nat eqn:Elt; [discriminate |].
    inversion Hrun; subst w'. apply Nat.ltb_ge in Elt.
    exists [], []. rewrite app_nil_r. repeat split; auto.
    exists [], []. repeat split; auto. left. split; [reflexivity | cbn [List.length]; lia].
  - cbn [Accumulate_loop] in Hrun. destruct (icnt <? 10)%nat eqn:Elt.
    + apply Nat.ltb_lt in Elt.
      destruct (sweep ComputeID persist (S fuel) icnt w) as [[[e | icnt1] |] w1] eqn:Es;
        try discriminate.
      apply sweep_trace in Es. destruct Es as (ev1 & s & Hev1 & Hcl1 & Hok1 & Hs).
      apply IH in Hrun. destruct Hrun as (ev2 & sweeps & Hev2 & Hcl2 & Hok2 & Hend & Hq).
      exists (ev1 ++ ev2), (s :: sweeps).
      split; [rewrite Hev2, Hev1, app_assoc; reflexivity |].
      split; [rewrite claims_of_app, Hcl1, Hcl2; reflexivity |].
      split; [constructor; assumption |].
      destruct Hs as [(Hidle & -> & Hdb & Hqw) | (Hbusy & ->)].
      * split; [apply ends_idle_cons_idle; assumption |].
        right. destruct Hq as [(_ & ->) | Hq]; [rewrite Hdb; exact Hqw | exact Hq].
      * split; [apply ends_idle_cons_busy; assumption |].
        right. destruct Hq as [(Hge & _) | Hq]; [simpl in Hge; lia | exact Hq].
    + inversion Hrun; subst w'. apply Nat.ltb_ge in Elt.
      exists [], []. rewrite app_nil_r. repeat split; auto.
      exists [], []. repeat split; auto. left. split; [reflexivity | cbn [List.length]; lia].
Qed.

(** ** Idle rounds *)

Lemma run_pass_idle p w :
  claim_len p (db w) = 0 -> faults w = [] ->
  run_pass ComputeID persist p w =
  ((0, None), mk_World (db w) None [] (events w ++ [EvBegin; EvClaim p 0; EvRollback])).
Proof.
  intros Hlen Hf.
  assert (Hnf : no_fault_in 2 (faults w)) by (rewrite Hf; intros e H; destruct H).
  destruct p; simpl in *; apply length_zero_nil in Hlen.
  - rewrite (processOutputs_idle ComputeID persist processTypeOut w Hlen Hnf), Hf. reflexivity.
  - rewrite (processOutputs_idle ComputeID persist processTypeIn w Hlen Hnf), Hf. reflexivity.
  - rewrite (processTransactions_idle ComputeID persist w Hlen Hnf), Hf. reflexivity.
Qed.

Lemma pass_loop_idle fuel p icnt w :
  claim_len p (db w) = 0 -> faults w = [] ->
  pass_loop ComputeID persist (S fuel) p icnt w =
  (Returned (inr icnt),
   mk_World (db w) None [] (events w ++ [EvBegin; EvClaim p 0; EvRollback])).
Proof.
  intros Hlen Hf. simpl. rewrite (run_pass_idle p w Hlen Hf). reflexivity.
Qed.

Lemma sweep_idle fuel icnt w :
  quiescent (db w) -> faults w = [] ->
  sweep ComputeID persist (S fuel) icnt w =
  (Returned (inr icnt), mk_World (db w) None [] (events w ++ idle_sweep_events)).
Proof.
  intros (Hq1 & Hq2 & Hq3) Hf. unfold sweep.
  rewrite pass_loop_idle by (simpl; try rewrite Hq1; auto).
  rewrite pass_loop_idle by (simpl; try rewrite Hq2; auto).
  rewrite pass_loop_idle by (simpl; try rewrite Hq3; auto).
  simpl. rewrite <- !app_assoc. reflexivity.
Qed.

Lemma Accumulate_loop_idle fuel icnt w :
  quiescent (db w) -> faults w = [] -> 10 - icnt <= fuel ->
  fst (Accumulate_loop ComputeID persist fuel icnt w) = Returned None /\
  db (snd (Accumulate_loop ComputeID persist fuel icnt w)) = db w /\
  events (snd (Accumulate_loop ComputeID persist fuel icnt w)) =
    events w ++ idle_sweeps_events (10 - icnt).
Proof.
  revert icnt w. induction fuel as [| fuel IH]; intros icnt w Hq Hf Hfuel.
  - cbn [Accumulate_loop].
    destruct (icnt <? 10)%nat eqn:Elt; [apply Nat.ltb_lt in Elt; lia |].
    apply Nat.ltb_ge in Elt. replace (10 - icnt) with 0 by lia.
    cbn [fst snd idle_sweeps_events]. rewrite app_nil_r. auto.
  - cbn [Accumulate_loop]. destruct (icnt <? 10)%nat eqn:Elt.
    + apply Nat.ltb_lt in Elt. rewrite (sweep_idle fuel icnt w Hq Hf).
      destruct (IH (icnt + 1)
                  (mk_World (db w) None [] (events w ++ idle_sweep_events))
                  Hq eq_refl ltac:(lia))
        as (H1 & H2 & H3).
      split; [exact H1 | split; [exact H2 |]].
      rewrite H3. simpl events. replace (10 - icnt) with (S (10 - (icnt + 1))) by lia.
      cbn [idle_sweeps_events]. rewrite <- app_assoc. reflexivity.
    + apply Nat.ltb_ge in Elt. replace (10 - icnt) with 0 by lia.
      cbn [fst snd idle_sweeps_events]. rewrite app_nil_r. auto.
Qed.

Lemma Accumulate_idle fuel w :
  quiescent (db w) -> faults w = [] -> 10 <= fuel ->
  fst (Accumulate ComputeID persist fuel w) = Returned None /\
  db (snd (Accumulate ComputeID persist fuel w)) = db w /\
  events (snd (Accumulate ComputeID persist fuel w)) =
    events w ++ EvNewJob "accumulate" :: idle_sweeps_events 10.
Proof.
  intros Hq Hf Hfuel. unfold Accumulate.
  destruct (Accumulate_loop_idle fuel 0
              (mk_World (db w) (tx w) (faults w) (events w ++ [EvNewJob "accumulate"]))
              Hq Hf ltac:(lia))
    as (H1 & H2 & H3).
  split; [exact H1 | split; [exact H2 |]].
  rewrite H3. simpl. rewrite <- app_assoc. reflexivity.
Qed.

(** C4 (as amended): every run of [Accumulate] that returns nil is a
    sequence of rounds, each the outputs-out batches, then the outputs-in
    batches, then the transaction batches, where a pass is repeated while
    its batch has [RowLintValue] = 100 rows and left at the first shorter
    batch; and the run ends only when the counter reaches 10: on 10 idle
    rounds when no round produced a row, or on 9 idle rounds after the
    last round that produced one (that round sets the counter to 0 and
    the loop's increment makes it 1).  The loop has no other exit: with
    nothing to claim and no fault, it still makes 10 rounds, 30 empty
    claims, before it returns nil. *)
Theorem accumulate_rounds :
  (forall fuel w w',
      Accumulate ComputeID persist fuel w = (Returned None, w') ->
      exists evs sweeps,
        events w' = events w ++ EvNewJob "accumulate" :: evs /\
        claims_of evs = List.concat (map sweep_claims sweeps) /\
        Forall sweep_ok sweeps /\ ends_idle 0 sweeps) /\
  (forall fuel w,
      quiescent (db w) -> faults w = [] -> 10 <= fuel ->
      fst (Accumulate ComputeID persist fuel w) = Returned None /\
      db (snd (Accumulate ComputeID persist fuel w)) = db w /\
      events (snd (Accumulate ComputeID persist fuel w)) =
        events w ++ EvNewJob "accumulate" :: idle_sweeps_events 10).
Proof.
  split.
  - intros fuel w w' Hrun. unfold Accumulate in Hrun.
    apply Accumulate_loop_trace in Hrun.
    destruct Hrun as (evs & sweeps & Hev & Hcl & Hok & Hend & _).
    exists evs, sweeps. simpl in Hev. rewrite <- app_assoc in Hev. auto.
  - exact Accumulate_idle.
Qed.

(** ** A second run *)

Lemma pass_trace_zero_claims p err evs :
  pass_trace p 0 err evs -> Forall (fun c => snd c = 0) (claims_of evs).
Proof.
  intros H. inversion H as [e | e | e infos Hinfos | Hz | infos Hnz Hinfos]; subst; simpl.
  - constructor.
  - constructor.
  - rewrite claims_of_app, (claims_of_infos _ Hinfos). repeat constructor.
  - repeat constructor.
  - contradiction.
Qed.

Lemma run_pass_still d0 ev0 p w :
  quiescent d0 -> still d0 ev0 w -> still d0 ev0 (snd (run_pass ComputeID persist p w)).
Proof.
  intros Hq [Hdb (evs & Hev & Hz)].
  assert (Hlen : claim_len p (db w) = 0).
  { rewrite Hdb. destruct Hq as (H1 & H2 & H3). destruct p; simpl;
      [rewrite H1 | rewrite H2 | rewrite H3]; reflexivity. }
  destruct (run_pass ComputeID persist p w) as [[cnt err] w'] eqn:Hrun.
  destruct (run_pass_result ComputeID persist p w cnt err w' Hrun)
    as [(evs' & Hev' & Htr) _ _ Hundone].
  simpl. split.
  - rewrite Hundone by (right; exact Hlen). exact Hdb.
  - exists (evs ++ evs'). split; [rewrite Hev', Hev, app_assoc; reflexivity |].
    rewrite claims_of_app. apply Forall_app. split; [exact Hz |].
    rewrite Hlen in Htr. eapply pass_trace_zero_claims; eauto.
Qed.

(** C5 (as amended): a run that returned nil leaves nothing to claim; a
    second run on the tables it left, all of them as they were (the
    staging tables and the tables the claims join them with), whatever
    the fuel and the faults, claims no row in
    any pass and leaves every table, and so every aggregate row, as it
    was; and with no fault it returns nil again.  A pass claims a staging
    row only while the flag of that pass is 0 on it. *)
Theorem second_run_changes_nothing (fuel1 : nat) (w w1 : World) :
  Accumulate ComputeID persist fuel1 w = (Returned None, w1) ->
  quiescent (db w1) /\
  (forall fuel2 w2,
      db w2 = db w1 ->
      db (snd (Accumulate ComputeID persist fuel2 w2)) = db w1 /\
      accumulate_balances (db (snd (Accumulate ComputeID persist fuel2 w2)))
        = accumulate_balances (db w1) /\
      (exists evs,
          events (snd (Accumulate ComputeID persist fuel2 w2))
            = events w2 ++ EvNewJob "accumulate" :: evs /\
          Forall (fun c => snd c = 0) (claims_of evs)) /\
      (faults w2 = [] -> 10 <= fuel2 ->
       fst (Accumulate ComputeID persist fuel2 w2) = Returned None)) /\
  (forall typ d row, In row (select_claim typ d) -> unflagged typ row d) /\
  (forall d row, In row (select_claim_txs d) -> pending row (output_txs_accumulate d)).
Proof.
  intros Hrun1.
  assert (Hq : quiescent (db w1)).
  { unfold Accumulate in Hrun1. apply Accumulate_loop_trace in Hrun1.
    destruct Hrun1 as (evs & sweeps & _ & _ & _ & _ & [(Hge & _) | Hq]); [lia | exact Hq]. }
  split; [exact Hq | split; [| split; [exact claim_unflagged | exact claim_txs_pending]]].
  intros fuel2 w2 Hdb.
  assert (Hstill : still (db w1) (events w2 ++ [EvNewJob "accumulate"])
                     (snd (Accumulate ComputeID persist fuel2 w2))).
  { unfold Accumulate.
    apply (Accumulate_loop_inv ComputeID persist
             (still (db w1) (events w2 ++ [EvNewJob "accumulate"]))
             (fun p w0 => run_pass_still _ _ p w0 Hq)).
    split; [exact Hdb |]. exists []. simpl. rewrite app_nil_r. split; [reflexivity | constructor]. }
  destruct Hstill as [Hd (evs & Hev & Hz)].
  split; [exact Hd | split; [rewrite Hd; reflexivity | split]].
  - exists evs. rewrite Hev, <- app_assoc. auto.
  - intros Hf Hfuel. rewrite <- Hdb in Hq.
    apply (Accumulate_idle fuel2 w2 Hq Hf Hfuel).
Qed.

End Rounds.

(** * A claimed row that is never processed *)

Section InvalidRow.

Variable ComputeID : string -> string -> string -> string + string.
Variable persist : Persist.
Variables id address : string.

Lemma invalid_row_claimed d : invalid_row id address d -> select_claim_out d <> [].
Proof.
  intros ((s & Hs & Hid & Ha & Hf) & (o & Ho & Hoid) & _) Hnil.
  assert (Hin : In (mk_OutputAddressAccumulate id address)
                  (map (fun so => mk_OutputAddressAccumulate (oaa_id (fst so))
                                                             (oaa_address (fst so)))
                     (filter (fun so => (oaa_processed_out (fst so) =? 0)%Z)
                        (join (fun s o => (oaa_id s =? out_id o)%string)
                              (output_addresses_accumulate d) (avm_outputs d))))).
  { apply in_map_iff. exists (s, o). simpl. split; [rewrite Hid, Ha; reflexivity |].
    apply filter_In. simpl. split; [| rewrite Hf; reflexivity].
    apply In_join. repeat split; auto. rewrite Hid, Hoid. apply String.eqb_refl. }
  unfold select_claim_out in Hnil.
  destruct (map _ _) as [| x l]; [destruct Hin |].
  unfold RowLintValue in Hnil. simpl in Hnil. discriminate.
Qed.

Lemma invalid_row_frame d d' :
  same_inputs d d' ->
  (forall s, In s (output_addresses_accumulate d) ->
             oaa_id s = id -> oaa_address s = address ->
             In s (output_addresses_accumulate d')) ->
  invalid_row id address d -> invalid_row id address d'.
Proof.
  intros Hsame Hkeep ((s & Hs & Hid & Ha & Hf) & (o & Ho & Hoid) & Hb).
  split; [| split].
  - exists s. auto.
  - exists o. destruct Hsame as (H1 & _). rewrite H1. auto.
  - rewrite (select_balances_inputs d d' _ Hsame). exact Hb.
Qed.

Lemma row_rel_invalid_row typ row d d' :
  row_rel ComputeID persist typ row d d' ->
  invalid_row id address d -> invalid_row id address d'.
Proof.
  intros Hrel Hinv. apply (invalid_row_frame d d'); auto.
  - eapply row_rel_inputs; eauto.
  - intros s Hs Hid Ha. unfold row_rel in Hrel.
    destruct (select_balances d row) as [| b0 bs] eqn:Hsel; [subst d'; exact Hs |].
    destruct Hrel as (bs' & d1 & Hins & ->).
    apply inserted_frame in Hins. destruct Hins as (_ & Hoaa & _).
    rewrite fold_set_accumulate_balances. simpl. rewrite Hoaa.
    unfold update_output_addresses_accumulate. apply in_map_iff. exists s.
    split; [| exact Hs].
    destruct ((oaa_id s =? OAA_ID row)%string && (oaa_address s =? OAA_Address row)%string)
      eqn:E; [| reflexivity].
    apply andb_true_iff in E. destruct E as [E1 E2].
    apply String.eqb_eq in E1. apply String.eqb_eq in E2.
    destruct Hinv as (_ & _ & Hb). destruct row as [rid raddr]. simpl in E1, E2.
    rewrite <- E1, <- E2, Hid, Ha, Hb in Hsel. discriminate.
Qed.

Lemma iter_row_rel_invalid_row typ rows d d' :
  iter (row_rel ComputeID persist typ) rows d d' ->
  invalid_row id address d -> invalid_row id address d'.
Proof.
  induction 1 as [d | row rows d d1 d2 Hrow _ IH]; intros Hinv; [exact Hinv |].
  apply IH. eapply row_rel_invalid_row; eauto.
Qed.

Lemma txs_rel_invalid_row rows d d' :
  txs_rel ComputeID persist rows d d' ->
  invalid_row id address d -> invalid_row id address d'.
Proof.
  unfold txs_rel. destruct rows as [| r rows]; [intros ->; auto |].
  intros (bs' & d1 & Hins & ->) Hinv.
  apply inserted_frame in Hins. destruct Hins as ((H1 & H2 & H3) & Hoaa & _).
  apply (invalid_row_frame d); auto.
  - rewrite fold_set_output_txs_accumulate, fold_set_accumulate_balances.
    repeat split; simpl; assumption.
  - intros s Hs _ _.
    rewrite fold_set_output_txs_accumulate, fold_set_accumulate_balances. simpl.
    rewrite Hoaa. exact Hs.
Qed.

Lemma run_pass_invalid_row p w :
  invalid_row id address (db w) ->
  invalid_row id address (db (snd (run_pass ComputeID persist p w))).
Proof.
  intros Hinv. destruct (run_pass ComputeID persist p w) as [[cnt [e |]] w'] eqn:Hrun; simpl.
  - destruct (run_pass_result ComputeID persist p w cnt (Some e) w' Hrun) as [_ _ _ Hundone].
    rewrite Hundone; [exact Hinv | left; discriminate].
  - apply run_pass_ok in Hrun. destruct p; simpl in Hrun.
    + eapply iter_row_rel_invalid_row; eauto.
    + eapply iter_row_rel_invalid_row; eauto.
    + eapply txs_rel_invalid_row; eauto.
Qed.

(** While a staging row with [processed_out = 0] has an output of its id
    and an empty aggregation, [Accumulate] does not return nil, whatever
    the fuel and the faults: every pass keeps the row as it is, so no run
    ends on tables with nothing to claim.  The outputs-out pass claims the
    row, skips it with an info line and counts it, which sets the counter
    of idle rounds back to 0. *)
Theorem invalid_row_blocks_return (fuel : nat) (w : World) :
  invalid_row id address (db w) ->
  fst (Accumulate ComputeID persist fuel w) <> Returned None /\
  invalid_row id address (db (snd (Accumulate ComputeID persist fuel w))).
Proof.
  intros Hinv. unfold Accumulate.
  set (w0 := mk_World (db w) (tx w) (faults w) (events w ++ [EvNewJob "accumulate"])).
  assert (Hfinal : invalid_row id address
                     (db (snd (Accumulate_loop ComputeID persist fuel 0 w0)))).
  { apply (Accumulate_loop_inv ComputeID persist (fun w => invalid_row id address (db w))
             (fun p w1 => run_pass_invalid_row p w1)).
    exact Hinv. }
  split; [| exact Hfinal].
  destruct (Accumulate_loop ComputeID persist fuel 0 w0) as [r w'] eqn:E.
  simpl in *. intros ->. apply Accumulate_loop_trace in E.
  destruct E as (evs & sweeps & _ & _ & _ & _ & [(Hge & _) | (Hq & _)]); [lia |].
  exact (invalid_row_claimed _ Hfinal Hq).
Qed.

End InvalidRow.

(** * The size of a batch *)

Section BatchBound.

Variable ComputeID : string -> string -> string -> string + string.
Variable persist : Persist.

Lemma claim_len_bound p d : claim_len p d <= RowLintValue.
Proof.
  destruct p; simpl; unfold select_claim_out, select_claim_in, select_claim_txs;
    apply firstn_le_length.
Qed.

(** No transaction claims more than [RowLintValue] = 100 staging rows,
    and no pass returns a larger count: the count is the length of the
    claim, or 0 with an error. *)
Theorem batch_is_bounded (p : Pass) (w : World) :
  claim_len p (db w) <= 100 /\
  fst (fst (run_pass ComputeID persist p w)) <= 100 /\
  (snd (fst (run_pass ComputeID persist p w)) = None ->
   fst (fst (run_pass ComputeID persist p w)) = claim_len p (db w)).
Proof.
  pose proof (claim_len_bound p (db w)) as Hb. unfold RowLintValue in Hb.
  destruct (run_pass ComputeID persist p w) as [[cnt err] w'] eqn:Hrun.
  destruct (run_pass_result ComputeID persist p w cnt err w' Hrun) as [_ Hcnt _ _].
  simpl. split; [exact Hb | split].
  - subst cnt. destruct err; lia.
  - intros ->. exact Hcnt.
Qed.

End BatchBound.

(** * The retry harness of the background task *)

Lemma pass_trace_pass_events p len err evs :
  pass_trace p len err evs -> Forall (fun ev => is_pass_event ev = true) evs.
Proof.
  assert (Hinfo : forall infos tail,
             Forall (fun ev => is_info ev = true) infos ->
             Forall (fun ev => is_pass_event ev = true) tail ->
             Forall (fun ev => is_pass_event ev = true) (infos ++ tail)).
  { intros infos tail Hi Ht. apply Forall_app. split; [| exact Ht].
    eapply Forall_impl; [| exact Hi]. intros [] H; try discriminate; reflexivity. }
  intros H. destruct H; repeat constructor; apply Hinfo; auto; repeat constructor.
Qed.

Lemma filter_pass_events f evs :
  (forall ev, is_pass_event ev = true -> f ev = false) ->
  Forall (fun ev => is_pass_event ev = true) evs -> filter f evs = [].
Proof.
  intros Hf H. apply filter_all_false. intros ev Hin. apply Hf.
  rewrite Forall_forall in H. apply H. exact Hin.
Qed.

Section Retry.

Variable ComputeID : string -> string -> string -> string + string.
Variable persist : Persist.

(** One attempt adds the job event and then events of passes only. *)
Lemma Accumulate_events fuel w :
  exists evs,
    events (snd (Accumulate ComputeID persist fuel w)) =
      events w ++ EvNewJob "accumulate" :: evs /\
    Forall (fun ev => is_pass_event ev = true) evs.
Proof.
  unfold Accumulate.
  set (w0 := mk_World (db w) (tx w) (faults w) (events w ++ [EvNewJob "accumulate"])).
  assert (H : exists evs, events (snd (Accumulate_loop ComputeID persist fuel 0 w0))
                          = events w0 ++ evs /\
                          Forall (fun ev => is_pass_event ev = true) evs).
  { apply (Accumulate_loop_inv ComputeID persist
             (fun w' => exists evs, events w' = events w0 ++ evs /\
                                    Forall (fun ev => is_pass_event ev = true) evs)).
    - intros p w1 (evs & Hev & Hall).
      destruct (run_pass ComputeID persist p w1) as [[cnt err] w2] eqn:Hrun.
      destruct (run_pass_result ComputeID persist p w1 cnt err w2 Hrun)
        as [(evs' & Hev' & Htr) _ _ _].
      exists (evs ++ evs'). simpl. split; [rewrite Hev', Hev, app_assoc; reflexivity |].
      apply Forall_app. split; [exact Hall | eapply pass_trace_pass_events; eauto].
    - exists []. rewrite app_nil_r. split; [reflexivity | constructor]. }
  destruct H as (evs & Hev & Hall). exists evs. split; [| exact Hall].
  rewrite Hev. unfold w0. simpl. rewrite <- app_assoc. reflexivity.
Qed.

Lemma Run_retry_deadlocked accfuel n w wn err w' :
  deadlocked ComputeID persist accfuel n w wn ->
  Accumulate ComputeID persist accfuel wn = (Returned err, w') ->
  not_deadlock err ->
  forall fuel, n < fuel ->
    Run_retry ComputeID persist fuel accfuel w = (Returned err, w').
Proof.
  induction 1 as [w | n w e w1 wn Hacc He _ IH]; intros Hlast Hnd fuel Hfuel;
    (destruct fuel as [| fuel]; [lia |]); simpl.
  - rewrite Hlast. destruct err as [e |]; [| reflexivity].
    simpl in Hnd. rewrite Hnd. reflexivity.
  - rewrite Hacc, He. apply IH; auto. lia.
Qed.

(** What [n] deadlocked attempts leave in the trace: [n] jobs, [n]
    sleeps of 1 ms, no warning. *)
Lemma deadlocked_events accfuel n w wn :
  deadlocked ComputeID persist accfuel n w wn ->
  exists evs,
    events wn = events w ++ evs /\
    List.length (filter is_new_job evs) = n /\
    filter is_sleep evs = repeat (EvSleep 1) n /\
    filter is_warn evs = [].
Proof.
  induction 1 as [w | n w e w1 wn Hacc He _ IH].
  - exists []. rewrite app_nil_r. auto.
  - destruct IH as (evs2 & Hev2 & Hj2 & Hs2 & Hw2).
    destruct (Accumulate_events accfuel w) as (evs1 & Hev1 & Hall1).
    rewrite Hacc in Hev1. simpl in Hev1, Hev2.
    exists ((EvNewJob "accumulate" :: evs1) ++ [EvSleep 1] ++ evs2).
    split; [rewrite Hev2, Hev1, <- !app_assoc; reflexivity |].
    rewrite !filter_app. cbn [filter is_new_job is_sleep is_warn].
    rewrite (filter_pass_events is_new_job evs1), (filter_pass_events is_sleep evs1),
      (filter_pass_events is_warn evs1); auto;
      try (intros []; simpl; intros; (discriminate || reflexivity)).
    simpl. rewrite Hj2, Hs2, Hw2. auto.
Qed.

(** C3: when the first [n] attempts of [Accumulate] each return an error
    whose message contains "Deadlock found" and the next attempt returns
    nil or an error without it, the background task, given fuel for
    [n + 1] attempts, makes exactly [n + 1] attempts, sleeps 1 ms after
    each of the first [n] and not after the last, and ends; [n] is
    arbitrary, no bound is built in.  An error that ends the loop is logged
    once, as a warning "Accumulate <error>"; a nil logs nothing.  The task
    returns nothing: no error reaches the caller of [Run]. *)
Theorem deadlock_is_retried (accfuel n : nat) (w wn w' : World) (err : option string) :
  deadlocked ComputeID persist accfuel n w wn ->
  Accumulate ComputeID persist accfuel wn = (Returned err, w') ->
  not_deadlock err ->
  forall fuel, n < fuel ->
    Run_task ComputeID persist fuel accfuel w = (Returned tt, warn_if err w') /\
    exists evs,
      events (warn_if err w') = events w ++ evs /\
      List.length (filter is_new_job evs) = n + 1 /\
      filter is_sleep evs = repeat (EvSleep 1) n /\
      filter is_warn evs =
        match err with
        | None => []
        | Some e => [EvLogWarn ("Accumulate " ++ e)%string]
        end.
Proof.
  intros Hd Hlast Hnd fuel Hfuel. split.
  - unfold Run_task. rewrite (Run_retry_deadlocked accfuel n w wn err w' Hd Hlast Hnd fuel Hfuel).
    destruct err; reflexivity.
  - destruct (deadlocked_events accfuel n w wn Hd) as (evs1 & Hev1 & Hj1 & Hs1 & Hw1).
    destruct (Accumulate_events accfuel wn) as (evs2 & Hev2 & Hall2).
    rewrite Hlast in Hev2. simpl in Hev2.
    exists (evs1 ++ (EvNewJob "accumulate" :: evs2)
            ++ match err with
               | None => []
               | Some e => [EvLogWarn ("Accumulate " ++ e)%string]
               end).
    split.
    + destruct err; simpl; rewrite Hev2, Hev1, <- !app_assoc; simpl;
        rewrite ?app_nil_r; reflexivity.
    + rewrite !filter_app. cbn [filter is_new_job is_sleep is_warn].
      rewrite (filter_pass_events is_new_job evs2), (filter_pass_events is_sleep evs2),
        (filter_pass_events is_warn evs2); auto;
        try (intros []; simpl; intros; (discriminate || reflexivity)).
      rewrite Hs1, Hw1, !length_app, Hj1.
      destruct err; simpl; rewrite ?app_nil_r; repeat split; lia.
Qed.

End Retry.

(** * At most one accumulation in flight *)

Lemma count_app {A : Type} (p : A -> bool) l l' : count p (l ++ l') = count p l + count p l'.
Proof. unfold count. rewrite filter_app, length_app. reflexivity. Qed.

Lemma count_replace_nth {A : Type} (p : A -> bool) i x old l :
  nth_error l i = Some old ->
  count p (replace_nth i x l) + (if p old then 1 else 0) =
  count p l + (if p x then 1 else 0).
Proof.
  unfold count. revert i. induction l as [| y l IH]; intros [| i] H; simpl in H;
    try discriminate.
  - inversion H; subst. simpl. destruct (p x), (p old); simpl; lia.
  - specialize (IH i H). simpl. destruct (p y); simpl; lia.
Qed.

Lemma count_le_pos {A : Type} (p q : A -> bool) l :
  (forall x, p x = true -> q x = true) -> count p l <= count q l.
Proof.
  intros H. unfold count. induction l as [| x l IH]; simpl; [lia |].
  destruct (p x) eqn:E; [rewrite (H x E); simpl; lia | destruct (q x); simpl; lia].
Qed.

Lemma count_pos_nth {A : Type} (p : A -> bool) l i x :
  nth_error l i = Some x -> p x = true -> 0 < count p l.
Proof.
  unfold count. revert i. induction l as [| y l IH]; intros [| i] H Hp; simpl in H;
    try discriminate.
  - inversion H; subst. simpl. rewrite Hp. simpl. lia.
  - specialize (IH i H Hp). simpl. destruct (p y); simpl; lia.
Qed.

Lemma nth_error_replace_nth {A : Type} i (x : A) l old :
  nth_error l i = Some old -> nth_error (replace_nth i x l) i = Some x.
Proof.
  revert i. induction l as [| y l IH]; intros [| i] H; simpl in *; try discriminate; auto.
Qed.

Lemma new_Runner_inv : runner_inv new_Runner.
Proof. split; cbv; (reflexivity || lia || discriminate). Qed.

Lemma caller_counts i x old l :
  nth_error l i = Some old ->
  count caller_spawning (replace_nth i x l) + (if caller_spawning old then 1 else 0) =
    count caller_spawning l + (if caller_spawning x then 1 else 0) /\
  count caller_holds_lock (replace_nth i x l) + (if caller_holds_lock old then 1 else 0) =
    count caller_holds_lock l + (if caller_holds_lock x then 1 else 0) /\
  count caller_at_add (replace_nth i x l) + (if caller_at_add old then 1 else 0) =
    count caller_at_add l + (if caller_at_add x then 1 else 0).
Proof. intros H. repeat split; apply count_replace_nth; exact H. Qed.

Lemma callers_counts_le l :
  count caller_spawning l + count caller_at_add l <= count caller_holds_lock l.
Proof.
  unfold count. induction l as [| pc l IH]; simpl; [lia |].
  destruct pc; simpl; lia.
Qed.

Ltac runner_case Hc Hl Ha Hb :=
  split; unfold in_flight in *; cbn [running lock_held callers tasks] in *;
  rewrite ?count_app; change (count task_in_flight [TaskAccumulate]) with 1;
  lia.

Lemma step_caller_inv i pc s s' :
  runner_inv s -> nth_error (callers s) i = Some pc ->
  step_caller i pc s = Some s' -> runner_inv s'.
Proof.
  intros [Hc Hl Ha Hb] Hn Hstep.
  pose proof (callers_counts_le (callers s)) as Hle.
  assert (Hpos : forall p, p pc = true -> 0 < count p (callers s))
    by (intros p Hp; eapply count_pos_nth; eauto).
  pose proof (Hpos caller_holds_lock) as Hph.
  pose proof (Hpos caller_at_add) as Hpa.
  pose proof (Hpos caller_spawning) as Hps.
  clear Hpos.
  destruct pc; simpl in Hstep, Hph, Hpa, Hps.
  - destruct (running s =? 0)%Z; inversion Hstep; subst s'; clear Hstep;
      match goal with |- context [replace_nth i ?x _] =>
        destruct (caller_counts i x _ _ Hn) as (C1 & C2 & C3); simpl in C1, C2, C3 end;
      destruct (lock_held s); runner_case Hc Hl Ha Hb.
  - destruct (lock_held s) eqn:El; [discriminate |].
    inversion Hstep; subst s'; clear Hstep.
    match goal with |- context [replace_nth i ?x _] =>
      destruct (caller_counts i x _ _ Hn) as (C1 & C2 & C3); simpl in C1, C2, C3 end.
    runner_case Hc Hl Ha Hb.
  - destruct (running s =? 0)%Z eqn:Er;
      [apply Z.eqb_eq in Er | apply Z.eqb_neq in Er];
      inversion Hstep; subst s'; clear Hstep;
      match goal with |- context [replace_nth i ?x _] =>
        destruct (caller_counts i x _ _ Hn) as (C1 & C2 & C3); simpl in C1, C2, C3 end;
      destruct (lock_held s); runner_case Hc Hl Ha Hb.
  - inversion Hstep; subst s'; clear Hstep.
    match goal with |- context [replace_nth i ?x _] =>
      destruct (caller_counts i x _ _ Hn) as (C1 & C2 & C3); simpl in C1, C2, C3 end.
    destruct (lock_held s); runner_case Hc Hl Ha Hb.
  - inversion Hstep; subst s'; clear Hstep.
    match goal with |- context [replace_nth i ?x _] =>
      destruct (caller_counts i x _ _ Hn) as (C1 & C2 & C3); simpl in C1, C2, C3 end.
    destruct (lock_held s); runner_case Hc Hl Ha Hb.
  - inversion Hstep; subst s'; clear Hstep.
    match goal with |- context [replace_nth i ?x _] =>
      destruct (caller_counts i x _ _ Hn) as (C1 & C2 & C3); simpl in C1, C2, C3 end.
    destruct (lock_held s); runner_case Hc Hl Ha Hb.
  - discriminate.
Qed.

Lemma step_task_inv i pc a s s' :
  runner_inv s -> nth_error (tasks s) i = Some pc ->
  step_task i pc a s = Some s' -> runner_inv s'.
Proof.
  intros [Hc Hl Ha Hb] Hn Hstep.
  pose proof (count_pos_nth task_in_flight _ _ _ Hn) as Hpos.
  destruct pc; simpl in Hstep, Hpos; try discriminate;
    inversion Hstep; subst s'; clear Hstep;
    match goal with |- context [replace_nth i ?x _] =>
      pose proof (count_replace_nth task_in_flight i x _ _ Hn) as C; simpl in C end.
  - destruct a as [| e |]; [| destruct (Contains e DeadlockDBErrorMessage) |];
      simpl in C; runner_case Hc Hl Ha Hb.
  - runner_case Hc Hl Ha Hb.
  - runner_case Hc Hl Ha Hb.
  - specialize (Hpos eq_refl). runner_case Hc Hl Ha Hb.
Qed.

Lemma step_inv l s s' : runner_inv s -> step l s = Some s' -> runner_inv s'.
Proof.
  intros Hinv Hstep. destruct l as [| i | i a]; simpl in Hstep.
  - inversion Hstep; subst s'. destruct Hinv as [Hc Hl Ha Hb].
    split; unfold in_flight in *; cbn [running lock_held callers tasks] in *;
      rewrite ?count_app;
      change (count caller_spawning [AtFastLoad]) with 0;
      change (count caller_holds_lock [AtFastLoad]) with 0;
      change (count caller_at_add [AtFastLoad]) with 0;
      rewrite ?Nat.add_0_r; auto.
  - destruct (nth_error (callers s) i) as [pc |] eqn:Hn; [| discriminate].
    eapply step_caller_inv; eauto.
  - destruct (nth_error (tasks s) i) as [pc |] eqn:Hn; [| discriminate].
    eapply step_task_inv; eauto.
Qed.

Lemma run_inv ls s s' : runner_inv s -> run ls s = Some s' -> runner_inv s'.
Proof.
  revert s. induction ls as [| l ls IH]; intros s Hinv Hrun; simpl in Hrun.
  - inversion Hrun; subst. exact Hinv.
  - destruct (step l s) as [s1 |] eqn:E; [| discriminate].
    apply (IH s1); [eapply step_inv; eauto | exact Hrun].
Qed.

(** C2: in every state that calls of [Run] and their tasks can reach, in
    any number and any interleaving, at most one background task is in
    flight.  The counter equals the tasks in flight plus the calls that
    have incremented it and not yet spawned, so it is raised before the
    spawn and lowered exactly when a task leaves through its deferred
    function, which every attempt leads to, a failed or panicking one
    included; it never exceeds 1.  The calls between the second load and
    the unlock are those that hold the mutex, one at most.  A call that
    finds the counter nonzero returns without spawning, at the first load
    and again at the load under the mutex. *)
Theorem at_most_one_accumulation (ls : list Label) (s : Runner) :
  run ls new_Runner = Some s ->
  in_flight s <= 1 /\
  running s = Z.of_nat (in_flight s + count caller_spawning (callers s)) /\
  (running s <= 1)%Z /\
  count caller_holds_lock (callers s) = (if lock_held s then 1 else 0) /\
  (forall i, nth_error (callers s) i = Some AtFastLoad -> running s <> 0%Z ->
     exists s', step (StepCaller i) s = Some s' /\ tasks s' = tasks s /\
                nth_error (callers s') i = Some (CallerReturned false)) /\
  (forall i, nth_error (callers s) i = Some AtSlowLoad -> running s <> 0%Z ->
     exists s', step (StepCaller i) s = Some s' /\ tasks s' = tasks s /\
                running s' = running s /\
                nth_error (callers s') i = Some (AtUnlock false)) /\
  (forall i a, nth_error (tasks s) i = Some TaskDeferred ->
     exists s', step (StepTask i a) s = Some s' /\ running s' = (running s - 1)%Z /\
                nth_error (tasks s') i = Some TaskExited).
Proof.
  intros Hrun. pose proof (run_inv ls new_Runner s new_Runner_inv Hrun) as [Hc Hl Ha Hb].
  split; [lia | split; [exact Hc | split; [exact Hb | split; [exact Hl |]]]].
  split; [| split].
  - intros i Hn Hr. simpl. rewrite Hn. simpl.
    apply Z.eqb_neq in Hr. rewrite Hr. eexists. split; [reflexivity |]. simpl.
    split; [reflexivity | eapply nth_error_replace_nth; eauto].
  - intros i Hn Hr. simpl. rewrite Hn. simpl.
    apply Z.eqb_neq in Hr. rewrite Hr. eexists. split; [reflexivity |]. simpl.
    repeat split. eapply nth_error_replace_nth; eauto.
  - intros i a Hn. simpl. rewrite Hn. simpl. eexists. split; [reflexivity |]. simpl.
    split; [reflexivity | eapply nth_error_replace_nth; eauto].
Qed.

(** * What the accumulator never writes *)

Lemma Forall2_refl_on {A : Type} (R : A -> A -> Prop) (l : list A) :
  (forall x, R x x) -> Forall2 R l l.
Proof. intros H. induction l; constructor; auto. Qed.

Lemma Forall2_map_r {A : Type} (R : A -> A -> Prop) (g : A -> A) (l : list A) :
  (forall x, R x (g x)) -> Forall2 R l (map g l).
Proof. intros H. induction l; simpl; constructor; auto. Qed.

Lemma Forall2_trans_on {A : Type} (R : A -> A -> Prop) :
  (forall x y z, R x y -> R y z -> R x z) ->
  forall l1 l2 l3, Forall2 R l1 l2 -> Forall2 R l2 l3 -> Forall2 R l1 l3.
Proof.
  intros Htr l1 l2 l3 H12. revert l3.
  induction H12 as [| x y l1 l2 Hxy _ IH]; intros l3 H23; inversion H23; subst;
    constructor; eauto.
Qed.

Lemma flags_grow_refl s : flags_grow s s.
Proof. unfold flags_grow. auto. Qed.

Lemma flags_grow_trans s1 s2 s3 : flags_grow s1 s2 -> flags_grow s2 s3 -> flags_grow s1 s3.
Proof.
  unfold flags_grow. intros (A1 & A2 & A3 & A4) (B1 & B2 & B3 & B4).
  repeat split; try congruence.
  - destruct B3 as [B3 | B3]; [rewrite B3; exact A3 | right; exact B3].
  - destruct B4 as [B4 | B4]; [rewrite B4; exact A4 | right; exact B4].
Qed.

Lemma flags_grow_flip typ s : flags_grow s (flip_flag typ s).
Proof. destruct typ; unfold flags_grow; simpl; auto. Qed.

Lemma processed_grows_refl t : processed_grows t t.
Proof. unfold processed_grows. repeat split; auto. Qed.

Lemma processed_grows_trans t1 t2 t3 :
  processed_grows t1 t2 -> processed_grows t2 t3 -> processed_grows t1 t3.
Proof.
  unfold processed_grows. intros (A1 & A2 & A3 & A4 & A5 & A6) (B1 & B2 & B3 & B4 & B5 & B6).
  repeat split; try congruence.
  destruct B6 as [B6 | B6]; [rewrite B6; exact A6 | right; exact B6].
Qed.

Lemma processed_grows_mark t : processed_grows t (mark_processed t).
Proof. unfold processed_grows. simpl. repeat split; auto. Qed.

Lemma only_flags_refl d : only_flags d d.
Proof.
  split; [apply same_inputs_refl | split].
  - apply Forall2_refl_on. exact flags_grow_refl.
  - apply Forall2_refl_on. exact processed_grows_refl.
Qed.

Lemma only_flags_trans d1 d2 d3 : only_flags d1 d2 -> only_flags d2 d3 -> only_flags d1 d3.
Proof.
  intros (A1 & A2 & A3) (B1 & B2 & B3). split; [| split].
  - eapply same_inputs_trans; eauto.
  - eapply Forall2_trans_on; eauto. exact flags_grow_trans.
  - eapply Forall2_trans_on; eauto. exact processed_grows_trans.
Qed.

Lemma only_flags_balances g d : only_flags d (set_accumulate_balances g d).
Proof.
  split; [repeat split | split]; simpl.
  - apply Forall2_refl_on. exact flags_grow_refl.
  - apply Forall2_refl_on. exact processed_grows_refl.
Qed.

Lemma only_flags_flip typ row d :
  only_flags d
    (set_output_addresses_accumulate (update_output_addresses_accumulate typ row) d).
Proof.
  split; [repeat split | split]; simpl.
  - unfold update_output_addresses_accumulate. apply Forall2_map_r. intros s.
    destruct (_ && _); [apply flags_grow_flip | apply flags_grow_refl].
  - apply Forall2_refl_on. exact processed_grows_refl.
Qed.

Lemma only_flags_mark row d :
  only_flags d (set_output_txs_accumulate (update_output_txs_accumulate row) d).
Proof.
  split; [repeat split | split]; simpl.
  - apply Forall2_refl_on. exact flags_grow_refl.
  - unfold update_output_txs_accumulate. apply Forall2_map_r. intros t.
    destruct (_ =? _)%string; [apply processed_grows_mark | apply processed_grows_refl].
Qed.

Section OnlyFlags.

Variable ComputeID : string -> string -> string -> string + string.
Variable persist : Persist.

Lemma pass_step_only_flags p d0 d d' : pass_step persist p d0 d d' -> only_flags d d'.
Proof.
  destruct p; simpl; intros H; inversion H; subst;
    first [apply only_flags_balances | apply only_flags_flip | apply only_flags_mark].
Qed.

Lemma pass_steps_only_flags p d0 d d' : pass_steps persist p d0 d d' -> only_flags d d'.
Proof.
  induction 1 as [d d' H | d | d1 d2 d3 _ IH1 _ IH2].
  - eapply pass_step_only_flags; eauto.
  - apply only_flags_refl.
  - eapply only_flags_trans; eauto.
Qed.

Lemma run_pass_only_flags d0 p w :
  only_flags d0 (db w) -> only_flags d0 (db (snd (run_pass ComputeID persist p w))).
Proof.
  intros H0. destruct (run_pass ComputeID persist p w) as [[cnt err] w'] eqn:Hrun.
  destruct (run_pass_result ComputeID persist p w cnt err w' Hrun) as [_ _ Hsteps _].
  simpl. eapply only_flags_trans; [exact H0 |]. eapply pass_steps_only_flags; eauto.
Qed.

Lemma Accumulate_only_flags d0 fuel w :
  only_flags d0 (db w) -> only_flags d0 (db (snd (Accumulate ComputeID persist fuel w))).
Proof.
  intros H0. unfold Accumulate.
  apply (Accumulate_loop_inv ComputeID persist (fun w => only_flags d0 (db w))
           (fun p w1 => run_pass_only_flags d0 p w1)).
  exact H0.
Qed.

Lemma Run_retry_only_flags d0 fuel accfuel w :
  only_flags d0 (db w) ->
  only_flags d0 (db (snd (Run_retry ComputeID persist fuel accfuel w))).
Proof.
  revert w. induction fuel as [| fuel IH]; intros w H0; simpl; [exact H0 |].
  pose proof (Accumulate_only_flags d0 accfuel w H0) as H1.
  destruct (Accumulate ComputeID persist accfuel w) as [[[e |] |] w1]; simpl in *;
    try exact H1.
  destruct (Contains e DeadlockDBErrorMessage); [| exact H1].
  apply IH. exact H1.
Qed.

(** The accumulator writes nothing but flags and aggregate rows: whatever
    the fuel, the faults, the key computation and the persistence layer,
    a run of [Accumulate], and a whole background task with its retries,
    leave [avm_outputs], [avm_output_addresses] and
    [avm_outputs_redeeming] as they were, add and remove no staging row
    and change none of its identifying columns, and move a flag only
    from its value to 1, never back. *)
Theorem accumulator_only_flips_flags (fuel accfuel : nat) (w : World) :
  only_flags (db w) (db (snd (Accumulate ComputeID persist accfuel w))) /\
  only_flags (db w) (db (snd (Run_task ComputeID persist fuel accfuel w))).
Proof.
  split; [apply Accumulate_only_flags; apply only_flags_refl |].
  pose proof (Run_retry_only_flags (db w) fuel accfuel w (only_flags_refl _)) as H.
  unfold Run_task. destruct (Run_retry ComputeID persist fuel accfuel w) as [[[e |] |] w1];
    simpl in *; exact H.
Qed.

End OnlyFlags.

(** * Invariants of the tables through the loop and the task *)

Section TaskInvariant.

Variable ComputeID : string -> string -> string -> string + string.
Variable persist : Persist.
Variable Inv : DB -> Prop.
Hypothesis Inv_pass :
  forall p w, Inv (db w) -> Inv (db (snd (run_pass ComputeID persist p w))).

Lemma Accumulate_db_inv fuel w :
  Inv (db w) -> Inv (db (snd (Accumulate ComputeID persist fuel w))).
Proof.
  intros H0. unfold Accumulate.
  apply (Accumulate_loop_inv ComputeID persist (fun w => Inv (db w)) Inv_pass). exact H0.
Qed.

Lemma Run_retry_db_inv fuel accfuel w :
  Inv (db w) -> Inv (db (snd (Run_retry ComputeID persist fuel accfuel w))).
Proof.
  revert w. induction fuel as [| fuel IH]; intros w H0; simpl; [exact H0 |].
  pose proof (Accumulate_db_inv accfuel w H0) as H1.
  destruct (Accumulate ComputeID persist accfuel w) as [[[e |] |] w1]; simpl in *;
    try exact H1.
  destruct (Contains e DeadlockDBErrorMessage); [| exact H1].
  apply IH. exact H1.
Qed.

Lemma Run_task_db_inv fuel accfuel w :
  Inv (db w) -> Inv (db (snd (Run_task ComputeID persist fuel accfuel w))).
Proof.
  intros H0. pose proof (Run_retry_db_inv fuel accfuel w H0) as H.
  unfold Run_task. destruct (Run_retry ComputeID persist fuel accfuel w) as [[[e |] |] w1];
    simpl in *; exact H.
Qed.

End TaskInvariant.

(** * The aggregate counters only grow *)

Lemma sumZ_nonneg l : Forall (fun z => (0 <= z)%Z) l -> (0 <= sumZ l)%Z.
Proof. induction 1; simpl; lia. Qed.

Lemma balances_grow_refl tbl : balances_grow tbl tbl.
Proof. intros k. repeat split; auto; lia. Qed.

Lemma balances_grow_trans t1 t2 t3 :
  balances_grow t1 t2 -> balances_grow t2 t3 -> balances_grow t1 t3.
Proof.
  intros H12 H23 k. destruct (H12 k) as (A1 & A2 & A3 & A4).
  destruct (H23 k) as (B1 & B2 & B3 & B4). repeat split; auto; lia.
Qed.

Lemma column_update_le (f : accumulate_balances_row -> Z)
    (g : accumulate_balances_row -> accumulate_balances_row)
    (c : accumulate_balances_row -> bool) tbl k :
  (forall r, ab_id (g r) = ab_id r) -> (forall r, (f r <= f (g r))%Z) ->
  (column f tbl k <= column f (map (fun r => if c r then g r else r) tbl) k)%Z.
Proof.
  intros Hid Hf. unfold column. rewrite (find_update_row g c k tbl Hid).
  destruct (find (fun r => (ab_id r =? k)%string) tbl) as [r |]; simpl; [| lia].
  destruct (c r); [apply Hf | lia].
Qed.

Lemma balances_grow_update (g : accumulate_balances_row -> accumulate_balances_row)
    (c : accumulate_balances_row -> bool) tbl :
  (forall r, ab_id (g r) = ab_id r) ->
  (forall r, (ab_total_received r <= ab_total_received (g r))%Z) ->
  (forall r, (ab_total_sent r <= ab_total_sent (g r))%Z) ->
  (forall r, (ab_transaction_count r <= ab_transaction_count (g r))%Z) ->
  balances_grow tbl (map (fun r => if c r then g r else r) tbl).
Proof.
  intros Hid H1 H2 H3 k. split; [| repeat split; apply column_update_le; auto].
  intros Hh. rewrite has_balance_update; auto.
Qed.

Lemma balances_grow_delta typ b tbl :
  (0 <= AB_TotalReceived b)%Z -> (0 <= AB_TotalSent b)%Z ->
  balances_grow tbl (update_accumulate_balances typ b tbl).
Proof.
  intros Hr Hs. unfold update_accumulate_balances.
  apply balances_grow_update; intros r; destruct typ; simpl; try reflexivity; lia.
Qed.

Lemma balances_grow_bump b tbl : balances_grow tbl (update_transaction_count b tbl).
Proof.
  unfold update_transaction_count.
  apply balances_grow_update; intros r; simpl; try reflexivity; lia.
Qed.

Lemma select_balances_nonneg d row b :
  amounts_nonneg d -> In b (select_balances d row) ->
  (0 <= AB_TotalReceived b)%Z /\ (0 <= AB_TotalSent b)%Z.
Proof.
  intros Hnn Hin. unfold select_balances in Hin. apply in_map_iff in Hin.
  destruct Hin as (k & <- & _). simpl.
  assert (H : forall (l : list (avm_outputs_row * avm_output_addresses_row)),
             (forall oa, In oa l -> In (fst oa) (avm_outputs d)) ->
             (0 <= sumZ (map (fun oa => out_amount (fst oa)) l))%Z).
  { intros l Hl. apply sumZ_nonneg. apply Forall_forall. intros z Hz.
    apply in_map_iff in Hz. destruct Hz as (oa & <- & Hoa). apply Hnn, Hl, Hoa. }
  assert (Hmem : forall oa,
             In oa (filter (fun oa => group_key_eqb k (group_key_of oa))
                      (filter (fun oa => (out_id (fst oa) =? OAA_ID row)%string
                                         && (adr_address (snd oa) =? OAA_Address row)%string)
                         (join (fun o a => (out_id o =? adr_output_id a)%string)
                               (avm_outputs d) (avm_output_addresses d)))) ->
             In (fst oa) (avm_outputs d)).
  { intros [o a] Hoa. apply filter_In in Hoa. destruct Hoa as [Hoa _].
    apply filter_In in Hoa. destruct Hoa as [Hoa _]. apply In_join in Hoa. simpl. tauto. }
  split; apply H; exact Hmem.
Qed.

Section Growth.

Variable ComputeID : string -> string -> string -> string + string.
Variable persist : Persist.
Hypothesis persist_ok : persist_contract persist.

Lemma inserted_grow bs bs' d d1 :
  inserted ComputeID persist bs bs' d d1 ->
  balances_grow (accumulate_balances d) (accumulate_balances d1) /\
  (forall b', In b' bs' ->
     exists b, In b bs /\ AB_TotalReceived b' = AB_TotalReceived b /\
               AB_TotalSent b' = AB_TotalSent b).
Proof.
  intros Hins. split.
  - destruct (inserted_facts ComputeID persist persist_ok _ _ _ _ Hins) as (Hcol & Hhas & _).
    intros k. split; [apply Hhas |].
    rewrite !Hcol by reflexivity. repeat split; lia.
  - induction Hins as [d | b id tbl bs bs' d d1 _ _ _ IH]; [intros b' [] |].
    intros b' [<- | Hb'].
    + exists b. simpl. auto.
    + destruct (IH b' Hb') as (b0 & Hb0 & Ht). exists b0. simpl. auto.
Qed.

Lemma fold_delta_grow typ bs tbl :
  (forall b, In b bs -> (0 <= AB_TotalReceived b)%Z /\ (0 <= AB_TotalSent b)%Z) ->
  balances_grow tbl (fold_left (fun tbl b => update_accumulate_balances typ b tbl) bs tbl).
Proof.
  revert tbl. induction bs as [| b bs IH]; intros tbl Hnn; simpl.
  - apply balances_grow_refl.
  - eapply balances_grow_trans; [| apply IH; intros b' Hb'; apply Hnn; right; exact Hb'].
    destruct (Hnn b (or_introl eq_refl)). apply balances_grow_delta; assumption.
Qed.

Lemma fold_bump_grow bs tbl :
  balances_grow tbl (fold_left (fun tbl b => update_transaction_count b tbl) bs tbl).
Proof.
  revert tbl. induction bs as [| b bs IH]; intros tbl; simpl.
  - apply balances_grow_refl.
  - eapply balances_grow_trans; [apply balances_grow_bump | apply IH].
Qed.

Lemma row_rel_grow typ row d d' :
  amounts_nonneg d -> row_rel ComputeID persist typ row d d' ->
  balances_grow (accumulate_balances d) (accumulate_balances d').
Proof.
  intros Hnn. unfold row_rel.
  destruct (select_balances d row) as [| b0 bs] eqn:Hsel;
    [intros ->; apply balances_grow_refl |].
  intros (bs' & d1 & Hins & ->). apply inserted_grow in Hins. destruct Hins as [Hg Htot].
  rewrite fold_set_accumulate_balances. simpl.
  eapply balances_grow_trans; [exact Hg |]. apply fold_delta_grow.
  intros b' Hb'. destruct (Htot b' Hb') as (b & Hb & -> & ->).
  apply (select_balances_nonneg d row); [exact Hnn | rewrite Hsel; exact Hb].
Qed.

Lemma iter_row_rel_grow typ rows d d' :
  amounts_nonneg d -> iter (row_rel ComputeID persist typ) rows d d' ->
  balances_grow (accumulate_balances d) (accumulate_balances d').
Proof.
  intros Hnn Hit. induction Hit as [d | row rows d d1 d2 Hrow _ IH].
  - apply balances_grow_refl.
  - eapply balances_grow_trans; [eapply row_rel_grow; eauto |]. apply IH.
    destruct (row_rel_inputs _ _ _ _ _ _ Hrow) as (E & _).
    intros o Ho. rewrite E in Ho. apply Hnn. exact Ho.
Qed.

Lemma txs_rel_grow rows d d' :
  txs_rel ComputeID persist rows d d' ->
  balances_grow (accumulate_balances d) (accumulate_balances d').
Proof.
  unfold txs_rel. destruct rows as [| r rows]; [intros ->; apply balances_grow_refl |].
  intros (bs' & d1 & Hins & ->). apply inserted_grow in Hins. destruct Hins as [Hg _].
  rewrite fold_set_output_txs_accumulate, fold_set_accumulate_balances. simpl.
  eapply balances_grow_trans; [exact Hg | apply fold_bump_grow].
Qed.

Lemma run_pass_grow tbl0 p w :
  amounts_nonneg (db w) /\ balances_grow tbl0 (accumulate_balances (db w)) ->
  amounts_nonneg (db (snd (run_pass ComputeID persist p w))) /\
  balances_grow tbl0 (accumulate_balances (db (snd (run_pass ComputeID persist p w)))).
Proof.
  intros [Hnn Hg].
  destruct (run_pass ComputeID persist p w) as [[cnt [e |]] w'] eqn:Hrun; simpl.
  - destruct (run_pass_result ComputeID persist p w cnt (Some e) w' Hrun) as [_ _ _ Hundone].
    rewrite Hundone by (left; discriminate). auto.
  - destruct (run_pass_result ComputeID persist p w cnt None w' Hrun) as [_ _ Hsteps _].
    apply pass_steps_only_flags in Hsteps. destruct Hsteps as ((E & _) & _).
    split; [intros o Ho; rewrite E in Ho; apply Hnn; exact Ho |].
    eapply balances_grow_trans; [exact Hg |].
    apply run_pass_ok in Hrun. destruct p; simpl in Hrun.
    + eapply iter_row_rel_grow; eauto.
    + eapply iter_row_rel_grow; eauto.
    + eapply txs_rel_grow; eauto.
Qed.

(** When no output has a negative amount, a run of [Accumulate] and a
    whole background task, whatever the fuel and the faults, lose no
    aggregate row and lower none of [total_received], [total_sent] and
    [transaction_count], at any balance key. *)
Theorem aggregates_never_decrease (fuel accfuel : nat) (w : World) :
  amounts_nonneg (db w) ->
  balances_grow (accumulate_balances (db w))
    (accumulate_balances (db (snd (Accumulate ComputeID persist accfuel w)))) /\
  balances_grow (accumulate_balances (db w))
    (accumulate_balances (db (snd (Run_task ComputeID persist fuel accfuel w)))).
Proof.
  intros Hnn.
  pose (Inv := fun d => amounts_nonneg d /\
                        balances_grow (accumulate_balances (db w)) (accumulate_balances d)).
  assert (H0 : Inv (db w)) by (split; [exact Hnn | apply balances_grow_refl]).
  split.
  - apply (Accumulate_db_inv ComputeID persist Inv
             (fun p w1 => run_pass_grow _ p w1) accfuel w H0).
  - apply (Run_task_db_inv ComputeID persist Inv
             (fun p w1 => run_pass_grow _ p w1) fuel accfuel w H0).
Qed.

End Growth.

(** * The loop ends when nothing fails *)

Lemma Forall2_In_r {A : Type} (R : A -> A -> Prop) l l' y :
  Forall2 R l l' -> In y l' -> exists x, In x l /\ R x y.
Proof.
  induction 1 as [| x y' l l' Hxy _ IH]; intros Hin; [destruct Hin |].
  destruct Hin as [<- | Hin]; [exists x; simpl; auto |].
  destruct (IH Hin) as (x0 & Hx0 & HR). exists x0. simpl. auto.
Qed.

Lemma count_Forall2_le {A : Type} (R : A -> A -> Prop) (p : A -> bool) l l' :
  (forall x y, R x y -> p y = true -> p x = true) ->
  Forall2 R l l' -> count p l' <= count p l.
Proof.
  intros H. unfold count. induction 1 as [| x y l l' Hxy _ IH]; simpl; [lia |].
  destruct (p y) eqn:Ey; [rewrite (H x y Hxy Ey); simpl; lia |].
  destruct (p x); simpl; lia.
Qed.

Lemma count_map_le {A : Type} (p : A -> bool) (g : A -> A) l :
  (forall x, p (g x) = true -> p x = true) -> count p (map g l) <= count p l.
Proof.
  intros H. unfold count. induction l as [| x l IH]; simpl; [lia |].
  destruct (p (g x)) eqn:E; [rewrite (H x E); simpl; lia |].
  destruct (p x); simpl; lia.
Qed.

Lemma count_map_lt {A : Type} (p : A -> bool) (g : A -> A) l x0 :
  (forall x, p (g x) = true -> p x = true) ->
  In x0 l -> p x0 = true -> p (g x0) = false ->
  count p (map g l) < count p l.
Proof.
  intros H Hin Hp Hg. induction l as [| x l IH]; [destruct Hin |].
  pose proof (count_map_le p g l H) as Hle. unfold count in *. simpl.
  destruct Hin as [-> | Hin].
  - rewrite Hp, Hg. simpl. lia.
  - specialize (IH Hin).
    destruct (p (g x)) eqn:E; [rewrite (H x E); simpl; lia |].
    destruct (p x); simpl; lia.
Qed.

Lemma only_flags_left d d' : only_flags d d' -> flags_left d' <= flags_left d.
Proof.
  intros (_ & Hs & Ht). unfold flags_left.
  assert (H1 := count_Forall2_le flags_grow (fun s => (oaa_processed_out s =? 0)%Z) _ _
                  ltac:(intros x y (_ & _ & [E | E] & _) Hy; rewrite E in Hy;
                        [exact Hy | discriminate]) Hs).
  assert (H2 := count_Forall2_le flags_grow (fun s => (oaa_processed_in s =? 0)%Z) _ _
                  ltac:(intros x y (_ & _ & _ & [E | E]) Hy; rewrite E in Hy;
                        [exact Hy | discriminate]) Hs).
  assert (H3 := count_Forall2_le processed_grows (fun t => (ota_processed t =? 0)%Z) _ _
                  ltac:(intros x y (_ & _ & _ & _ & _ & [E | E]) Hy; rewrite E in Hy;
                        [exact Hy | discriminate]) Ht).
  lia.
Qed.

Lemma only_flags_aggregations d d' :
  only_flags d d' -> aggregations_nonempty d -> aggregations_nonempty d'.
Proof.
  intros (Hsame & Hs & _) Hagg s' o Hs' Ho Hid.
  destruct (Forall2_In_r _ _ _ _ Hs Hs') as (s & Hin & (E1 & E2 & _)).
  rewrite (select_balances_inputs d d' _ Hsame), E1, E2.
  destruct Hsame as (Eo & _). rewrite Eo in Ho.
  apply (Hagg s o Hin Ho). congruence.
Qed.

Lemma flip_left_le typ row tbl :
  count (fun s => (oaa_processed_out s =? 0)%Z)
        (update_output_addresses_accumulate typ row tbl)
  <= count (fun s => (oaa_processed_out s =? 0)%Z) tbl /\
  count (fun s => (oaa_processed_in s =? 0)%Z)
        (update_output_addresses_accumulate typ row tbl)
  <= count (fun s => (oaa_processed_in s =? 0)%Z) tbl.
Proof.
  unfold update_output_addresses_accumulate.
  split; apply count_map_le; intros s; destruct (_ && _); auto; destruct typ; simpl; auto;
    discriminate.
Qed.

Lemma flip_left_lt typ row d :
  unflagged typ row d ->
  flags_left (set_output_addresses_accumulate (update_output_addresses_accumulate typ row) d)
  < flags_left d.
Proof.
  intros (s & Hin & Hid & Ha & Hflag).
  destruct (flip_left_le typ row (output_addresses_accumulate d)) as [Ho Hi].
  unfold flags_left. simpl.
  assert (Hm : (oaa_id s =? OAA_ID row)%string && (oaa_address s =? OAA_Address row)%string
               = true) by (rewrite Hid, Ha, !String.eqb_refl; reflexivity).
  destruct typ; simpl in Hflag.
  - assert (count (fun s => (oaa_processed_in s =? 0)%Z)
              (update_output_addresses_accumulate processTypeIn row
                 (output_addresses_accumulate d))
            < count (fun s => (oaa_processed_in s =? 0)%Z) (output_addresses_accumulate d)).
    { unfold update_output_addresses_accumulate.
      apply (count_map_lt _ _ _ s); [| exact Hin | |].
      - intros x. cbv beta. destruct ((oaa_id x =? OAA_ID row)%string && _); [simpl; discriminate | auto].
      - cbv beta. rewrite Hflag. reflexivity.
      - cbv beta. rewrite Hm. reflexivity. }
    lia.
  - assert (count (fun s => (oaa_processed_out s =? 0)%Z)
              (update_output_addresses_accumulate processTypeOut row
                 (output_addresses_accumulate d))
            < count (fun s => (oaa_processed_out s =? 0)%Z) (output_addresses_accumulate d)).
    { unfold update_output_addresses_accumulate.
      apply (count_map_lt _ _ _ s); [| exact Hin | |].
      - intros x. cbv beta. destruct ((oaa_id x =? OAA_ID row)%string && _); [simpl; discriminate | auto].
      - cbv beta. rewrite Hflag. reflexivity.
      - cbv beta. rewrite Hm. reflexivity. }
    lia.
Qed.

Lemma mark_left_lt row d :
  pending row (output_txs_accumulate d) ->
  flags_left (set_output_txs_accumulate (update_output_txs_accumulate row) d) < flags_left d.
Proof.
  intros (t & Hin & Hid & Hp & _). unfold flags_left. simpl.
  assert (count (fun t => (ota_processed t =? 0)%Z)
            (update_output_txs_accumulate row (output_txs_accumulate d))
          < count (fun t => (ota_processed t =? 0)%Z) (output_txs_accumulate d)).
  { unfold update_output_txs_accumulate. apply (count_map_lt _ _ _ t); [| exact Hin | |].
    - intros x. cbv beta. destruct (ota_id x =? OTA_ID row)%string; [simpl; discriminate | auto].
    - cbv beta. rewrite Hp. reflexivity.
    - cbv beta. rewrite Hid, String.eqb_refl. reflexivity. }
  lia.
Qed.

Lemma flags_left_balances g d : flags_left (set_accumulate_balances g d) = flags_left d.
Proof. reflexivity. Qed.

Section Progress.

Variable ComputeID : string -> string -> string -> string + string.
Variable persist : Persist.

Lemma inserted_only_flags bs bs' d d1 :
  inserted ComputeID persist bs bs' d d1 -> only_flags d d1.
Proof.
  induction 1 as [d | b id tbl bs bs' d d1 _ _ _ IH]; [apply only_flags_refl |].
  eapply only_flags_trans; [apply only_flags_balances | exact IH].
Qed.

Lemma inserted_flags_left bs bs' d d1 :
  inserted ComputeID persist bs bs' d d1 ->
  flags_left d1 = flags_left d /\
  output_addresses_accumulate d1 = output_addresses_accumulate d /\
  output_txs_accumulate d1 = output_txs_accumulate d.
Proof.
  intros H. apply inserted_frame in H. destruct H as (_ & H1 & H2).
  unfold flags_left. rewrite H1, H2. auto.
Qed.

Lemma row_rel_only_flags typ row d d' :
  row_rel ComputeID persist typ row d d' -> only_flags d d'.
Proof.
  unfold row_rel. destruct (select_balances d row) as [| b0 bs];
    [intros ->; apply only_flags_refl |].
  intros (bs' & d1 & Hins & ->). rewrite fold_set_accumulate_balances.
  eapply only_flags_trans; [eapply inserted_only_flags; eauto |].
  eapply only_flags_trans; [apply only_flags_balances | apply only_flags_flip].
Qed.

Lemma iter_row_rel_only_flags typ rows d d' :
  iter (row_rel ComputeID persist typ) rows d d' -> only_flags d d'.
Proof.
  induction 1 as [d | row rows d d1 d2 Hrow _ IH]; [apply only_flags_refl |].
  eapply only_flags_trans; [eapply row_rel_only_flags; eauto | exact IH].
Qed.

(** A round on a row that has a balance flips its flag. *)
Lemma row_rel_left_lt typ row d d' :
  select_balances d row <> [] -> unflagged typ row d ->
  row_rel ComputeID persist typ row d d' -> flags_left d' < flags_left d.
Proof.
  intros Hne Hun. unfold row_rel.
  destruct (select_balances d row) as [| b0 bs]; [contradiction |].
  intros (bs' & d1 & Hins & ->). rewrite fold_set_accumulate_balances.
  apply inserted_flags_left in Hins. destruct Hins as (Hl & Hoaa & _).
  eapply Nat.lt_le_trans; [apply flip_left_lt | rewrite flags_left_balances, Hl; lia].
  destruct Hun as (s & Hin & Hrest). exists s. simpl. rewrite Hoaa. auto.
Qed.

Lemma out_pass_left_lt typ d d' :
  aggregations_nonempty d -> select_claim typ d <> [] ->
  iter (row_rel ComputeID persist typ) (select_claim typ d) d d' ->
  flags_left d' < flags_left d.
Proof.
  intros Hagg Hne Hit.
  destruct (select_claim typ d) as [| row rows] eqn:Hclaim; [contradiction |].
  assert (Hrow : In row (select_claim typ d)) by (rewrite Hclaim; left; reflexivity).
  inversion Hit as [| x l d0 d1 d2 Hfirst Hrest]; subst.
  apply iter_row_rel_only_flags in Hrest. apply only_flags_left in Hrest.
  eapply Nat.le_lt_trans; [exact Hrest |].
  apply (row_rel_left_lt typ row d d1); [| apply claim_unflagged; exact Hrow | exact Hfirst].
  assert (Hso : exists s o, In s (output_addresses_accumulate d) /\ In o (avm_outputs d) /\
                            oaa_id s = OAA_ID row /\ oaa_address s = OAA_Address row /\
                            out_id o = OAA_ID row).
  { destruct typ; simpl in Hrow.
    - apply In_select_claim_in in Hrow.
      destruct Hrow as (s & o & r & Hs & Ho & _ & Hid & Ha & _ & Hoid & _).
      exists s, o. auto.
    - apply In_select_claim_out in Hrow.
      destruct Hrow as (s & o & Hs & Ho & Hid & Ha & _ & Hoid).
      exists s, o. auto. }
  destruct Hso as (s & o & Hs & Ho & Hid & Ha & Hoid).
  pose proof (Hagg s o Hs Ho ltac:(congruence)) as H. rewrite Hid, Ha in H.
  destruct row; exact H.
Qed.

Lemma fold_mark_only_flags rows d :
  only_flags d
    (fold_left (fun d row => set_output_txs_accumulate (update_output_txs_accumulate row) d)
               rows d).
Proof.
  revert d. induction rows as [| row rows IH]; intros d; simpl; [apply only_flags_refl |].
  eapply only_flags_trans; [apply only_flags_mark | apply IH].
Qed.

Lemma txs_pass_left_lt d d' :
  select_claim_txs d <> [] -> txs_rel ComputeID persist (select_claim_txs d) d d' ->
  flags_left d' < flags_left d.
Proof.
  intros Hne. unfold txs_rel.
  destruct (select_claim_txs d) as [| row rows] eqn:Hclaim; [contradiction |].
  assert (Hrow : pending row (output_txs_accumulate d))
    by (apply claim_txs_pending; rewrite Hclaim; left; reflexivity).
  intros (bs' & d1 & Hins & ->). apply inserted_flags_left in Hins.
  destruct Hins as (Hl & _ & Hota). simpl fold_left at 1.
  eapply Nat.le_lt_trans; [apply only_flags_left; apply fold_mark_only_flags |].
  eapply Nat.lt_le_trans; [apply mark_left_lt |].
  - rewrite fold_set_accumulate_balances. simpl. rewrite Hota. exact Hrow.
  - rewrite fold_set_accumulate_balances, flags_left_balances, Hl. lia.
Qed.

End Progress.

Section Termination.

Variable ComputeID : string -> string -> string -> string + string.
Variable persist : Persist.
Hypothesis persist_ok : persist_contract persist.
Hypothesis ComputeID_total : forall c s a, exists id, ComputeID c s a = inr id.

Lemma process_row_calm typ row w :
  faults w = [] -> wp (process_row ComputeID persist typ row) calm_ok w.
Proof.
  intros Hf. unfold process_row. apply wp_bind. apply wp_query_calm; [exact Hf |].
  destruct (select_balances (db w) row) as [| b0 bs].
  - apply wp_emit. split; [exact Hf | eauto].
  - apply wp_bind.
    eapply wp_weaken;
      [apply (inserts_calm ComputeID persist persist_ok (fun b => b));
       [exact Hf | intros x _; apply ComputeID_total] |].
    intros r1 w1 [Hf1 [bs' ->]].
    apply wp_bind. unfold select_locked. apply wp_query_calm; [exact Hf1 |].
    apply wp_bind. eapply wp_weaken; [apply for_each_exec_calm; exact Hf1 |].
    intros r2 w2 [Hf2 [u2 ->]].
    apply wp_exec_calm; [exact Hf2 |]. split; [exact Hf2 | eauto].
Qed.

Lemma processOutputs_tx_calm typ w :
  faults w = [] -> wp (processOutputs_tx ComputeID persist typ) calm_ok w.
Proof.
  intros Hf. unfold processOutputs_tx.
  apply wp_bind. apply wp_query_calm; [exact Hf |].
  apply wp_bind. apply wp_emit.
  destruct (select_claim typ (db w)) as [| row0 rows].
  - apply wp_ret. split; [exact Hf | eauto].
  - apply wp_bind. eapply wp_weaken.
    + apply (wp_for_each _ (fun _ w' => faults w' = []) calm_ok); [| | exact Hf].
      * intros x rest w0 H0. eapply wp_weaken; [apply process_row_calm; exact H0 |].
        intros [e | []] w' [H1 [a Ha]]; [discriminate | exact H1].
      * intros w0 H0. split; [exact H0 | eauto].
    + intros r1 w1 [Hf1 [u ->]].
      apply wp_bind. unfold dbTx_Commit. apply wp_bind.
      apply wp_db_call_calm; [exact Hf1 |].
      unfold wp. simpl. split; [exact Hf1 | eauto].
Qed.

Lemma in_tx_calm (body : Tx nat) w :
  faults w = [] -> (forall w0, faults w0 = [] -> wp body calm_ok w0) ->
  exists cnt w', in_tx body w = ((cnt, None), w') /\ faults w' = [].
Proof.
  intros Hf Hbody. unfold in_tx, sess_Begin, bind. rewrite (db_call_no_fault w Hf).
  set (w0 := mk_World (db w) (Some (db w)) (faults w) (events w ++ [EvBegin])).
  pose proof (Hbody w0 Hf) as H. unfold wp in H.
  destruct (body w0) as [r w1]. simpl in H. destruct H as [Hf1 [n ->]].
  exists n, (RollbackUnlessCommitted w1). split; [reflexivity |].
  unfold RollbackUnlessCommitted. destruct (tx w1); exact Hf1.
Qed.

Lemma run_pass_calm p w :
  faults w = [] ->
  exists cnt w', run_pass ComputeID persist p w = ((cnt, None), w') /\ faults w' = [].
Proof.
  intros Hf. rewrite run_pass_in_tx. apply in_tx_calm; [exact Hf |].
  intros w0 Hf0. destruct p.
  - apply processOutputs_tx_calm. exact Hf0.
  - apply processOutputs_tx_calm. exact Hf0.
  - apply (processTransactions_tx_calm ComputeID persist persist_ok); [exact Hf0 |].
    intros row _. apply ComputeID_total.
Qed.

Lemma length_nonzero {A : Type} (l : list A) : List.length l <> 0 -> l <> [].
Proof. destruct l; simpl; [congruence | discriminate]. Qed.

(** One pass when nothing fails: it returns the length of its claim, and
    flips at least one flag when the claim is not empty. *)
Lemma run_pass_progress p w :
  faults w = [] -> aggregations_nonempty (db w) ->
  exists w',
    run_pass ComputeID persist p w = ((claim_len p (db w), None), w') /\
    faults w' = [] /\ aggregations_nonempty (db w') /\
    (claim_len p (db w) = 0 -> db w' = db w) /\
    (claim_len p (db w) <> 0 -> flags_left (db w') < flags_left (db w)).
Proof.
  intros Hf Hagg. destruct (run_pass_calm p w Hf) as (cnt & w' & Hrun & Hf').
  destruct (run_pass_result ComputeID persist p w cnt None w' Hrun)
    as [_ Hcnt Hsteps Hundone].
  subst cnt. exists w'. split; [exact Hrun | split; [exact Hf' | split; [| split]]].
  - eapply only_flags_aggregations; [| exact Hagg].
    eapply pass_steps_only_flags; eauto.
  - intros H0. apply Hundone. right. exact H0.
  - intros Hne. apply run_pass_ok in Hrun. destruct p; simpl in Hrun, Hne.
    + apply (out_pass_left_lt ComputeID persist processTypeOut); auto.
      apply length_nonzero. exact Hne.
    + apply (out_pass_left_lt ComputeID persist processTypeIn); auto.
      apply length_nonzero. exact Hne.
    + apply (txs_pass_left_lt ComputeID persist); auto.
      apply length_nonzero. exact Hne.
Qed.

Lemma pass_loop_calm fuel p icnt w :
  faults w = [] -> aggregations_nonempty (db w) -> flags_left (db w) < fuel ->
  exists icnt' w',
    pass_loop ComputeID persist fuel p icnt w = (Returned (inr icnt'), w') /\
    faults w' = [] /\ aggregations_nonempty (db w') /\
    ((icnt' = icnt /\ db w' = db w) \/
     (icnt' = 0 /\ flags_left (db w') < flags_left (db w))).
Proof.
  revert icnt w. induction fuel as [| fuel IH]; intros icnt w Hf Hagg Hfuel; [lia |].
  destruct (run_pass_progress p w Hf Hagg) as (w1 & Hrun & Hf1 & Hagg1 & Hzero & Hless).
  cbn [pass_loop]. rewrite Hrun.
  destruct (Nat.eq_dec (claim_len p (db w)) 0) as [E | E].
  - rewrite E. simpl. exists icnt, w1.
    split; [reflexivity | split; [exact Hf1 | split; [exact Hagg1 |]]].
    left. split; [reflexivity | apply Hzero; exact E].
  - specialize (Hless E).
    assert (Hpos : (0 <? claim_len p (db w))%nat = true) by (apply Nat.ltb_lt; lia).
    rewrite Hpos. destruct (claim_len p (db w) <? RowLintValue)%nat.
    + exists 0, w1.
      split; [reflexivity | split; [exact Hf1 | split; [exact Hagg1 |]]].
      right. split; [reflexivity | exact Hless].
    + destruct (IH 0 w1 Hf1 Hagg1 ltac:(lia)) as (icnt' & w' & Hloop & Hf' & Hagg' & Hcase).
      exists icnt', w'. split; [exact Hloop | split; [exact Hf' | split; [exact Hagg' |]]].
      right. destruct Hcase as [[-> Hdb] | [-> Hlt]]; [rewrite Hdb | ]; split; auto; lia.
Qed.

Lemma sweep_calm fuel icnt w :
  faults w = [] -> aggregations_nonempty (db w) -> flags_left (db w) < fuel ->
  exists icnt' w',
    sweep ComputeID persist fuel icnt w = (Returned (inr icnt'), w') /\
    faults w' = [] /\ aggregations_nonempty (db w') /\
    ((icnt' = icnt /\ db w' = db w) \/
     (icnt' = 0 /\ flags_left (db w') < flags_left (db w))).
Proof.
  intros Hf Hagg Hfuel. unfold sweep.
  destruct (pass_loop_calm fuel PassOut icnt w Hf Hagg Hfuel)
    as (i1 & w1 & H1 & Hf1 & Hagg1 & Hc1).
  rewrite H1.
  assert (Hl1 : flags_left (db w1) <= flags_left (db w))
    by (destruct Hc1 as [[_ ->] | [_ Hlt]]; lia).
  destruct (pass_loop_calm fuel PassIn i1 w1 Hf1 Hagg1 ltac:(lia))
    as (i2 & w2 & H2 & Hf2 & Hagg2 & Hc2).
  rewrite H2.
  assert (Hl2 : flags_left (db w2) <= flags_left (db w1))
    by (destruct Hc2 as [[_ ->] | [_ Hlt]]; lia).
  destruct (pass_loop_calm fuel PassTxs i2 w2 Hf2 Hagg2 ltac:(lia))
    as (i3 & w3 & H3 & Hf3 & Hagg3 & Hc3).
  exists i3, w3. split; [exact H3 | split; [exact Hf3 | split; [exact Hagg3 |]]].
  destruct Hc3 as [[-> Hd3] | [-> Hlt3]].
  - destruct Hc2 as [[-> Hd2] | [-> Hlt2]].
    + destruct Hc1 as [[-> Hd1] | [-> Hlt1]].
      * left. split; [reflexivity | congruence].
      * right. split; [reflexivity | rewrite Hd3, Hd2; exact Hlt1].
    + right. split; [reflexivity | rewrite Hd3; lia].
  - right. split; [reflexivity | lia].
Qed.

Lemma Accumulate_loop_calm fuel icnt w :
  faults w = [] -> aggregations_nonempty (db w) ->
  10 * flags_left (db w) + (10 - icnt) <= fuel ->
  exists w', Accumulate_loop ComputeID persist fuel icnt w = (Returned None, w').
Proof.
  revert icnt w. induction fuel as [| fuel IH]; intros icnt w Hf Hagg Hfuel.
  - cbn [Accumulate_loop]. destruct (icnt <? 10)%nat eqn:E; [| eauto].
    apply Nat.ltb_lt in E. lia.
  - cbn [Accumulate_loop]. destruct (icnt <? 10)%nat eqn:E; [| eauto].
    apply Nat.ltb_lt in E.
    destruct (sweep_calm (S fuel) icnt w Hf Hagg ltac:(lia))
      as (icnt' & w1 & Hsweep & Hf1 & Hagg1 & Hcase).
    rewrite Hsweep. apply IH; [exact Hf1 | exact Hagg1 |].
    destruct Hcase as [[-> Hdb] | [-> Hlt]]; [rewrite Hdb |]; lia.
Qed.

(** The loop ends.  With no fault, a key computation that does not fail
    and a balance for every staging row that has an output, [Accumulate]
    returns nil within [10 * n + 10] rounds, where [n] is the number of
    flags at 0 in the staging tables, and it leaves nothing to claim. *)
Theorem accumulate_terminates (fuel : nat) (w : World) :
  faults w = [] -> aggregations_nonempty (db w) ->
  10 * flags_left (db w) + 10 <= fuel ->
  fst (Accumulate ComputeID persist fuel w) = Returned None /\
  quiescent (db (snd (Accumulate ComputeID persist fuel w))).
Proof.
  intros Hf Hagg Hfuel. unfold Accumulate.
  set (w0 := mk_World (db w) (tx w) (faults w) (events w ++ [EvNewJob "accumulate"])).
  destruct (Accumulate_loop_calm fuel 0 w0 Hf Hagg ltac:(simpl; lia)) as (w' & Hrun).
  rewrite Hrun. split; [reflexivity |]. simpl.
  apply Accumulate_loop_trace in Hrun.
  destruct Hrun as (_ & _ & _ & _ & _ & _ & [(Hge & _) | Hq]); [lia | exact Hq].
Qed.

End Termination.

(** * The loop stops at the first error *)

Section FirstError.

Variable ComputeID : string -> string -> string -> string + string.
Variable persist : Persist.

Lemma passes_ok_trans w1 w2 w3 :
  passes_ok ComputeID persist w1 w2 -> passes_ok ComputeID persist w2 w3 ->
  passes_ok ComputeID persist w1 w3.
Proof.
  induction 1 as [w | w p cnt wa wb Hrun _ IH]; intros H23; [exact H23 |].
  eapply passes_ok_step; [exact Hrun | apply IH; exact H23].
Qed.

Lemma passes_ok_one w p cnt w1 :
  run_pass ComputeID persist p w = ((cnt, None), w1) -> passes_ok ComputeID persist w w1.
Proof. intros H. eapply passes_ok_step; [exact H | apply passes_ok_refl]. Qed.

Lemma ended_by_after {A : Type} w0 w (r : Outcome A) err w' :
  passes_ok ComputeID persist w0 w -> ended_by ComputeID persist w r err w' ->
  ended_by ComputeID persist w0 r err w'.
Proof.
  intros H0. unfold ended_by. destruct r as [a |].
  - destruct (err a) as [e |].
    + intros (w1 & p & H1 & Hrun & Hdb). exists w1, p.
      split; [eapply passes_ok_trans; eauto | auto].
    + intros H. eapply passes_ok_trans; eauto.
  - intros H. eapply passes_ok_trans; eauto.
Qed.

Lemma pass_loop_ended fuel p icnt w :
  ended_by ComputeID persist w (fst (pass_loop ComputeID persist fuel p icnt w)) loop_error
    (snd (pass_loop ComputeID persist fuel p icnt w)).
Proof.
  revert icnt w. induction fuel as [| fuel IH]; intros icnt w; cbn [pass_loop].
  - apply passes_ok_refl.
  - destruct (run_pass ComputeID persist p w) as [[cnt [e |]] w1] eqn:Hrun.
    + destruct (run_pass_result ComputeID persist p w cnt (Some e) w1 Hrun)
        as [_ Hcnt _ Hundone].
      subst cnt. simpl. exists w, p.
      split; [apply passes_ok_refl | split; [exact Hrun |]].
      apply Hundone. left. discriminate.
    + destruct (cnt <? RowLintValue)%nat.
      * simpl. eapply passes_ok_one; eauto.
      * eapply ended_by_after; [eapply passes_ok_one; eauto | apply IH].
Qed.

Lemma sweep_ended fuel icnt w :
  ended_by ComputeID persist w (fst (sweep ComputeID persist fuel icnt w)) loop_error
    (snd (sweep ComputeID persist fuel icnt w)).
Proof.
  unfold sweep.
  pose proof (pass_loop_ended fuel PassOut icnt w) as H1.
  destruct (pass_loop ComputeID persist fuel PassOut icnt w) as [[[e | i1] |] w1];
    try exact H1.
  simpl in H1.
  pose proof (pass_loop_ended fuel PassIn i1 w1) as H2.
  destruct (pass_loop ComputeID persist fuel PassIn i1 w1) as [[[e | i2] |] w2];
    try (eapply ended_by_after; [exact H1 | exact H2]).
  simpl in H2.
  eapply ended_by_after; [eapply passes_ok_trans; eauto | apply pass_loop_ended].
Qed.

Lemma Accumulate_loop_ended fuel icnt w :
  ended_by ComputeID persist w (fst (Accumulate_loop ComputeID persist fuel icnt w))
    (fun err => err) (snd (Accumulate_loop ComputeID persist fuel icnt w)).
Proof.
  revert icnt w. induction fuel as [| fuel IH]; intros icnt w; cbn [Accumulate_loop].
  - destruct (icnt <? 10)%nat; apply passes_ok_refl.
  - destruct (icnt <? 10)%nat; [| apply passes_ok_refl].
    pose proof (sweep_ended (S fuel) icnt w) as H1.
    destruct (sweep ComputeID persist (S fuel) icnt w) as [[[e | i1] |] w1];
      try exact H1.
    simpl in H1. eapply ended_by_after; [exact H1 | apply IH].
Qed.

(** [Accumulate] returns an error only when a pass has returned it, and
    it returns at once: the world it leaves is the one that pass left,
    with the tables the pass found, since the pass rolled back; every
    pass before it returned no error, so what those committed is kept.
    When it returns nil, or is cut short, no pass it ran returned an
    error. *)
Theorem accumulate_stops_at_first_error (fuel : nat) (w : World) :
  let w0 := mk_World (db w) (tx w) (faults w) (events w ++ [EvNewJob "accumulate"]) in
  let r := Accumulate ComputeID persist fuel w in
  (forall e, fst r = Returned (Some e) ->
     exists w1 p,
       passes_ok ComputeID persist w0 w1 /\
       run_pass ComputeID persist p w1 = ((0, Some e), snd r) /\
       db (snd r) = db w1) /\
  (fst r = Returned None \/ fst r = OutOfFuel -> passes_ok ComputeID persist w0 (snd r)).
Proof.
  intros w0 r. pose proof (Accumulate_loop_ended fuel 0 w0) as H.
  change (Accumulate_loop ComputeID persist fuel 0 w0) with r in H.
  unfold ended_by in H. split.
  - intros e He. rewrite He in H. exact H.
  - intros [He | He]; rewrite He in H; exact H.
Qed.

End FirstError.

(** * The runner: progress and reuse of the slot *)

Lemma count_pos_exists {A : Type} (p : A -> bool) l :
  0 < count p l -> exists i x, nth_error l i = Some x /\ p x = true.
Proof.
  unfold count. induction l as [| y l IH]; simpl; [lia |].
  destruct (p y) eqn:E.
  - intros _. exists 0, y. auto.
  - intros H. destruct (IH H) as (i & x & Hn & Hp). exists (S i), x. auto.
Qed.

Lemma replace_nth_last {A : Type} (l : list A) x y :
  replace_nth (List.length l) y (l ++ [x]) = l ++ [y].
Proof. induction l as [| z l IH]; simpl; [reflexivity | rewrite IH; reflexivity]. Qed.

Lemma nth_error_last {A : Type} (l : list A) x :
  nth_error (l ++ [x]) (List.length l) = Some x.
Proof. induction l as [| z l IH]; simpl; [reflexivity | exact IH]. Qed.

Lemma holder_can_step s j pc :
  nth_error (callers s) j = Some pc -> caller_holds_lock pc = true ->
  exists s', step (StepCaller j) s = Some s'.
Proof.
  intros Hn Hh. simpl. rewrite Hn. destruct pc; simpl in Hh; try discriminate; simpl; eauto.
Qed.

(** The protocol cannot get stuck.  In every state the runner can reach,
    a call that has not returned can take its next step, unless it waits
    at [Lock] while another call holds the mutex, and that call can take
    its next step: the mutex is never left held by a call that has
    returned.  A task that has not exited can always take its next
    step. *)
Theorem runner_makes_progress (ls : list Label) (s : Runner) :
  run ls new_Runner = Some s ->
  (forall i pc,
      nth_error (callers s) i = Some pc -> caller_returned pc = false ->
      (exists s', step (StepCaller i) s = Some s') \/
      (pc = AtLock /\
       exists j pcj s',
         nth_error (callers s) j = Some pcj /\ caller_holds_lock pcj = true /\
         step (StepCaller j) s = Some s')) /\
  (forall i pc a,
      nth_error (tasks s) i = Some pc -> task_in_flight pc = true ->
      exists s', step (StepTask i a) s = Some s').
Proof.
  intros Hrun. pose proof (run_inv ls new_Runner s new_Runner_inv Hrun) as [_ Hl _ _].
  split.
  - intros i pc Hn Hret.
    destruct pc; simpl in Hret; try discriminate;
      try (left; simpl; rewrite Hn; simpl; eauto; fail).
    destruct (lock_held s) eqn:El.
    + right. split; [reflexivity |].
      destruct (count_pos_exists caller_holds_lock (callers s) ltac:(lia))
        as (j & pcj & Hj & Hh).
      destruct (holder_can_step s j pcj Hj Hh) as (s' & Hs').
      exists j, pcj, s'. auto.
    + left. simpl. rewrite Hn. simpl. rewrite El. eauto.
  - intros i pc a Hn Hfl. simpl. rewrite Hn.
    destruct pc; simpl in Hfl; try discriminate; simpl; eauto.
Qed.

Lemma all_returned_counts l :
  (forall pc, In pc l -> caller_returned pc = true) ->
  count caller_spawning l = 0 /\ count caller_holds_lock l = 0.
Proof.
  unfold count. induction l as [| pc l IH]; intros H; simpl; [auto |].
  pose proof (H pc (or_introl eq_refl)) as Hpc.
  destruct (IH (fun pc' Hin => H pc' (or_intror Hin))) as [I1 I2].
  destruct pc; simpl in Hpc; try discriminate; simpl; auto.
Qed.

Lemma one_call_alone_spawns s :
  running s = 0%Z -> lock_held s = false ->
  run (one_call_alone s) s =
  Some (mk_Runner 1 false (callers s ++ [CallerReturned true])
                  (tasks s ++ [TaskAccumulate])).
Proof.
  destruct s as [r lk cs ts]. simpl. intros -> ->. unfold one_call_alone.
  cbn [callers repeat run]. cbn [step running lock_held callers tasks].
  do 6 (rewrite nth_error_last; simpl; rewrite replace_nth_last).
  reflexivity.
Qed.

(** The slot is released.  When the runner has reached a state where no
    task is in flight and every call has returned, one more call of
    [Run], run to its end, spawns a task and reports it: the counter is
    back at 0 and the mutex is free. *)
Theorem runner_slot_is_reusable (ls : list Label) (s : Runner) :
  run ls new_Runner = Some s ->
  in_flight s = 0 ->
  (forall pc, In pc (callers s) -> caller_returned pc = true) ->
  running s = 0%Z /\ lock_held s = false /\
  run (ls ++ one_call_alone s) new_Runner =
  Some (mk_Runner 1 false (callers s ++ [CallerReturned true])
                  (tasks s ++ [TaskAccumulate])).
Proof.
  intros Hrun Hfl Hret.
  pose proof (run_inv ls new_Runner s new_Runner_inv Hrun) as [Hc Hl _ _].
  destruct (all_returned_counts (callers s) Hret) as [C1 C2].
  assert (Hr : running s = 0%Z) by lia.
  assert (Hk : lock_held s = false) by (destruct (lock_held s); [lia | reflexivity]).
  split; [exact Hr | split; [exact Hk |]].
  assert (Happ : forall l1 l2 s0, run (l1 ++ l2) s0 =
                                  match run l1 s0 with
                                  | Some s1 => run l2 s1
                                  | None => None
                                  end).
  { induction l1 as [| l l1 IH]; intros l2 s0; simpl; [reflexivity |].
    destruct (step l s0); [apply IH | reflexivity]. }
  rewrite Happ, Hrun. apply one_call_alone_spawns; assumption.
Qed.

Lemma length_replace_nth {A : Type} i (x : A) l :
  List.length (replace_nth i x l) = List.length l.
Proof.
  revert i. induction l as [| y l IH]; intros [| i]; simpl; try reflexivity.
  rewrite IH. reflexivity.
Qed.

Lemma step_spawned l s s' :
  List.length (tasks s) = count caller_spawned (callers s) ->
  step l s = Some s' ->
  List.length (tasks s') = count caller_spawned (callers s').
Proof.
  intros Hinv Hstep. destruct l as [| i | i a]; simpl in Hstep.
  - inversion Hstep; subst s'. simpl. rewrite count_app. simpl.
    change (count caller_spawned [AtFastLoad]) with 0. lia.
  - destruct (nth_error (callers s) i) as [pc |] eqn:Hn; [| discriminate].
    destruct pc; simpl in Hstep;
      try (destruct (running s =? 0)%Z);
      try (destruct (lock_held s); [discriminate |]);
      try discriminate;
      inversion Hstep; subst s'; clear Hstep; simpl;
      match goal with |- context [replace_nth i ?x _] =>
        pose proof (count_replace_nth caller_spawned i x _ _ Hn) as C; simpl in C end;
      rewrite ?length_app; simpl; lia.
  - destruct (nth_error (tasks s) i) as [pc |] eqn:Hn; [| discriminate].
    destruct pc; simpl in Hstep; try discriminate;
      inversion Hstep; subst s'; simpl; rewrite length_replace_nth; exact Hinv.
Qed.

(** One task per call that spawns.  In every state the runner can reach,
    the tasks ever started are as many as the calls that went through
    the [go] statement; a call that returned at one of the two loads
    started none. *)
Theorem one_task_per_spawning_call (ls : list Label) (s : Runner) :
  run ls new_Runner = Some s ->
  List.length (tasks s) = count caller_spawned (callers s).
Proof.
  assert (H : forall ls s0 s1,
             List.length (tasks s0) = count caller_spawned (callers s0) ->
             run ls s0 = Some s1 ->
             List.length (tasks s1) = count caller_spawned (callers s1)).
  { clear. induction ls as [| l ls IH]; intros s0 s1 Hinv Hrun; simpl in Hrun.
    - inversion Hrun; subst. exact Hinv.
    - destruct (step l s0) as [s' |] eqn:E; [| discriminate].
      apply (IH s' s1); [eapply step_spawned; eauto | exact Hrun]. }
  intros Hrun. apply (H ls new_Runner s); [reflexivity | exact Hrun].
Qed.

(** * The retry test is a substring test *)

Lemma prefix_iff (a s : string) : String.prefix a s = true <-> exists q, s = (a ++ q)%string.
Proof.
  revert s. induction a as [| c a IH]; intros s.
  - split; [intros _; exists s; reflexivity | intros _; destruct s; reflexivity].
  - destruct s as [| c' s]; simpl.
    + split; [discriminate | intros (q & Hq); discriminate].
    + destruct (Ascii.ascii_dec c c') as [-> | Hne].
      * rewrite IH. split; intros (q & Hq); exists q; [rewrite Hq; reflexivity |].
        inversion Hq. reflexivity.
      * split; [discriminate |]. intros (q & Hq). inversion Hq. congruence.
Qed.

Lemma Contains_iff (s sub : string) :
  Contains s sub = true <-> exists p q, s = (p ++ sub ++ q)%string.
Proof.
  induction s as [| c s IH].
  - cbn [Contains]. rewrite orb_false_r, prefix_iff. split.
    + intros (q & Hq). exists EmptyString, q. exact Hq.
    + intros (p & q & Hq). destruct p; [exists q; exact Hq | discriminate].
  - cbn [Contains]. rewrite orb_true_iff, prefix_iff, IH. split.
    + intros [(q & Hq) | (p & q & Hq)].
      * exists EmptyString, q. exact Hq.
      * exists (String c p), q. simpl. rewrite Hq. reflexivity.
    + intros (p & q & Hq). destruct p as [| c' p].
      * left. exists q. exact Hq.
      * right. simpl in Hq. inversion Hq. exists p, q. reflexivity.
Qed.

Section RetryTest.

Variable ComputeID : string -> string -> string -> string + string.
Variable persist : Persist.

(** The retry loop looks for the deadlock message anywhere in the error:
    when an attempt returns the error [e], the attempt is repeated after
    a sleep of 1 ms exactly when [e] is the deadlock message with any
    text before and after it, and the loop ends with [e] otherwise. *)
Theorem retry_is_by_substring (fuel accfuel : nat) (w w1 : World) (e : string) :
  Accumulate ComputeID persist accfuel w = (Returned (Some e), w1) ->
  ((exists p q, e = (p ++ DeadlockDBErrorMessage ++ q)%string) ->
   Run_retry ComputeID persist (S fuel) accfuel w =
   Run_retry ComputeID persist fuel accfuel (sleep_1ms w1)) /\
  (~ (exists p q, e = (p ++ DeadlockDBErrorMessage ++ q)%string) ->
   Run_retry ComputeID persist (S fuel) accfuel w = (Returned (Some e), w1)).
Proof.
  intros Hacc. cbn [Run_retry]. rewrite Hacc.
  destruct (Contains e DeadlockDBErrorMessage) eqn:E.
  - split; [reflexivity |]. intros Hn. exfalso. apply Hn. apply Contains_iff. exact E.
  - split; [| reflexivity]. intros Hex. apply Contains_iff in Hex. congruence.
Qed.

End RetryTest.

(** * The error a pass returns *)

Lemma spent_refl fs : spent fs fs.
Proof. exists 0. reflexivity. Qed.

Lemma spent_None fs0 fs : spent fs0 (None :: fs) -> spent fs0 fs.
Proof.
  intros (n & ->). exists (S n).
  change (None :: fs) with ([None] ++ fs). rewrite app_assoc, <- repeat_cons. reflexivity.
Qed.

Section PassErrors.

Variable ComputeID : string -> string -> string -> string + string.
Variable persist : Persist.

Lemma accounts_ret {A : Type} (a : A) : accounts ComputeID persist (ret a).
Proof. intros fs0 w H. exact H. Qed.

Lemma accounts_bind {A B : Type} (m : Tx A) (k : A -> Tx B) :
  accounts ComputeID persist m -> (forall a, accounts ComputeID persist (k a)) -> accounts ComputeID persist (bind m k).
Proof.
  intros Hm Hk fs0 w H. specialize (Hm fs0 w H). unfold bind.
  destruct (m w) as [[e | a] w1]; simpl in *; [exact Hm | apply Hk; exact Hm].
Qed.

Lemma accounts_db_call : accounts ComputeID persist db_call.
Proof.
  intros fs0 w H. unfold db_call. destruct (faults w) as [| [e |] fs] eqn:E; simpl.
  - rewrite E. exact H.
  - left. exact H.
  - apply spent_None. exact H.
Qed.

(** A step that calls nothing and keeps the schedule. *)
Lemma accounts_pure {A : Type} (m : Tx A) :
  (forall w, faults (snd (m w)) = faults w /\
             match fst (m w) with
             | inr _ => True
             | inl e => own_error ComputeID persist e
             end) ->
  accounts ComputeID persist m.
Proof.
  intros Hm fs0 w H. destruct (Hm w) as [Hf Hr]. unfold accounted.
  destruct (fst (m w)); rewrite Hf; [right; auto | exact H].
Qed.

Lemma accounts_emit ev : accounts ComputeID persist (emit ev).
Proof. apply accounts_pure. intros w. simpl. auto. Qed.

Lemma accounts_query {A : Type} (q : DB -> A) : accounts ComputeID persist (query q).
Proof.
  unfold query. apply accounts_bind; [apply accounts_db_call |].
  intros _. apply accounts_pure. intros w. simpl. auto.
Qed.

Lemma accounts_exec (f : DB -> DB) : accounts ComputeID persist (exec f).
Proof.
  unfold exec. apply accounts_bind; [apply accounts_db_call |].
  intros _. apply accounts_pure. intros w. simpl. auto.
Qed.

Lemma accounts_for_each {A : Type} (body : A -> Tx unit) l :
  (forall x, accounts ComputeID persist (body x)) -> accounts ComputeID persist (for_each l body).
Proof.
  intros Hbody. induction l as [| x l IH]; simpl.
  - apply accounts_ret.
  - apply accounts_bind; [apply Hbody | intros _; exact IH].
Qed.

Lemma accounts_for_each_collect {A B : Type} (body : A -> Tx B) l :
  (forall x, accounts ComputeID persist (body x)) -> accounts ComputeID persist (for_each_collect l body).
Proof.
  intros Hbody. induction l as [| x l IH]; simpl.
  - apply accounts_ret.
  - apply accounts_bind; [apply Hbody | intros y].
    apply accounts_bind; [exact IH | intros ys; apply accounts_ret].
Qed.

Lemma accounts_compute_and_insert b : accounts ComputeID persist (compute_and_insert ComputeID persist b).
Proof.
  unfold compute_and_insert. apply accounts_bind.
  - apply accounts_pure. intros w. unfold AB_ComputeID.
    destruct (ComputeID (AB_ChainID b) (AB_AssetID b) (AB_Address b)) as [e | id] eqn:E;
      simpl; [| auto].
    split; [reflexivity |]. left. eauto.
  - intros b'. apply accounts_bind; [| intros _; apply accounts_ret].
    unfold persist_InsertAccumulateBalances.
    apply accounts_bind; [apply accounts_db_call |].
    intros _. apply accounts_pure. intros w.
    destruct (InsertAccumulateBalances persist b' (accumulate_balances (db w)))
      as [e | tbl] eqn:E; simpl; [| auto].
    split; [reflexivity |]. right. eauto.
Qed.

Lemma accounts_Commit : accounts ComputeID persist dbTx_Commit.
Proof.
  unfold dbTx_Commit. apply accounts_bind; [apply accounts_db_call |].
  intros _. apply accounts_pure. intros w. simpl. auto.
Qed.

Lemma accounts_process_row typ row : accounts ComputeID persist (process_row ComputeID persist typ row).
Proof.
  unfold process_row. apply accounts_bind; [apply accounts_query |].
  intros [| b0 bs]; [apply accounts_emit |].
  apply accounts_bind;
    [apply accounts_for_each_collect; intros b; apply accounts_compute_and_insert |].
  intros bs'. apply accounts_bind; [apply accounts_query |].
  intros _. apply accounts_bind; [| intros _; apply accounts_exec].
  apply accounts_for_each. intros b. apply accounts_exec.
Qed.

Lemma accounts_processOutputs_tx typ : accounts ComputeID persist (processOutputs_tx ComputeID persist typ).
Proof.
  unfold processOutputs_tx. apply accounts_bind; [apply accounts_query |].
  intros rows. apply accounts_bind; [apply accounts_emit |].
  intros _. destruct rows as [| row0 rows]; [apply accounts_ret |].
  apply accounts_bind;
    [apply accounts_for_each; intros row; apply accounts_process_row |].
  intros _. apply accounts_bind; [apply accounts_Commit | intros _; apply accounts_ret].
Qed.

Lemma accounts_processTransactions_tx : accounts ComputeID persist (processTransactions_tx ComputeID persist).
Proof.
  unfold processTransactions_tx. apply accounts_bind; [apply accounts_query |].
  intros rows. apply accounts_bind; [apply accounts_emit |].
  intros _. destruct rows as [| row0 rows]; [apply accounts_ret |].
  apply accounts_bind;
    [apply accounts_for_each_collect; intros b; apply accounts_compute_and_insert |].
  intros bs'. apply accounts_bind; [apply accounts_query |].
  intros _. apply accounts_bind; [apply accounts_for_each; intros b; apply accounts_exec |].
  intros _. apply accounts_bind; [apply accounts_for_each; intros b; apply accounts_exec |].
  intros _. apply accounts_bind; [apply accounts_Commit | intros _; apply accounts_ret].
Qed.

Lemma in_tx_accounted (body : Tx nat) w cnt err w' :
  accounts ComputeID persist body -> in_tx body w = ((cnt, err), w') ->
  accounted ComputeID persist (faults w) (match err with
                        | Some e => inl e
                        | None => inr cnt
                        end) w'.
Proof.
  intros Hbody Hrun. unfold in_tx in Hrun.
  assert (Hb : accounts ComputeID persist sess_Begin).
  { unfold sess_Begin. apply accounts_bind; [apply accounts_db_call |].
    intros _. apply accounts_pure. intros w0. simpl. auto. }
  specialize (Hb (faults w) w (spent_refl _)).
  destruct (sess_Begin w) as [[e | []] w0]; simpl in Hb.
  - inversion Hrun; subst. exact Hb.
  - specialize (Hbody (faults w) w0 Hb). destruct (body w0) as [r w1]. simpl in Hbody.
    assert (Hf : faults (RollbackUnlessCommitted w1) = faults w1)
      by (unfold RollbackUnlessCommitted; destruct (tx w1); reflexivity).
    destruct r as [e | n]; inversion Hrun; subst; simpl in *; rewrite Hf; exact Hbody.
Qed.

Lemma run_pass_accounted p w cnt err w' :
  run_pass ComputeID persist p w = ((cnt, err), w') ->
  accounted ComputeID persist (faults w) (match err with
                                          | Some e => inl e
                                          | None => inr cnt
                                          end) w'.
Proof.
  rewrite run_pass_in_tx. intros Hrun. apply in_tx_accounted in Hrun; [exact Hrun |].
  destruct p; [apply accounts_processOutputs_tx | apply accounts_processOutputs_tx |
               apply accounts_processTransactions_tx].
Qed.

(** The error of a pass is the error of its first statement that failed.
    A pass that returns no error made only driver calls that succeeded;
    a pass that returns an error returns, unchanged, the error of the
    first driver call that failed, after which it made no other call,
    or the error of [ComputeID] or of [InsertAccumulateBalances]. *)
Theorem pass_returns_first_failure (p : Pass) (w w' : World) (cnt : nat)
    (err : option string) :
  run_pass ComputeID persist p w = ((cnt, err), w') ->
  match err with
  | None => spent (faults w) (faults w')
  | Some e =>
      (exists n, faults w = repeat None n ++ Some e :: faults w') \/
      (own_error ComputeID persist e /\ spent (faults w) (faults w'))
  end.
Proof.
  intros Hrun. apply run_pass_accounted in Hrun. destruct err; exact Hrun.
Qed.

End PassErrors.

(** * Outputs are accumulated before their redemption *)

Lemma firstn_short {A : Type} n (l : list A) :
  List.length (firstn n l) < n -> firstn n l = l.
Proof. rewrite length_firstn. intros H. apply firstn_all2. lia. Qed.

Lemma flag_grows_refl typ s : flag_grows typ s s.
Proof. unfold flag_grows. auto. Qed.

Lemma flag_grows_trans typ s1 s2 s3 :
  flag_grows typ s1 s2 -> flag_grows typ s2 s3 -> flag_grows typ s1 s3.
Proof.
  unfold flag_grows. intros (A1 & A2 & A3 & A4) (B1 & B2 & B3 & B4).
  repeat split; try congruence.
  destruct B4 as [B4 | B4]; [rewrite B4; exact A4 | right; exact B4].
Qed.

Lemma flag_grows_flip typ s : flag_grows typ s (flip_flag typ s).
Proof. destruct typ; unfold flag_grows; simpl; auto. Qed.

Lemma only_flags_binary d d' : only_flags d d' -> flags_binary d -> flags_binary d'.
Proof.
  intros (_ & Hs & _) Hb s' Hs'.
  destruct (Forall2_In_r _ _ _ _ Hs Hs') as (s & Hin & (_ & _ & [E | E] & _)).
  - rewrite E. apply Hb. exact Hin.
  - right. exact E.
Qed.

Lemma only_flags_out_complete d d' : only_flags d d' -> out_complete d -> out_complete d'.
Proof.
  intros (Hsame & Hs & _) Hc s' o Hs' Ho Hid Hbal.
  destruct (Forall2_In_r _ _ _ _ Hs Hs') as (s & Hin & (E1 & E2 & E3 & _)).
  rewrite (select_balances_inputs d d' _ Hsame), E1, E2 in Hbal.
  destruct Hsame as (Eo & _). rewrite Eo in Ho.
  pose proof (Hc s o Hin Ho ltac:(congruence) Hbal) as Hne.
  destruct E3 as [E3 | E3]; rewrite E3; [exact Hne | discriminate].
Qed.

Lemma flag_grows_out_keeps d d' :
  Forall2 (flag_grows processTypeOut)
    (output_addresses_accumulate d) (output_addresses_accumulate d') ->
  in_after_out d -> in_after_out d'.
Proof.
  intros Hs Hio s' Hs' Hin'.
  destruct (Forall2_In_r _ _ _ _ Hs Hs') as (s & Hin & (_ & _ & E3 & E4)).
  simpl in E3, E4. destruct E4 as [E4 | E4]; [| exact E4].
  rewrite E4. apply Hio; [exact Hin | congruence].
Qed.

Section Order.

Variable ComputeID : string -> string -> string -> string + string.
Variable persist : Persist.

Lemma out_step_flag_grows typ rows d d' :
  out_step persist typ rows d d' ->
  Forall2 (flag_grows typ) (output_addresses_accumulate d) (output_addresses_accumulate d').
Proof.
  intros H. inversion H; subst; simpl.
  - apply Forall2_refl_on. apply flag_grows_refl.
  - apply Forall2_refl_on. apply flag_grows_refl.
  - unfold update_output_addresses_accumulate. apply Forall2_map_r. intros s.
    destruct (_ && _); [apply flag_grows_flip | apply flag_grows_refl].
Qed.

Lemma out_steps_flag_grows typ rows d d' :
  clos_refl_trans DB (out_step persist typ rows) d d' ->
  Forall2 (flag_grows typ) (output_addresses_accumulate d) (output_addresses_accumulate d').
Proof.
  induction 1 as [d d' H | d | d1 d2 d3 _ IH1 _ IH2].
  - eapply out_step_flag_grows; eauto.
  - apply Forall2_refl_on. apply flag_grows_refl.
  - eapply Forall2_trans_on; eauto. apply flag_grows_trans.
Qed.

Lemma txs_steps_keep_staging rows d d' :
  clos_refl_trans DB (txs_step persist rows) d d' ->
  output_addresses_accumulate d' = output_addresses_accumulate d.
Proof.
  induction 1 as [d d' H | d | d1 d2 d3 _ IH1 _ IH2].
  - inversion H; subst; reflexivity.
  - reflexivity.
  - congruence.
Qed.

(** The outputs-out pass and the transaction pass keep the order. *)
Lemma run_pass_keeps_order p w :
  p <> PassIn ->
  flags_binary (db w) /\ in_after_out (db w) ->
  flags_binary (db (snd (run_pass ComputeID persist p w))) /\
  in_after_out (db (snd (run_pass ComputeID persist p w))).
Proof.
  intros Hp [Hb Hio].
  destruct (run_pass ComputeID persist p w) as [[cnt err] w'] eqn:Hrun.
  destruct (run_pass_result ComputeID persist p w cnt err w' Hrun) as [_ _ Hsteps _].
  simpl. split.
  - eapply only_flags_binary; [eapply pass_steps_only_flags; eauto | exact Hb].
  - destruct p; [| contradiction |].
    + eapply flag_grows_out_keeps; [| exact Hio].
      eapply out_steps_flag_grows. exact Hsteps.
    + apply txs_steps_keep_staging in Hsteps. intros s Hs. rewrite Hsteps in Hs.
      apply Hio. exact Hs.
Qed.

(** A round of the outputs-in pass on a row that has an output. *)
Lemma row_rel_in_keeps_order row d d' :
  (exists o, In o (avm_outputs d) /\ out_id o = OAA_ID row) ->
  out_complete d -> flags_binary d -> in_after_out d ->
  row_rel ComputeID persist processTypeIn row d d' -> in_after_out d'.
Proof.
  intros (o & Ho & Hoid) Hc Hb Hio. unfold row_rel.
  destruct (select_balances d row) as [| b0 bs] eqn:Hsel; [intros ->; exact Hio |].
  intros (bs' & d1 & Hins & ->). apply inserted_frame in Hins.
  destruct Hins as (_ & Hoaa & _). rewrite fold_set_accumulate_balances.
  intros s1 Hs1 Hin1. simpl in Hs1. rewrite Hoaa in Hs1.
  unfold update_output_addresses_accumulate in Hs1. apply in_map_iff in Hs1.
  destruct Hs1 as (s & <- & Hs).
  destruct ((oaa_id s =? OAA_ID row)%string && (oaa_address s =? OAA_Address row)%string)
    eqn:E; [| apply Hio; assumption].
  apply andb_true_iff in E. destruct E as [E1 E2].
  apply String.eqb_eq in E1. apply String.eqb_eq in E2. simpl.
  assert (Hne : oaa_processed_out s <> 0%Z).
  { apply (Hc s o Hs Ho); [congruence |]. rewrite E1, E2.
    destruct row; simpl. rewrite Hsel. discriminate. }
  destruct (Hb s Hs) as [H0 | H1]; [contradiction | exact H1].
Qed.

Lemma iter_in_keeps_order rows d d' :
  (forall row, In row rows -> exists o, In o (avm_outputs d) /\ out_id o = OAA_ID row) ->
  out_complete d -> flags_binary d -> in_after_out d ->
  iter (row_rel ComputeID persist processTypeIn) rows d d' -> in_after_out d'.
Proof.
  intros Hrows Hc Hb Hio Hit. revert Hrows Hc Hb Hio.
  induction Hit as [d | row rows d d1 d2 Hrow _ IH]; intros Hrows Hc Hb Hio; [exact Hio |].
  pose proof (row_rel_only_flags ComputeID persist _ _ _ _ Hrow) as Hof.
  apply IH.
  - intros row' Hrow'. destruct (Hrows row' (or_intror Hrow')) as (o & Ho & Hoid).
    exists o. destruct Hof as ((Eo & _) & _). rewrite Eo. auto.
  - eapply only_flags_out_complete; eauto.
  - eapply only_flags_binary; eauto.
  - eapply row_rel_in_keeps_order; eauto. apply Hrows. left. reflexivity.
Qed.

(** The outputs-in pass keeps the order once the outputs-out pass is
    complete. *)
Lemma run_pass_in_keeps_order w :
  out_complete (db w) /\ flags_binary (db w) /\ in_after_out (db w) ->
  out_complete (db (snd (run_pass ComputeID persist PassIn w))) /\
  flags_binary (db (snd (run_pass ComputeID persist PassIn w))) /\
  in_after_out (db (snd (run_pass ComputeID persist PassIn w))).
Proof.
  intros (Hc & Hb & Hio).
  destruct (run_pass ComputeID persist PassIn w) as [[cnt err] w'] eqn:Hrun.
  destruct (run_pass_result ComputeID persist PassIn w cnt err w' Hrun)
    as [_ _ Hsteps Hundone].
  apply pass_steps_only_flags in Hsteps. simpl.
  split; [eapply only_flags_out_complete; eauto |].
  split; [eapply only_flags_binary; eauto |].
  destruct err as [e |].
  - rewrite Hundone by (left; discriminate). exact Hio.
  - apply run_pass_ok in Hrun. simpl in Hrun.
    eapply iter_in_keeps_order; [| exact Hc | exact Hb | exact Hio | exact Hrun].
    intros row Hrow. apply In_select_claim_in in Hrow.
    destruct Hrow as (s & o & r & _ & Ho & _ & _ & _ & _ & Hoid & _). eauto.
Qed.

(** Each round that finds a balance leaves the flag of its row at 1. *)
Lemma iter_row_rel_flagged typ rows d d' :
  iter (row_rel ComputeID persist typ) rows d d' ->
  forall row, In row rows -> select_balances d row <> [] ->
  forall s', In s' (output_addresses_accumulate d') ->
             oaa_id s' = OAA_ID row -> oaa_address s' = OAA_Address row ->
             flag_of typ s' = 1%Z.
Proof.
  induction 1 as [d | r rows d d1 d2 Hrow Hrest IH]; intros row Hin Hbal s' Hs' Hid Ha;
    [destruct Hin |].
  pose proof (row_rel_inputs ComputeID persist _ _ _ _ Hrow) as Hsame.
  destruct Hin as [-> | Hin].
  - apply iter_row_rel_only_flags in Hrest. destruct Hrest as (_ & Hfs & _).
    destruct (Forall2_In_r _ _ _ _ Hfs Hs') as (s1 & Hs1 & (E1 & E2 & E3 & E4)).
    assert (H1 : flag_of typ s1 = 1%Z).
    { unfold row_rel in Hrow.
      destruct (select_balances d row) as [| b0 bs]; [contradiction |].
      destruct Hrow as (bs' & d0 & Hins & ->). rewrite fold_set_accumulate_balances in Hs1.
      simpl in Hs1. unfold update_output_addresses_accumulate in Hs1.
      apply in_map_iff in Hs1. destruct Hs1 as (s & <- & Hs).
      destruct ((oaa_id s =? OAA_ID row)%string && (oaa_address s =? OAA_Address row)%string)
        eqn:E; [apply flag_of_flip |].
      exfalso. apply andb_false_iff in E.
      destruct E as [E | E]; apply String.eqb_neq in E; apply E; congruence. }
    destruct typ; simpl in *.
    + destruct E4 as [E4 | E4]; congruence.
    + destruct E3 as [E3 | E3]; congruence.
  - apply (IH row Hin); auto.
    rewrite (select_balances_inputs d d1 _ Hsame). exact Hbal.
Qed.

(** A batch of the outputs-out pass that is not full leaves the pass
    complete. *)
Lemma short_out_batch_completes w cnt w' :
  run_pass ComputeID persist PassOut w = ((cnt, None), w') ->
  cnt < RowLintValue -> out_complete (db w').
Proof.
  intros Hrun Hcnt.
  destruct (run_pass_result ComputeID persist PassOut w cnt None w' Hrun)
    as [_ Hlen Hsteps _].
  apply pass_steps_only_flags in Hsteps. destruct Hsteps as (Hsame & Hfs & _).
  apply run_pass_ok in Hrun. simpl in Hrun, Hlen.
  intros s' o Hs' Ho Hid Hbal Hzero.
  destruct (Forall2_In_r _ _ _ _ Hfs Hs') as (s & Hs & (E1 & E2 & E3 & _)).
  assert (Hs0 : oaa_processed_out s = 0%Z) by (destruct E3 as [E3 | E3]; congruence).
  assert (Hclaimed : In (mk_OutputAddressAccumulate (oaa_id s) (oaa_address s))
                        (select_claim_out (db w))).
  { unfold select_claim_out. rewrite firstn_short.
    - apply in_map_iff. exists (s, o). split; [reflexivity |].
      apply filter_In. simpl. split; [| rewrite Hs0; reflexivity].
      apply In_join. destruct Hsame as (Eo & _). rewrite Eo in Ho.
      repeat split; auto. apply String.eqb_eq. congruence.
    - subst cnt. exact Hcnt. }
  rewrite (select_balances_inputs (db w) (db w') _ Hsame), E1, E2 in Hbal.
  pose proof (iter_row_rel_flagged processTypeOut _ _ _ Hrun _ Hclaimed Hbal s' Hs'
                ltac:(simpl; congruence) ltac:(simpl; congruence)) as H1.
  simpl in H1. congruence.
Qed.

Lemma pass_loop_inv_at (Inv : World -> Prop) p :
  (forall w, Inv w -> Inv (snd (run_pass ComputeID persist p w))) ->
  forall fuel icnt w, Inv w -> Inv (snd (pass_loop ComputeID persist fuel p icnt w)).
Proof.
  intros Hpass. induction fuel as [| fuel IH]; intros icnt w Hs; simpl; [exact Hs |].
  pose proof (Hpass w Hs) as H1.
  destruct (run_pass ComputeID persist p w) as [[cnt [e |]] w1]; simpl in *; [exact H1 |].
  destruct (cnt <? RowLintValue)%nat; [exact H1 | apply IH; exact H1].
Qed.

Lemma out_loop_completes fuel icnt w i w' :
  pass_loop ComputeID persist fuel PassOut icnt w = (Returned (inr i), w') ->
  out_complete (db w').
Proof.
  revert icnt w. induction fuel as [| fuel IH]; intros icnt w Hloop; cbn [pass_loop] in Hloop;
    [discriminate |].
  destruct (run_pass ComputeID persist PassOut w) as [[cnt [e |]] w1] eqn:Hrun;
    [discriminate |].
  destruct (cnt <? RowLintValue)%nat eqn:E.
  - inversion Hloop; subst. apply Nat.ltb_lt in E.
    eapply short_out_batch_completes; eauto.
  - eapply IH; eauto.
Qed.

Lemma sweep_keeps_order fuel icnt w :
  flags_binary (db w) /\ in_after_out (db w) ->
  flags_binary (db (snd (sweep ComputeID persist fuel icnt w))) /\
  in_after_out (db (snd (sweep ComputeID persist fuel icnt w))).
Proof.
  intros H0. unfold sweep.
  pose proof (pass_loop_inv_at (fun w => flags_binary (db w) /\ in_after_out (db w)) PassOut
                (fun w1 => run_pass_keeps_order PassOut w1 ltac:(discriminate))
                fuel icnt w H0) as H1.
  destruct (pass_loop ComputeID persist fuel PassOut icnt w) as [[[e | i1] |] w1] eqn:E1;
    try exact H1.
  apply out_loop_completes in E1. simpl in H1.
  pose proof (pass_loop_inv_at
                (fun w => out_complete (db w) /\ flags_binary (db w) /\ in_after_out (db w))
                PassIn run_pass_in_keeps_order fuel i1 w1 (conj E1 H1)) as H2.
  destruct (pass_loop ComputeID persist fuel PassIn i1 w1) as [[[e | i2] |] w2];
    try (destruct H2 as (_ & H2); exact H2).
  simpl in H2. destruct H2 as (_ & H2).
  apply (pass_loop_inv_at (fun w => flags_binary (db w) /\ in_after_out (db w)) PassTxs
           (fun w1 => run_pass_keeps_order PassTxs w1 ltac:(discriminate))).
  exact H2.
Qed.

Lemma Accumulate_loop_keeps_order fuel icnt w :
  flags_binary (db w) /\ in_after_out (db w) ->
  flags_binary (db (snd (Accumulate_loop ComputeID persist fuel icnt w))) /\
  in_after_out (db (snd (Accumulate_loop ComputeID persist fuel icnt w))).
Proof.
  revert icnt w. induction fuel as [| fuel IH]; intros icnt w H0; cbn [Accumulate_loop].
  - destruct (icnt <? 10)%nat; exact H0.
  - destruct (icnt <? 10)%nat; [| exact H0].
    pose proof (sweep_keeps_order (S fuel) icnt w H0) as H1.
    destruct (sweep ComputeID persist (S fuel) icnt w) as [[[e | i1] |] w1];
      try exact H1.
    apply IH. exact H1.
Qed.

(** The redemption of an output is never accumulated before the output
    itself.  When every staging row with [processed_in = 1] has
    [processed_out = 1] before a run of [Accumulate], and
    [processed_out] holds 0 or 1, the same is true of the tables the run
    leaves, whatever the fuel and the faults: the outputs-in pass starts
    only after a batch of the outputs-out pass that was not full, which
    has flagged every row that has an output and a balance. *)
Theorem redemption_follows_output (fuel : nat) (w : World) :
  flags_binary (db w) -> in_after_out (db w) ->
  in_after_out (db (snd (Accumulate ComputeID persist fuel w))).
Proof.
  intros Hb Hio. unfold Accumulate.
  apply (Accumulate_loop_keeps_order fuel 0
           (mk_World (db w) (tx w) (faults w) (events w ++ [EvNewJob "accumulate"]))).
  split; assumption.
Qed.

End Order.

(** * The count of unspent outputs is not negative *)

Lemma filter_length_le {A : Type} (p q : A -> bool) l :
  (forall x, In x l -> p x = true -> q x = true) ->
  List.length (filter p l) <= List.length (filter q l).
Proof.
  induction l as [| x l IH]; intros H; simpl; [lia |].
  specialize (IH (fun y Hy => H y (or_intror Hy))).
  destruct (p x) eqn:E; [rewrite (H x (or_introl eq_refl) E); simpl; lia |].
  destruct (q x); simpl; lia.
Qed.

Section Unspent.

Variable ComputeID : string -> string -> string -> string + string.
Variable persist : Persist.
Hypothesis persist_ok : persist_contract persist.

Lemma accumulated_in_le_out d k :
  in_after_out d ->
  List.length (accumulated ComputeID oaa_processed_in d k)
  <= List.length (accumulated ComputeID oaa_processed_out d k).
Proof.
  intros Hio. unfold accumulated. apply filter_length_le.
  intros [s o] Hin Hp. apply In_join in Hin. destruct Hin as (Hs & _ & _).
  simpl in *. apply andb_true_iff in Hp. destruct Hp as [Hflag Hkey].
  apply Z.eqb_eq in Hflag. rewrite (Hio s Hs Hflag), Hkey. reflexivity.
Qed.

(** [utxo_count] is never negative.  On tables that have their keys and
    satisfy I4, where no redemption is accumulated before its output, a
    run of [Accumulate] leaves [utxo_count] at 0 or more at every
    balance key, whatever the fuel and the faults. *)
Theorem utxo_count_never_negative (fuel : nat) (w : World) (k : string) :
  keys_ok (db w) -> conserved ComputeID (db w) ->
  flags_binary (db w) -> in_after_out (db w) ->
  (0 <= balance_column ab_utxo_count
          (db (snd (Accumulate ComputeID persist fuel w))) k)%Z.
Proof.
  intros Hk Hc Hb Hio.
  assert (Hsound : sound ComputeID (db (snd (Accumulate ComputeID persist fuel w)))).
  { apply (Accumulate_db_inv ComputeID persist (sound ComputeID)
             (run_pass_sound ComputeID persist persist_ok)).
    split; assumption. }
  assert (Hord : in_after_out (db (snd (Accumulate ComputeID persist fuel w)))).
  { unfold Accumulate.
    apply (Accumulate_loop_keeps_order ComputeID persist fuel 0
             (mk_World (db w) (tx w) (faults w) (events w ++ [EvNewJob "accumulate"]))).
    split; assumption. }
  destruct Hsound as [_ Hcons]. destruct (Hcons k) as (_ & _ & Hutxo & _).
  rewrite Hutxo.
  pose proof (accumulated_in_le_out _ k Hord). lia.
Qed.

End Unspent.

(** * What a run computes *)

Lemma sumZ_Forall2 {A : Type} (R : A -> A -> Prop) (F G : A -> Z) l l' :
  Forall2 R l l' -> (forall x y, R x y -> G y = F x) ->
  sumZ (map G l') = sumZ (map F l).
Proof.
  intros H HR. induction H as [| x y l l' Hxy _ IH]; simpl; [reflexivity |].
  rewrite IH, (HR x y Hxy). reflexivity.
Qed.

Lemma Forall2_and_r {A : Type} (R : A -> A -> Prop) (P : A -> A -> Prop) l l' :
  Forall2 R l l' -> (forall x y, In x l -> In y l' -> R x y -> P x y) ->
  Forall2 P l l'.
Proof.
  induction 1 as [| x y l l' Hxy _ IH]; intros H; constructor.
  - apply H; simpl; auto.
  - apply IH. intros x' y' Hx' Hy'. apply H; simpl; auto.
Qed.

Lemma filter_nil_In {A : Type} (p : A -> bool) l x :
  filter p l = [] -> In x l -> p x = false.
Proof.
  intros Hnil Hin. destruct (p x) eqn:E; [| reflexivity].
  assert (H : In x (filter p l)) by (apply filter_In; auto).
  rewrite Hnil in H. destruct H.
Qed.

Lemma firstn_limit_nil {A : Type} (l : list A) : firstn RowLintValue l = [] -> l = [].
Proof. destruct l; [reflexivity | unfold RowLintValue; simpl; discriminate]. Qed.

Lemma map_nil_inv {A B : Type} (f : A -> B) l : map f l = [] -> l = [].
Proof. destruct l; [reflexivity | discriminate]. Qed.

Lemma redeemed_In d id :
  redeemed d id = true <-> exists r, In r (avm_outputs_redeeming d) /\ red_id r = id.
Proof.
  unfold redeemed. rewrite existsb_exists.
  split; intros (r & Hr & E); exists r; split; auto; apply String.eqb_eq; exact E.
Qed.

Lemma has_output_In d id :
  has_output d id = true <-> exists o, In o (avm_outputs d) /\ out_id o = id.
Proof.
  unfold has_output. rewrite existsb_exists.
  split; intros (o & Ho & E); exists o; split; auto; apply String.eqb_eq; exact E.
Qed.

(** With nothing left to claim, no flag that a claim looks at is 0. *)
Lemma quiescent_flags d :
  quiescent d ->
  (forall s, In s (output_addresses_accumulate d) -> has_output d (oaa_id s) = true ->
             oaa_processed_out s <> 0%Z /\
             (redeemed d (oaa_id s) = true -> oaa_processed_in s <> 0%Z)) /\
  (forall t, In t (output_txs_accumulate d) -> ota_processed t <> 0%Z).
Proof.
  intros (Hout & Hin & Htxs). split.
  - intros s Hs Ho. apply has_output_In in Ho. destruct Ho as (o & Ho & Hoid).
    assert (Hso : In (s, o) (join (fun s o => (oaa_id s =? out_id o)%string)
                               (output_addresses_accumulate d) (avm_outputs d))).
    { apply In_join. repeat split; auto. apply String.eqb_eq. congruence. }
    split.
    + unfold select_claim_out in Hout.
      apply firstn_limit_nil, map_nil_inv in Hout.
      pose proof (filter_nil_In _ _ _ Hout Hso) as H. simpl in H.
      apply Z.eqb_neq in H. exact H.
    + intros Hr. apply redeemed_In in Hr. destruct Hr as (r & Hr & Hrid).
      unfold select_claim_in in Hin.
      apply firstn_limit_nil, map_nil_inv in Hin.
      assert (Hsor : In (s, o, r)
                       (join (fun so r => (oaa_id (fst so) =? red_id r)%string)
                          (join (fun s o => (oaa_id s =? out_id o)%string)
                                (output_addresses_accumulate d) (avm_outputs d))
                          (avm_outputs_redeeming d))).
      { apply In_join. repeat split; auto. simpl. apply String.eqb_eq. congruence. }
      pose proof (filter_nil_In _ _ _ Hin Hsor) as H. simpl in H.
      apply Z.eqb_neq in H. exact H.
  - intros t Ht. unfold select_claim_txs in Htxs.
    apply firstn_limit_nil, map_nil_inv in Htxs.
    pose proof (filter_nil_In _ _ _ Htxs Ht) as H. simpl in H.
    apply Z.eqb_neq in H. exact H.
Qed.

Section Computes.

Variable ComputeID : string -> string -> string -> string + string.
Variable persist : Persist.

Lemma weight_no_output g d k id address :
  has_output d id = false -> weight ComputeID g d k id address = 0%Z.
Proof.
  intros Hno. unfold weight. rewrite filter_all_false; [reflexivity |].
  intros o Ho. destruct (String.eqb_spec id (out_id o)) as [E | _]; [| reflexivity].
  exfalso. assert (H : has_output d id = true) by (apply has_output_In; eauto).
  congruence.
Qed.

Lemma in_steps_in_redeemed d0 rows d d' :
  (forall row, In row rows -> redeemed d0 (OAA_ID row) = true) ->
  clos_refl_trans DB (out_step persist processTypeIn rows) d d' ->
  in_redeemed d0 d -> in_redeemed d0 d'.
Proof.
  intros Hrows Hsteps. induction Hsteps as [d d' Hstep | d | d d1 d2 _ IH1 _ IH2]; auto.
  destruct Hstep as [d b tbl _ | d b | d row Hin]; simpl; auto.
  intros Hinv s1 Hs1 Hflag. simpl in Hs1.
  unfold update_output_addresses_accumulate in Hs1. apply in_map_iff in Hs1.
  destruct Hs1 as (s & <- & Hs).
  destruct ((oaa_id s =? OAA_ID row)%string && (oaa_address s =? OAA_Address row)%string)
    eqn:E; [| apply Hinv; assumption].
  apply andb_true_iff in E. destruct E as [E _]. apply String.eqb_eq in E.
  simpl. rewrite E. apply Hrows. exact Hin.
Qed.

Lemma run_pass_in_redeemed d0 p w :
  same_inputs d0 (db w) /\ in_redeemed d0 (db w) ->
  same_inputs d0 (db (snd (run_pass ComputeID persist p w))) /\
  in_redeemed d0 (db (snd (run_pass ComputeID persist p w))).
Proof.
  intros [Hsame Hinv].
  destruct (run_pass ComputeID persist p w) as [[cnt err] w'] eqn:Hrun.
  destruct (run_pass_result ComputeID persist p w cnt err w' Hrun) as [_ _ Hsteps _].
  simpl. split.
  - eapply same_inputs_trans; [exact Hsame |].
    apply pass_steps_only_flags in Hsteps. destruct Hsteps as [H _]. exact H.
  - destruct p; simpl in Hsteps.
    + apply out_steps_flag_grows in Hsteps. intros s' Hs' Hflag.
      destruct (Forall2_In_r _ _ _ _ Hsteps Hs') as (s & Hs & (E1 & _ & E3 & _)).
      simpl in E3. rewrite E1. apply Hinv; [exact Hs | congruence].
    + eapply in_steps_in_redeemed; [| exact Hsteps | exact Hinv].
      intros row Hrow. apply In_select_claim_in in Hrow.
      destruct Hrow as (s & o & r & _ & _ & Hr & _ & _ & _ & _ & Hrid).
      destruct Hsame as (_ & _ & Er). unfold redeemed. rewrite <- Er.
      apply existsb_exists. exists r. split; [exact Hr | apply String.eqb_eq; exact Hrid].
    + apply txs_steps_keep_staging in Hsteps. intros s Hs. rewrite Hsteps in Hs.
      apply Hinv. exact Hs.
Qed.

(** The staging rows after a run that left nothing to claim. *)
Lemma quiescent_done_rows d d' :
  well_flagged d -> only_flags d d' -> in_redeemed d d' -> quiescent d' ->
  Forall2 (done_row d) (output_addresses_accumulate d) (output_addresses_accumulate d') /\
  (forall t', In t' (output_txs_accumulate d') -> ota_processed t' = 1%Z).
Proof.
  intros (Hbin & _ & Hbt) Hof Hred Hq.
  destruct (quiescent_flags d' Hq) as [Hqs Hqt].
  destruct Hof as (Hsame & Hfs & Hft). split.
  - eapply Forall2_and_r; [exact Hfs |].
    intros s s' Hs Hs' (E1 & E2 & E3 & E4).
    split; [exact E1 | split; [exact E2 |]].
    intros Ho.
    assert (Ho' : has_output d' (oaa_id s') = true).
    { unfold has_output in *. destruct Hsame as (Eo & _). rewrite Eo, E1. exact Ho. }
    destruct (Hqs s' Hs' Ho') as [Hout Hin].
    destruct (Hbin s Hs) as [Hb1 Hb2].
    split.
    + destruct E3 as [E3 | E3]; [| exact E3].
      rewrite E3 in *. destruct Hb1 as [Hb1 | Hb1]; [contradiction | exact Hb1].
    + split.
      * intros Hflag. rewrite <- E1. apply Hred; assumption.
      * intros Hr.
        assert (Hr' : redeemed d' (oaa_id s') = true).
        { unfold redeemed in *. destruct Hsame as (_ & _ & Er). rewrite Er, E1. exact Hr. }
        specialize (Hin Hr').
        destruct E4 as [E4 | E4]; [| exact E4].
        rewrite E4 in *. destruct Hb2 as [Hb2 | Hb2]; [contradiction | exact Hb2].
  - intros t' Ht'. destruct (Forall2_In_r _ _ _ _ Hft Ht') as (t & Ht & (_ & _ & _ & _ & _ & E)).
    destruct E as [E | E]; [| exact E].
    pose proof (Hqt t' Ht') as Hne. rewrite E in *.
    destruct (Hbt t Ht) as [Hb | Hb]; [contradiction | exact Hb].
Qed.

Lemma done_rows_sums g d d' k :
  same_inputs d d' ->
  Forall2 (done_row d) (output_addresses_accumulate d) (output_addresses_accumulate d') ->
  sumZ (map (fun so => g (snd so)) (accumulated ComputeID oaa_processed_out d' k)) =
    sumZ (map (fun so => g (snd so)) (staged ComputeID d k)) /\
  sumZ (map (fun so => g (snd so)) (accumulated ComputeID oaa_processed_in d' k)) =
    sumZ (map (fun so => g (snd so)) (staged_redeemed ComputeID d k)).
Proof.
  intros Hsame Hrows. unfold staged, staged_redeemed. rewrite !accumulated_sum.
  split; apply (sumZ_Forall2 (done_row d)); try exact Hrows;
    intros s s' (E1 & E2 & Hdone); rewrite (weight_inputs ComputeID g d d' k _ _ Hsame), E1, E2;
    destruct (has_output d (oaa_id s)) eqn:Ho.
  - destruct (Hdone eq_refl) as [-> _]. reflexivity.
  - rewrite (weight_no_output g d k _ _ Ho). destruct (_ =? _)%Z; reflexivity.
  - destruct (Hdone eq_refl) as [_ Hiff].
    destruct (redeemed d (oaa_id s)) eqn:Hr.
    + rewrite (proj2 Hiff eq_refl). reflexivity.
    + destruct (Z.eqb_spec (oaa_processed_in s') 1) as [E | _]; [| reflexivity].
      apply Hiff in E. discriminate.
  - rewrite (weight_no_output g d k _ _ Ho).
    destruct (_ =? _)%Z; destruct (_ =? _)%Z; reflexivity.
Qed.

Lemma done_txs_count d d' k :
  Forall2 processed_grows (output_txs_accumulate d) (output_txs_accumulate d') ->
  (forall t', In t' (output_txs_accumulate d') -> ota_processed t' = 1%Z) ->
  List.length (accumulated_txs ComputeID d' k) = List.length (staged_txs ComputeID d k).
Proof.
  intros Hft Hall. apply Nat2Z.inj. unfold accumulated_txs, staged_txs.
  rewrite !length_filter_sum.
  apply (sumZ_Forall2 (fun t t' => processed_grows t t' /\ ota_processed t' = 1%Z)).
  - eapply Forall2_and_r; [exact Hft |]. intros t t' _ Ht' H. split; [exact H | auto].
  - intros t t' ((_ & E2 & E3 & E4 & _) & E). rewrite E, E2, E3, E4. reflexivity.
Qed.

(** The aggregate rows on tables that satisfy I4 and have nothing left
    to claim, in terms of the tables [d] the run started from. *)
Lemma quiescent_totals d d' k :
  sound ComputeID d' -> well_flagged d -> only_flags d d' -> in_redeemed d d' ->
  quiescent d' ->
  balance_column ab_total_received d' k = sum_amounts (staged ComputeID d k) /\
  balance_column ab_total_sent d' k = sum_amounts (staged_redeemed ComputeID d k) /\
  balance_column ab_utxo_count d' k =
    (Z.of_nat (List.length (staged ComputeID d k))
     - Z.of_nat (List.length (staged_redeemed ComputeID d k)))%Z /\
  balance_column ab_transaction_count d' k =
    Z.of_nat (List.length (staged_txs ComputeID d k)).
Proof.
  intros Hsound Hwf Hof Hred Hq.
  destruct (quiescent_done_rows d d' Hwf Hof Hred Hq) as [Hrows Htxs].
  destruct Hof as (Hsame & _ & Hft).
  destruct Hsound as [_ Hcons]. destruct (Hcons k) as (H1 & H2 & H3 & H4).
  destruct (done_rows_sums out_amount d d' k Hsame Hrows) as [S1 S2].
  destruct (done_rows_sums (fun _ => 1%Z) d d' k Hsame Hrows) as [L1 L2].
  rewrite <- !length_sumZ in L1, L2. apply Nat2Z.inj in L1. apply Nat2Z.inj in L2.
  rewrite H1, H2, H3, H4. unfold sum_amounts.
  rewrite S1, S2, L1, L2, (done_txs_count d d' k Hft Htxs). auto.
Qed.

Hypothesis persist_ok : persist_contract persist.
Hypothesis ComputeID_total : forall c s a, exists id, ComputeID c s a = inr id.

(** What a run computes.  On tables that have their keys, satisfy I4 and
    are well flagged, with a balance for every staging row that has an
    output, no fault and a key computation that does not fail,
    [Accumulate] returns nil and leaves, at every balance key: in
    [total_received] the sum of the amounts of all the staged outputs of
    the key, in [total_sent] the sum over those that have a redemption
    record, in [utxo_count] the number of those that have none, and in
    [transaction_count] the number of staged transaction rows of the
    key; all taken on the tables as they were before the run, whatever
    had been accumulated already. *)
Theorem accumulate_computes_balances (fuel : nat) (w : World) (k : string) :
  faults w = [] -> keys_ok (db w) -> conserved ComputeID (db w) ->
  well_flagged (db w) -> aggregations_nonempty (db w) ->
  10 * flags_left (db w) + 10 <= fuel ->
  let d := db w in
  let d' := db (snd (Accumulate ComputeID persist fuel w)) in
  fst (Accumulate ComputeID persist fuel w) = Returned None /\
  balance_column ab_total_received d' k = sum_amounts (staged ComputeID d k) /\
  balance_column ab_total_sent d' k = sum_amounts (staged_redeemed ComputeID d k) /\
  balance_column ab_utxo_count d' k =
    (Z.of_nat (List.length (staged ComputeID d k))
     - Z.of_nat (List.length (staged_redeemed ComputeID d k)))%Z /\
  balance_column ab_transaction_count d' k =
    Z.of_nat (List.length (staged_txs ComputeID d k)).
Proof.
  intros Hf Hk Hc Hwf Hagg Hfuel d d'.
  assert (Hsound : sound ComputeID d').
  { apply (Accumulate_db_inv ComputeID persist (sound ComputeID)
             (run_pass_sound ComputeID persist persist_ok)).
    split; assumption. }
  assert (Hof : only_flags d d') by (apply Accumulate_only_flags; apply only_flags_refl).
  assert (Hred : in_redeemed d d').
  { apply (Accumulate_db_inv ComputeID persist
             (fun d1 => same_inputs d d1 /\ in_redeemed d d1)
             (fun p w1 => run_pass_in_redeemed d p w1)).
    split; [apply same_inputs_refl | apply Hwf]. }
  assert (Hrun : fst (Accumulate ComputeID persist fuel w) = Returned None /\ quiescent d').
  { unfold d', Accumulate.
    set (w0 := mk_World (db w) (tx w) (faults w) (events w ++ [EvNewJob "accumulate"])).
    destruct (Accumulate_loop_calm ComputeID persist persist_ok ComputeID_total fuel 0 w0
                Hf Hagg ltac:(simpl; lia)) as (w' & Hloop).
    rewrite Hloop. split; [reflexivity |]. simpl.
    apply Accumulate_loop_trace in Hloop.
    destruct Hloop as (_ & _ & _ & _ & _ & _ & [(Hge & _) | Hq]); [lia | exact Hq]. }
  destruct Hrun as [Hnil Hq]. split; [exact Hnil |].
  apply quiescent_totals; assumption.
Qed.

End Computes.

(** * The loop returns, and deadlocks lose nothing *)


Section Returns.

Variable ComputeID : string -> string -> string -> string + string.
Variable persist : Persist.

(** One pass, whatever it returns: it keeps what the aggregation needs
    and raises no count of flags at 0; when it returns no error, its
    count is the length of its claim, and it has flipped a flag unless
    the claim was empty. *)
Lemma run_pass_advances p w cnt err w' :
  run_pass ComputeID persist p w = ((cnt, err), w') ->
  aggregations_nonempty (db w) ->
  aggregations_nonempty (db w') /\ flags_left (db w') <= flags_left (db w) /\
  (err = None -> cnt <> 0 -> flags_left (db w') < flags_left (db w)).
Proof.
  intros Hrun Hagg.
  destruct (run_pass_result ComputeID persist p w cnt err w' Hrun) as [_ Hcnt Hsteps _].
  apply pass_steps_only_flags in Hsteps.
  split; [eapply only_flags_aggregations; eauto |].
  split; [apply only_flags_left; exact Hsteps |].
  intros -> Hne. subst cnt. apply run_pass_ok in Hrun. destruct p; simpl in Hrun, Hne.
  - apply (out_pass_left_lt ComputeID persist processTypeOut); auto.
    apply length_nonzero. exact Hne.
  - apply (out_pass_left_lt ComputeID persist processTypeIn); auto.
    apply length_nonzero. exact Hne.
  - apply (txs_pass_left_lt ComputeID persist); auto.
    apply length_nonzero. exact Hne.
Qed.

Lemma pass_loop_returns fuel p icnt w :
  aggregations_nonempty (db w) -> flags_left (db w) < fuel ->
  exists r w',
    pass_loop ComputeID persist fuel p icnt w = (Returned r, w') /\
    aggregations_nonempty (db w') /\ flags_left (db w') <= flags_left (db w) /\
    (forall i, r = inr i ->
               i = icnt \/ (i = 0 /\ flags_left (db w') < flags_left (db w))).
Proof.
  revert icnt w. induction fuel as [| fuel IH]; intros icnt w Hagg Hfuel; [lia |].
  cbn [pass_loop].
  destruct (run_pass ComputeID persist p w) as [[cnt err] w1] eqn:Hrun.
  destruct (run_pass_advances p w cnt err w1 Hrun Hagg) as (Hagg1 & Hle & Hlt).
  destruct err as [e |].
  - exists (inl e), w1. repeat split; auto. discriminate.
  - specialize (Hlt eq_refl). destruct (cnt <? RowLintValue)%nat eqn:Ec.
    + exists (inr (if (0 <? cnt)%nat then 0 else icnt)), w1. repeat split; auto.
      intros i Hi. inversion Hi; subst i. clear Hi.
      destruct (0 <? cnt)%nat eqn:E0; [| left; reflexivity].
      right. split; [reflexivity |]. apply Hlt. apply Nat.ltb_lt in E0. lia.
    + apply Nat.ltb_ge in Ec. unfold RowLintValue in Ec.
      assert (Hlt1 : flags_left (db w1) < flags_left (db w)) by (apply Hlt; lia).
      destruct (IH (if (0 <? cnt)%nat then 0 else icnt) w1 Hagg1 ltac:(lia))
        as (r & w' & Hloop & Hagg' & Hle' & Hcase).
      exists r, w'. split; [exact Hloop | split; [exact Hagg' | split; [lia |]]].
      intros i Hi. right.
      assert (E0 : (0 <? cnt)%nat = true) by (apply Nat.ltb_lt; lia).
      rewrite E0 in Hcase. destruct (Hcase i Hi) as [-> | [-> _]]; split; auto; lia.
Qed.

Lemma sweep_returns fuel icnt w :
  aggregations_nonempty (db w) -> flags_left (db w) < fuel ->
  exists r w',
    sweep ComputeID persist fuel icnt w = (Returned r, w') /\
    aggregations_nonempty (db w') /\ flags_left (db w') <= flags_left (db w) /\
    (forall i, r = inr i ->
               i = icnt \/ (i = 0 /\ flags_left (db w') < flags_left (db w))).
Proof.
  intros Hagg Hfuel. unfold sweep.
  destruct (pass_loop_returns fuel PassOut icnt w Hagg Hfuel)
    as (r1 & w1 & H1 & Hagg1 & Hle1 & Hc1).
  rewrite H1. destruct r1 as [e | i1];
    [exists (inl e), w1; repeat split; auto; discriminate |].
  destruct (pass_loop_returns fuel PassIn i1 w1 Hagg1 ltac:(lia))
    as (r2 & w2 & H2 & Hagg2 & Hle2 & Hc2).
  rewrite H2. destruct r2 as [e | i2];
    [exists (inl e), w2; repeat split; auto; [lia | discriminate] |].
  destruct (pass_loop_returns fuel PassTxs i2 w2 Hagg2 ltac:(lia))
    as (r3 & w3 & H3 & Hagg3 & Hle3 & Hc3).
  exists r3, w3. split; [exact H3 | split; [exact Hagg3 | split; [lia |]]].
  intros i Hi.
  destruct (Hc3 i Hi) as [-> | [-> Hlt3]]; [| right; split; [reflexivity | lia]].
  destruct (Hc2 i2 eq_refl) as [-> | [-> Hlt2]]; [| right; split; [reflexivity | lia]].
  destruct (Hc1 i1 eq_refl) as [-> | [-> Hlt1]]; [left; reflexivity |].
  right. split; [reflexivity | lia].
Qed.

Lemma Accumulate_loop_returns fuel icnt w :
  aggregations_nonempty (db w) ->
  10 * flags_left (db w) + (10 - icnt) <= fuel ->
  exists r w', Accumulate_loop ComputeID persist fuel icnt w = (Returned r, w').
Proof.
  revert icnt w. induction fuel as [| fuel IH]; intros icnt w Hagg Hfuel.
  - cbn [Accumulate_loop]. destruct (icnt <? 10)%nat eqn:E; [| eauto].
    apply Nat.ltb_lt in E. lia.
  - cbn [Accumulate_loop]. destruct (icnt <? 10)%nat eqn:E; [| eauto].
    apply Nat.ltb_lt in E.
    destruct (sweep_returns (S fuel) icnt w Hagg ltac:(lia))
      as (r & w1 & Hsweep & Hagg1 & Hle & Hcase).
    rewrite Hsweep. destruct r as [e | i]; [eauto |].
    apply IH; [exact Hagg1 |].
    destruct (Hcase i eq_refl) as [-> | [-> Hlt]]; lia.
Qed.

Lemma Accumulate_returns fuel w :
  aggregations_nonempty (db w) -> 10 * flags_left (db w) + 10 <= fuel ->
  exists r w', Accumulate ComputeID persist fuel w = (Returned r, w').
Proof.
  intros Hagg Hfuel. unfold Accumulate.
  apply Accumulate_loop_returns; [exact Hagg | simpl; lia].
Qed.

(** [Accumulate] returns, with nil or with an error, within
    [10 * n + 10] rounds, where [n] is the number of flags at 0, whenever
    every staging row that has an output has a balance; whatever the
    faults, the key computation and the persistence layer do. *)
Theorem accumulate_always_returns (fuel : nat) (w : World) :
  aggregations_nonempty (db w) -> 10 * flags_left (db w) + 10 <= fuel ->
  fst (Accumulate ComputeID persist fuel w) <> OutOfFuel.
Proof.
  intros Hagg Hfuel. destruct (Accumulate_returns fuel w Hagg Hfuel) as (r & w' & H).
  rewrite H. discriminate.
Qed.


Hypothesis persist_ok : persist_contract persist.
Hypothesis ComputeID_total : forall c s a, exists id, ComputeID c s a = inr id.






End Returns.

(** * Invariants of the whole background task *)

Section TaskKeeps.

Variable ComputeID : string -> string -> string -> string + string.
Variable persist : Persist.
Hypothesis persist_ok : persist_contract persist.

Lemma pass_step_unique_ids p d0 d d' :
  pass_step persist p d0 d d' ->
  NoDup (map ab_id (accumulate_balances d)) -> NoDup (map ab_id (accumulate_balances d')).
Proof.
  intros Hstep Hnd.
  assert (Hupd : forall (c : accumulate_balances_row -> bool) g,
             (forall r, ab_id (g r) = ab_id r) ->
             NoDup (map ab_id (map (fun r => if c r then g r else r)
                                   (accumulate_balances d)))).
  { intros c g Hg. rewrite (NoDup_map_update ab_id c g _ Hg). exact Hnd. }
  destruct p; simpl in Hstep; inversion Hstep; subst; simpl; try exact Hnd;
    try (eapply (NoDup_ids_insert persist persist_ok); eauto; fail).
  - unfold update_accumulate_balances. apply Hupd. reflexivity.
  - unfold update_accumulate_balances. apply Hupd. reflexivity.
  - unfold update_transaction_count. apply Hupd. reflexivity.
Qed.

Lemma pass_steps_unique_ids p d0 d d' :
  pass_steps persist p d0 d d' ->
  NoDup (map ab_id (accumulate_balances d)) -> NoDup (map ab_id (accumulate_balances d')).
Proof.
  induction 1 as [d d' H | d | d1 d2 d3 _ IH1 _ IH2]; auto.
  eapply pass_step_unique_ids; eauto.
Qed.

Lemma run_pass_unique_ids p w :
  NoDup (map ab_id (accumulate_balances (db w))) ->
  NoDup (map ab_id (accumulate_balances (db (snd (run_pass ComputeID persist p w))))).
Proof.
  intros Hnd. destruct (run_pass ComputeID persist p w) as [[cnt err] w'] eqn:Hrun.
  destruct (run_pass_result ComputeID persist p w cnt err w' Hrun) as [_ _ Hsteps _].
  simpl. eapply pass_steps_unique_ids; eauto.
Qed.

(** One aggregate row per key.  When the ids of the aggregate rows are
    distinct before, they are distinct after a run of [Accumulate] and
    after a whole background task, whatever the fuel and the faults:
    the accumulator never makes a second row for a balance key. *)
Theorem aggregate_keys_stay_unique (fuel accfuel : nat) (w : World) :
  NoDup (map ab_id (accumulate_balances (db w))) ->
  NoDup (map ab_id (accumulate_balances
                      (db (snd (Accumulate ComputeID persist accfuel w))))) /\
  NoDup (map ab_id (accumulate_balances
                      (db (snd (Run_task ComputeID persist fuel accfuel w))))).
Proof.
  intros Hnd. split.
  - apply (Accumulate_db_inv ComputeID persist
             (fun d => NoDup (map ab_id (accumulate_balances d))) run_pass_unique_ids).
    exact Hnd.
  - apply (Run_task_db_inv ComputeID persist
             (fun d => NoDup (map ab_id (accumulate_balances d))) run_pass_unique_ids).
    exact Hnd.
Qed.

(** I4 through the retries.  On tables that have their keys and satisfy
    I4, the whole background task, with every attempt and every sleep
    between two attempts, leaves tables that have their keys and satisfy
    I4, however many attempts fail and whatever their errors. *)
Theorem task_conserves (fuel accfuel : nat) (w : World) :
  keys_ok (db w) -> conserved ComputeID (db w) ->
  keys_ok (db (snd (Run_task ComputeID persist fuel accfuel w))) /\
  conserved ComputeID (db (snd (Run_task ComputeID persist fuel accfuel w))).
Proof.
  intros Hk Hc.
  apply (Run_task_db_inv ComputeID persist (sound ComputeID)
           (run_pass_sound ComputeID persist persist_ok)).
  split; assumption.
Qed.

End TaskKeeps.

(** * The properties at concrete inputs *)

Lemma persist_spec_ok : persist_contract persist_spec.
Proof. intros b tbl. reflexivity. Qed.

Ltac nodup_strings :=
  repeat (constructor; [simpl; intuition discriminate |]); constructor.

Lemma workload_keys : keys_ok workload.
Proof. split; simpl; nodup_strings. Qed.

Lemma workload_fresh : fresh workload.
Proof.
  split; [reflexivity | split]; simpl; intros x H;
    repeat (destruct H as [<- | H]; [auto |]); destruct H.
Qed.

(** C1 at a workload of two outputs, one redemption and two transactions:
    the loop returns nil, and I4 holds at key "C:S:A" on what it leaves. *)
Lemma accumulate_conserves_witness :
  fst (Accumulate ComputeID_concat persist_spec 30 (world_of workload)) = Returned None /\
  conserved_at ComputeID_concat
    (db (snd (Accumulate ComputeID_concat persist_spec 30 (world_of workload)))) "C:S:A".
Proof.
  split; [vm_compute; reflexivity |].
  exact (proj2 (accumulate_conserves ComputeID_concat persist_spec persist_spec_ok 30
                  (world_of workload) workload_keys
                  (fresh_conserved ComputeID_concat workload workload_fresh)) "C:S:A").
Defined.

(** C2 at two concurrent calls of [Run]. *)
Lemma at_most_one_accumulation_witness :
  run two_concurrent_calls new_Runner = Some after_two_calls /\
  in_flight after_two_calls <= 1.
Proof.
  split; [reflexivity |].
  exact (proj1 (at_most_one_accumulation two_concurrent_calls after_two_calls eq_refl)).
Defined.

(** C3 at two deadlocks injected at the commit: three attempts. *)
Lemma deadlock_is_retried_witness :
  exists wn w',
    deadlocked ComputeID_concat persist_spec 20 2 deadlocks_at_commit wn /\
    Accumulate ComputeID_concat persist_spec 20 wn = (Returned None, w') /\
    Run_task ComputeID_concat persist_spec 3 20 deadlocks_at_commit = (Returned tt, w') /\
    List.length (filter is_new_job (events w')) = 3.
Proof.
  assert (H1 : deadlocked ComputeID_concat persist_spec 20 2 deadlocks_at_commit
                 (sleep_1ms (snd (Accumulate ComputeID_concat persist_spec 20
                    (sleep_1ms (snd (Accumulate ComputeID_concat persist_spec 20
                                       deadlocks_at_commit))))))).
  { eapply deadlocked_S with (e := deadlock_message);
      [vm_compute; reflexivity | vm_compute; reflexivity |].
    eapply deadlocked_S with (e := deadlock_message);
      [vm_compute; reflexivity | vm_compute; reflexivity |].
    apply deadlocked_0. }
  eexists. eexists. split; [exact H1 |].
  split; [vm_compute; reflexivity |].
  split; [| vm_compute; reflexivity].
  exact (proj1 (deadlock_is_retried ComputeID_concat persist_spec 20 2 deadlocks_at_commit
                  _ _ None H1 ltac:(vm_compute; reflexivity) I 3 ltac:(lia))).
Defined.

(** C4 as stated fails on a database with nothing to accumulate: the
    three passes return empty at once, and the loop goes on for 27 more
    invocations before it returns. *)
Lemma accumulate_no_early_exit :
  fst (Accumulate ComputeID_concat persist_spec 10 (world_of empty_DB)) = Returned None /\
  firstn 3 (claims_of (events (snd (Accumulate ComputeID_concat persist_spec 10
                                      (world_of empty_DB)))))
    = [(PassOut, 0); (PassIn, 0); (PassTxs, 0)] /\
  List.length (claims_of (events (snd (Accumulate ComputeID_concat persist_spec 10
                                         (world_of empty_DB))))) = 30.
Proof. vm_compute. repeat split. Qed.

(** C4 (as amended) at scenario 1: a round that accumulates the output,
    then nine idle rounds. *)
Lemma accumulate_rounds_witness :
  exists evs sweeps,
    events (snd (Accumulate ComputeID_concat persist_spec 20 (world_of scenario1)))
      = events (world_of scenario1) ++ EvNewJob "accumulate" :: evs /\
    claims_of evs = List.concat (map sweep_claims sweeps) /\
    Forall sweep_ok sweeps /\ ends_idle 0 sweeps.
Proof.
  apply (proj1 (accumulate_rounds ComputeID_concat persist_spec) 20 (world_of scenario1)).
  vm_compute. reflexivity.
Defined.

(** C5 as stated fails when a redemption record, which is no staging row,
    arrives between the runs: the first run finds scenario 3 quiescent,
    and the second, on the same staging rows, moves the counters. *)
Lemma second_run_after_redemption :
  fst (Accumulate ComputeID_concat persist_spec 10 (world_of scenario3)) = Returned None /\
  db (snd (Accumulate ComputeID_concat persist_spec 10 (world_of scenario3))) = scenario3 /\
  output_addresses_accumulate scenario2 = output_addresses_accumulate scenario3 /\
  output_txs_accumulate scenario2 = output_txs_accumulate scenario3 /\
  accumulate_balances scenario3 = [mk_ab "C:S:A" 1 10 0 0] /\
  accumulate_balances
    (db (snd (Accumulate ComputeID_concat persist_spec 10 (world_of scenario2))))
    = [mk_ab "C:S:A" 0 10 10 0].
Proof. vm_compute. repeat split. Qed.

(** C5 (as amended) at scenario 1. *)
Lemma second_run_changes_nothing_witness :
  quiescent (db (snd (Accumulate ComputeID_concat persist_spec 20 (world_of scenario1)))) /\
  accumulate_balances
    (db (snd (Accumulate ComputeID_concat persist_spec 20
                (world_of (db (snd (Accumulate ComputeID_concat persist_spec 20
                                      (world_of scenario1))))))))
  = accumulate_balances
      (db (snd (Accumulate ComputeID_concat persist_spec 20 (world_of scenario1)))).
Proof.
  pose proof (second_run_changes_nothing ComputeID_concat persist_spec 20
                (world_of scenario1)
                (snd (Accumulate ComputeID_concat persist_spec 20 (world_of scenario1)))
                ltac:(vm_compute; reflexivity)) as H.
  split; [exact (proj1 H) |].
  exact (proj1 (proj2 (proj1 (proj2 H) 20
           (world_of (db (snd (Accumulate ComputeID_concat persist_spec 20
                                 (world_of scenario1))))) eq_refl))).
Defined.

(** C6 at a transaction row whose key cannot be computed: the error of
    [ComputeID] comes back, after a rollback. *)
Lemma pass_is_atomic_witness :
  processTransactions ComputeID_strict persist_spec (world_of bad_key) =
  ((0, Some "invalid id"),
   mk_World bad_key None [] [EvBegin; EvClaim PassTxs 1; EvRollback]).
Proof.
  exact (proj2 (proj2 (proj2 (proj2 (pass_is_atomic ComputeID_strict persist_spec))))
           (world_of bad_key) (mk_OutputTxsAccumulate "1" "C" "S" "" "T1") [] "invalid id"
           eq_refl eq_refl eq_refl).
Defined.

(** C7 at scenario 5: three rows on one key. *)
Lemma transaction_count_once_per_row_witness :
  fst (processTransactions ComputeID_concat persist_spec (world_of scenario5)) = (3, None) /\
  balance_column ab_transaction_count
    (db (snd (processTransactions ComputeID_concat persist_spec (world_of scenario5))))
    "C:S:A" = 3%Z /\
  accumulate_balances
    (db (snd (processTransactions ComputeID_concat persist_spec (world_of scenario5))))
    = [mk_ab "C:S:A" 0 0 0 3] /\
  map ota_processed
    (output_txs_accumulate
       (db (snd (processTransactions ComputeID_concat persist_spec (world_of scenario5)))))
    = [1%Z; 1%Z; 1%Z].
Proof.
  pose proof (transaction_count_once_per_row ComputeID_concat persist_spec persist_spec_ok
                (world_of scenario5) eq_refl
                (fun row _ => ex_intro _ _ eq_refl)) as H.
  split; [exact (proj1 H) |].
  split; [exact (proj1 (proj2 H) "C:S:A") |].
  split; reflexivity.
Defined.

(** C8 as stated fails on an empty database: the pass returns 0 and no
    error, and its trace holds a rollback and no commit. *)
Lemma empty_claim_does_not_commit :
  processOutputs ComputeID_concat persist_spec processTypeOut (world_of empty_DB) =
  ((0, None), mk_World empty_DB None [] [EvBegin; EvClaim PassOut 0; EvRollback]) /\
  processTransactions ComputeID_concat persist_spec (world_of empty_DB) =
  ((0, None), mk_World empty_DB None [] [EvBegin; EvClaim PassTxs 0; EvRollback]) /\
  ~ In EvCommit [EvBegin; EvClaim PassOut 0; EvRollback] /\
  ~ In EvCommit [EvBegin; EvClaim PassTxs 0; EvRollback].
Proof.
  repeat split; try reflexivity; simpl; intuition discriminate.
Qed.

(** C8 (as amended) at scenario 3, where the outputs-out pass has nothing
    to claim. *)
Lemma empty_claim_returns_zero_by_rollback_witness :
  processOutputs ComputeID_concat persist_spec processTypeOut (world_of scenario3) =
  ((0, None), mk_World scenario3 None [] [EvBegin; EvClaim PassOut 0; EvRollback]).
Proof.
  exact (proj1 (empty_claim_returns_zero_by_rollback ComputeID_concat persist_spec)
           processTypeOut (world_of scenario3) eq_refl
           (fun e (H : In (Some e) []) => H)).
Defined.

(** C9 at scenario 3: no redemption record, nothing moves. *)
Lemma in_pass_waits_for_redemption_witness :
  db (snd (processOutputs ComputeID_concat persist_spec processTypeIn (world_of scenario3)))
  = scenario3.
Proof.
  apply (proj2 (proj2 (in_pass_waits_for_redemption ComputeID_concat persist_spec))
           (world_of scenario3)).
  simpl. intros s r _ _ [].
Defined.

(** C10 at scenario 1: the aggregation of the outputs-out pass selects a
    transaction count of 1, and the aggregate row keeps 0. *)
Lemma passes_leave_other_columns_witness :
  map AB_TransactionCount
      (select_balances scenario1 (mk_OutputAddressAccumulate "X" "A")) = [1%Z] /\
  balance_column ab_transaction_count
    (db (snd (processOutputs ComputeID_concat persist_spec processTypeOut
                (world_of scenario1)))) "C:S:A"
  = balance_column ab_transaction_count (db (world_of scenario1)) "C:S:A".
Proof.
  split; [reflexivity |].
  exact (proj2 (proj1 (passes_leave_other_columns ComputeID_concat persist_spec
                         persist_spec_ok (world_of scenario1) "C:S:A"))).
Defined.

Lemma no_address_row_invalid : invalid_row "X" "A" no_address_row.
Proof.
  split; [| split].
  - exists (mk_oaa "X" "A" 0 0). simpl. auto.
  - exists (mk_out "X" "C" "S" "T" 10). simpl. auto.
  - reflexivity.
Qed.

(** An output with no address row: 40 rounds are not enough, nor is any
    number; each round claims the row, logs it and leaves it. *)
Lemma invalid_row_blocks_return_witness :
  fst (Accumulate ComputeID_concat persist_spec 40 (world_of no_address_row)) = OutOfFuel /\
  db (snd (Accumulate ComputeID_concat persist_spec 40 (world_of no_address_row)))
    = no_address_row /\
  firstn 4 (events (snd (Accumulate ComputeID_concat persist_spec 40
                           (world_of no_address_row))))
    = [EvNewJob "accumulate"; EvBegin; EvClaim PassOut 1;
       EvLogInfo "invalid balance X A on 2"] /\
  (forall fuel,
      fst (Accumulate ComputeID_concat persist_spec fuel (world_of no_address_row))
      <> Returned None).
Proof.
  split; [vm_compute; reflexivity |].
  split; [vm_compute; reflexivity |].
  split; [vm_compute; reflexivity |].
  intros fuel.
  exact (proj1 (invalid_row_blocks_return ComputeID_concat persist_spec "X" "A" fuel
                  (world_of no_address_row) no_address_row_invalid)).
Defined.

(** * More properties at concrete inputs *)

Lemma fresh_well_flagged d : fresh d -> well_flagged d.
Proof.
  intros (_ & Hs & Ht). split; [| split].
  - intros s Hin. destruct (Hs s Hin) as [-> ->]. auto.
  - intros s Hin Hflag. destruct (Hs s Hin) as [_ H0]. rewrite H0 in Hflag. discriminate.
  - intros t Hin. left. apply Ht. exact Hin.
Qed.

Lemma fresh_order d : fresh d -> flags_binary d /\ in_after_out d.
Proof.
  intros (_ & Hs & _). split.
  - intros s Hin. left. apply Hs. exact Hin.
  - intros s Hin Hflag. destruct (Hs s Hin) as [_ H0]. rewrite H0 in Hflag. discriminate.
Qed.

Lemma ComputeID_concat_total c s a : exists id, ComputeID_concat c s a = inr id.
Proof. eexists. reflexivity. Qed.

Lemma workload_aggregations : aggregations_nonempty workload.
Proof.
  intros s o Hs Ho Hid. simpl in Hs, Ho.
  destruct Hs as [<- | [<- | []]]; destruct Ho as [<- | [<- | []]]; simpl in Hid;
    try discriminate; vm_compute; discriminate.
Qed.

Lemma workload_nonneg : amounts_nonneg workload.
Proof. intros o Ho. simpl in Ho. destruct Ho as [<- | [<- | []]]; simpl; lia. Qed.

Lemma scenario1_keys : keys_ok scenario1.
Proof. split; simpl; nodup_strings. Qed.

Lemma scenario1_fresh : fresh scenario1.
Proof.
  split; [reflexivity | split]; simpl; intros x H;
    repeat (destruct H as [<- | H]; [auto |]); destruct H.
Qed.

Lemma scenario1_aggregations : aggregations_nonempty scenario1.
Proof.
  intros s o Hs Ho Hid. simpl in Hs, Ho.
  destruct Hs as [<- | []]; destruct Ho as [<- | []]; vm_compute; discriminate.
Qed.


(** The staging rows of the workload keep their ids through a run, and
    its input tables are untouched. *)
Lemma accumulator_only_flips_flags_witness :
  only_flags workload
    (db (snd (Accumulate ComputeID_concat persist_spec 30 (world_of workload)))) /\
  map oaa_processed_out
    (output_addresses_accumulate
       (db (snd (Accumulate ComputeID_concat persist_spec 30 (world_of workload)))))
  = [1%Z; 1%Z].
Proof.
  split; [| vm_compute; reflexivity].
  exact (proj1 (accumulator_only_flips_flags ComputeID_concat persist_spec 0 30
                  (world_of workload))).
Defined.

(** The aggregates of the workload, empty before the run, only grow. *)
Lemma aggregates_never_decrease_witness :
  balances_grow (accumulate_balances workload)
    (accumulate_balances
       (db (snd (Accumulate ComputeID_concat persist_spec 30 (world_of workload))))).
Proof.
  exact (proj1 (aggregates_never_decrease ComputeID_concat persist_spec persist_spec_ok
                  0 30 (world_of workload) workload_nonneg)).
Defined.

(** The workload has 6 flags at 0: 70 rounds are enough. *)
Lemma accumulate_terminates_witness :
  flags_left workload = 6 /\
  fst (Accumulate ComputeID_concat persist_spec 70 (world_of workload)) = Returned None /\
  quiescent (db (snd (Accumulate ComputeID_concat persist_spec 70 (world_of workload)))).
Proof.
  split; [reflexivity |].
  apply (accumulate_terminates ComputeID_concat persist_spec persist_spec_ok
           ComputeID_concat_total 70 (world_of workload) eq_refl workload_aggregations).
  vm_compute. repeat constructor.
Defined.

(** A key that cannot be computed ends the run in the transaction pass
    of the first round, after two passes that returned no error. *)
Lemma accumulate_stops_at_first_error_witness :
  exists w1 p,
    passes_ok ComputeID_strict persist_spec
      (mk_World bad_key None [] [EvNewJob "accumulate"]) w1 /\
    run_pass ComputeID_strict persist_spec p w1 =
      ((0, Some "invalid id"),
       snd (Accumulate ComputeID_strict persist_spec 5 (world_of bad_key))) /\
    db (snd (Accumulate ComputeID_strict persist_spec 5 (world_of bad_key))) = db w1.
Proof.
  apply (proj1 (accumulate_stops_at_first_error ComputeID_strict persist_spec 5
                  (world_of bad_key)) "invalid id").
  vm_compute. reflexivity.
Defined.

(** After the two calls, the task that the first one started can move. *)
Lemma runner_makes_progress_witness :
  exists s', step (StepTask 0 AttemptNil) after_two_calls = Some s'.
Proof.
  exact (proj2 (runner_makes_progress two_concurrent_calls after_two_calls eq_refl)
           0 TaskAccumulate AttemptNil eq_refl eq_refl).
Defined.

(** Once the task of the first call has exited, a third call spawns. *)
Lemma runner_slot_is_reusable_witness :
  run task_to_its_end new_Runner = Some after_task /\
  run (task_to_its_end ++ one_call_alone after_task) new_Runner =
  Some (mk_Runner 1 false [CallerReturned true; CallerReturned false; CallerReturned true]
                  [TaskExited; TaskAccumulate]).
Proof.
  split; [reflexivity |].
  refine (proj2 (proj2 (runner_slot_is_reusable task_to_its_end after_task eq_refl eq_refl _))).
  intros pc Hpc. simpl in Hpc. destruct Hpc as [<- | [<- | []]]; reflexivity.
Defined.

(** Two calls, one task. *)
Lemma one_task_per_spawning_call_witness :
  List.length (tasks after_two_calls) = 1 /\
  count caller_spawned (callers after_two_calls) = 1.
Proof.
  split; [reflexivity |].
  rewrite <- (one_task_per_spawning_call two_concurrent_calls after_two_calls eq_refl).
  reflexivity.
Defined.

(** The driver's deadlock message, with its error number before and its
    advice after, is retried. *)
Lemma retry_is_by_substring_witness :
  Run_retry ComputeID_concat persist_spec 3 20 deadlocks_at_commit =
  Run_retry ComputeID_concat persist_spec 2 20
    (sleep_1ms (snd (Accumulate ComputeID_concat persist_spec 20 deadlocks_at_commit))).
Proof.
  apply (proj1 (retry_is_by_substring ComputeID_concat persist_spec 2 20
                  deadlocks_at_commit
                  (snd (Accumulate ComputeID_concat persist_spec 20 deadlocks_at_commit))
                  deadlock_message ltac:(vm_compute; reflexivity))).
  exists "Error 1213: ", " when trying to get lock; try restarting transaction".
  reflexivity.
Defined.

(** The deadlock scheduled for the eighth driver call comes back from the
    outputs-out pass, and the rest of the schedule is untouched. *)
Lemma pass_returns_first_failure_witness :
  (exists n,
      faults deadlocks_at_commit =
      repeat None n ++ Some deadlock_message
        :: faults (snd (run_pass ComputeID_concat persist_spec PassOut deadlocks_at_commit)))
  \/ (own_error ComputeID_concat persist_spec deadlock_message /\
      spent (faults deadlocks_at_commit)
        (faults (snd (run_pass ComputeID_concat persist_spec PassOut deadlocks_at_commit)))).
Proof.
  exact (pass_returns_first_failure ComputeID_concat persist_spec PassOut
           deadlocks_at_commit
           (snd (run_pass ComputeID_concat persist_spec PassOut deadlocks_at_commit))
           0 (Some deadlock_message) ltac:(vm_compute; reflexivity)).
Defined.

(** On the workload every redemption is accumulated after its output. *)
Lemma redemption_follows_output_witness :
  in_after_out (db (snd (Accumulate ComputeID_concat persist_spec 30 (world_of workload)))).
Proof.
  exact (redemption_follows_output ComputeID_concat persist_spec 30 (world_of workload)
           (proj1 (fresh_order workload workload_fresh))
           (proj2 (fresh_order workload workload_fresh))).
Defined.

(** The output X of the workload is redeemed: its key ends at 0. *)
Lemma utxo_count_never_negative_witness :
  (0 <= balance_column ab_utxo_count
          (db (snd (Accumulate ComputeID_concat persist_spec 30 (world_of workload))))
          "C:S:A")%Z /\
  balance_column ab_utxo_count
    (db (snd (Accumulate ComputeID_concat persist_spec 30 (world_of workload)))) "C:S:A"
  = 0%Z.
Proof.
  split; [| vm_compute; reflexivity].
  exact (utxo_count_never_negative ComputeID_concat persist_spec persist_spec_ok 30
           (world_of workload) "C:S:A" workload_keys
           (fresh_conserved ComputeID_concat workload workload_fresh)
           (proj1 (fresh_order workload workload_fresh))
           (proj2 (fresh_order workload workload_fresh))).
Defined.

(** The totals of the workload at the key of address B: one output of
    amount 7, not redeemed, and one transaction. *)
Lemma accumulate_computes_balances_witness :
  sum_amounts (staged ComputeID_concat workload "C:S:B") = 7%Z /\
  staged_redeemed ComputeID_concat workload "C:S:B" = [] /\
  List.length (staged_txs ComputeID_concat workload "C:S:B") = 1 /\
  fst (Accumulate ComputeID_concat persist_spec 70 (world_of workload)) = Returned None /\
  balance_column ab_total_received
    (db (snd (Accumulate ComputeID_concat persist_spec 70 (world_of workload)))) "C:S:B"
  = sum_amounts (staged ComputeID_concat workload "C:S:B").
Proof.
  split; [reflexivity | split; [reflexivity | split; [reflexivity |]]].
  pose proof (accumulate_computes_balances ComputeID_concat persist_spec persist_spec_ok
                ComputeID_concat_total 70 (world_of workload) "C:S:B" eq_refl
                workload_keys (fresh_conserved ComputeID_concat workload workload_fresh)
                (fresh_well_flagged workload workload_fresh) workload_aggregations
                ltac:(vm_compute; repeat constructor)) as H.
  split; [exact (proj1 H) | exact (proj1 (proj2 H))].
Defined.

(** With two deadlocks scheduled, every attempt still returns. *)
Lemma accumulate_always_returns_witness :
  flags_left scenario1 = 2 /\
  fst (Accumulate ComputeID_concat persist_spec 30 deadlocks_at_commit) <> OutOfFuel.
Proof.
  split; [reflexivity |].
  apply (accumulate_always_returns ComputeID_concat persist_spec 30 deadlocks_at_commit
           scenario1_aggregations).
  vm_compute. repeat constructor.
Defined.



(** The workload ends with one aggregate row for each of its two keys. *)
Lemma aggregate_keys_stay_unique_witness :
  NoDup (map ab_id (accumulate_balances
                      (db (snd (Accumulate ComputeID_concat persist_spec 30
                                  (world_of workload)))))) /\
  map ab_id (accumulate_balances
               (db (snd (Accumulate ComputeID_concat persist_spec 30 (world_of workload)))))
  = ["C:S:A"; "C:S:B"].
Proof.
  split; [| vm_compute; reflexivity].
  exact (proj1 (aggregate_keys_stay_unique ComputeID_concat persist_spec persist_spec_ok
                  0 30 (world_of workload) (NoDup_nil _))).
Defined.

(** I4 after a task that met two deadlocks. *)
Lemma task_conserves_witness :
  conserved_at ComputeID_concat
    (db (snd (Run_task ComputeID_concat persist_spec 17 30 deadlocks_at_commit))) "C:S:A".
Proof.
  exact (proj2 (task_conserves ComputeID_concat persist_spec persist_spec_ok 17 30
                  deadlocks_at_commit scenario1_keys
                  (fresh_conserved ComputeID_concat scenario1 scenario1_fresh)) "C:S:A").
Defined.
